(** * Knowledge_Graph_Generator: entity deduplication and graph aggregation

    A shallow embedding of the two algorithmic stages of the repository,
    [src/graph_builder.py] (build_graph_from_triplets) and
    [src/embeddings.py] (deduplicate_entities), together with the triplet
    normalisation closure of [app.py] (normalize), and the properties the
    specification states about them.

    Modelling conventions.
    - A Python [str] is a [string]; [len] is [String.length].
    - A Python [dict] is a [gmap], a Python [set] is a [gset].  The order in
      which Python iterates a [set] of strings depends on the hash seed of
      the process; it enters the model as a parameter [set_iter] that lists
      the elements of a set in some order.
    - The embedding provider (sentence-transformers) is a parameter
      [encode].  The numbers of the numpy arrays are modelled twice: in
      [Embeddings] as real numbers [R], the arithmetic without rounding,
      and in [FloatEmbeddings] as an arbitrary number format whose
      operations (norm, division, dot product, comparison) are parameters,
      of which the real numbers and the IEEE binary64 numbers of
      [Binary64] are instances. *)

From Stdlib Require Import Floats.
From Stdlib Require Import Reals Lra Ascii String.
From stdpp Require Import gmap strings list sorting.

Local Open Scope string_scope.
Local Open Scope list_scope.

(** ** src/graph_builder.py *)

Module GraphBuilder.

(** A triplet [(s, p, o)].  The loop tests [s is None or o is None], so
    subject and object are optional strings. *)
Definition triplet : Type := option string * string * option string.

(** Node attributes given by [G.add_node(s, label=s, type="entity")]. *)
Record node_attrs := NodeAttrs { n_label : string; n_type : string }.

(** Edge attributes; [P] is the type of the [preds] attribute: a Python set
    while the triplets are folded, a list once line 29 has run. *)
Record edge_attrs (P : Type) := EdgeAttrs {
  e_label : string;
  e_weight : nat;
  e_preds : P
}.
Arguments EdgeAttrs {P} _ _ _.
Arguments e_label {P} _.
Arguments e_weight {P} _.
Arguments e_preds {P} _.

(** The part of [nx.DiGraph] the function uses: the node dictionary and the
    edge data keyed by the ordered pair (source, target). *)
Record digraph (P : Type) := DiGraph {
  nodes : gmap string node_attrs;
  edges : gmap (string * string) (edge_attrs P)
}.
Arguments DiGraph {P} _ _.
Arguments nodes {P} _.
Arguments edges {P} _.

Definition empty_graph {P} : digraph P := DiGraph ∅ ∅.

Definition has_node {P} (G : digraph P) (v : string) : bool :=
  bool_decide (is_Some (nodes G !! v)).

Definition add_node {P} (G : digraph P) (v : string) : digraph P :=
  DiGraph (<[v := NodeAttrs v "entity"]> (nodes G)) (edges G).

Definition has_edge {P} (G : digraph P) (u v : string) : bool :=
  bool_decide (is_Some (edges G !! (u, v))).

(** [G.add_edge(s, o, label=p, weight=1, preds={p})]; both end points are
    nodes already when line 26 runs. *)
Definition add_edge (G : digraph (gset string)) (u v p : string)
  : digraph (gset string) :=
  DiGraph (nodes G) (<[(u, v) := EdgeAttrs p 1 {[p]}]> (edges G)).

(** Lines 23-24: [G[s][o]["weight"] += 1; G[s][o]["preds"].add(p)]. *)
Definition bump_edge (G : digraph (gset string)) (u v p : string)
  : digraph (gset string) :=
  DiGraph (nodes G)
    (alter (fun d => EdgeAttrs (e_label d) (e_weight d + 1) (e_preds d ∪ {[p]}))
           (u, v) (edges G)).

(** One iteration of the loop of lines 15-26. *)
Definition step (G : digraph (gset string)) (t : triplet)
  : digraph (gset string) :=
  match t with
  | (Some s, p, Some o) =>
      let G1 := if has_node G s then G else add_node G s in
      let G2 := if has_node G1 o then G1 else add_node G1 o in
      if has_edge G2 s o then bump_edge G2 s o p else add_edge G2 s o p
  | _ => G
  end.

(** The graph after the first loop: [preds] is still a set. *)
Definition aggregate (triplets : list triplet) : digraph (gset string) :=
  fold_left step triplets empty_graph.

Section Exposure.
(** [list(a_set)]: the order in which the running interpreter iterates a
    set of strings. *)
Variable set_iter : gset string → list string.

(** Lines 28-29: every [preds] set is replaced by [list(preds)]. *)
Definition expose (G : digraph (gset string)) : digraph (list string) :=
  DiGraph (nodes G)
    ((fun d => EdgeAttrs (e_label d) (e_weight d) (set_iter (e_preds d)))
       <$> edges G).

Definition build_graph_from_triplets (triplets : list triplet)
  : digraph (list string) :=
  expose (aggregate triplets).
End Exposure.

(** What an iteration order must satisfy: it lists exactly the elements of
    the set, each once. *)
Definition set_order (it : gset string → list string) : Prop :=
  ∀ X, it X ≡ₚ elements X.

(** Two iteration orders, as two hash seeds may give them. *)
Definition iter_up (X : gset string) : list string := elements X.
Definition iter_down (X : gset string) : list string := reverse (elements X).

(** Triplets the loop does not skip. *)
Definition kept (t : triplet) : bool :=
  match t with
  | (Some _, _, Some _) => true
  | _ => false
  end.

(** The ordered node pair of a triplet that is not skipped. *)
Definition pair_of (t : triplet) : option (string * string) :=
  match t with
  | (Some s, _, Some o) => Some (s, o)
  | _ => None
  end.

(** The predicates of the triplets folded into the edge [e], in input
    order. *)
Definition preds_on (e : string * string) (ts : list triplet) : list string :=
  omap (fun t => if bool_decide (pair_of t = Some e) then Some t.1.2 else None) ts.

(** The number of non-skipped triplets whose (subject, object) is [e]. *)
Definition occurrences (e : string * string) (ts : list triplet) : nat :=
  length (List.filter (fun t => bool_decide (pair_of t = Some e)) ts).

(** The input of the edge aggregation example. *)
Definition works_founded : list triplet :=
  [(Some "A", "works_at", Some "B");
   (Some "A", "works_at", Some "B");
   (Some "A", "founded", Some "B")].

(** [G.number_of_nodes()] and [G.number_of_edges()]. *)
Definition number_of_nodes {P} (G : digraph P) : nat := size (nodes G).
Definition number_of_edges {P} (G : digraph P) : nat := size (edges G).

(** The sum of the [weight] attributes of all edges. *)
Definition total_weight {P} (G : digraph P) : nat :=
  map_fold (fun _ d acc => e_weight d + acc) 0 (edges G).

(** The weight and the label of the edge [e], when there is one. *)
Definition weight_of {P} (G : digraph P) (e : string * string) : nat :=
  default 0 (e_weight <$> edges G !! e).
Definition label_of {P} (G : digraph P) (e : string * string) : option string :=
  e_label <$> edges G !! e.

(** The subjects and objects of the triplets the loop does not skip. *)
Definition endpoints (ts : list triplet) : list string :=
  ts ≫= (fun t => match t with
                  | (Some s, _, Some o) => [s; o]
                  | _ => []
                  end).

End GraphBuilder.

(** ** src/embeddings.py *)

(** The numbers are real numbers in this module: the arithmetic without
    rounding.  [FloatEmbeddings] below takes the arithmetic as a
    parameter; what depends on the arithmetic is stated there. *)

Module Embeddings.

(** [np.dot] of two rows. *)
Definition dot (u v : list R) : R := foldr Rplus 0%R (zip_with Rmult u v).

(** [np.linalg.norm(embs, axis=1, keepdims=True)]: one norm per row. *)
Definition l2norm (u : list R) : R := sqrt (dot u u).
Definition row_norms (embs : list (list R)) : list R := map l2norm embs.

(** [norms[norms == 0] = 1e-9]. *)
Definition epsilon : R := (/ 10 ^ 9)%R.
Definition clamp (x : R) : R := if Req_dec_T x 0 then epsilon else x.
Definition clamp_norms (norms : list R) : list R := map clamp norms.

(** [embs / norms]: every row is divided by its own (clamped) norm. *)
Definition divide_rows (embs : list (list R)) (norms : list R) : list (list R) :=
  zip_with (fun row d => map (fun x => (x / d)%R) row) embs norms.

(** Lines 31-33. *)
Definition normalize_rows (embs : list (list R)) : list (list R) :=
  divide_rows embs (clamp_norms (row_norms embs)).

(** Line 46, [cos >= threshold] with [cos = float(np.dot(embs_norm[i], embs_norm[j]))].
    Both indices are below [len(embs_norm)] whenever the loops evaluate it. *)
Definition cos_ge (embs_norm : list (list R)) (threshold : R) (i j : nat) : bool :=
  if Rge_dec (dot (embs_norm !!! i) (embs_norm !!! j)) threshold then true else false.

Section Greedy.
(** [n = len(embs_norm)] and the test of line 46. *)
Variable n : nat.
Variable similar : nat → nat → bool.

(** One iteration of the inner loop (lines 42-48) for the seed [i]; the
    state is [(cluster, visited)]. *)
Definition scan (i : nat) (st : list nat * gset nat) (j : nat)
  : list nat * gset nat :=
  if bool_decide (j ∈ st.2) then st
  else if similar i j then (st.1 ++ [j], st.2 ∪ {[j]})
  else st.

(** One iteration of the outer loop (lines 37-49); the state is
    [(visited, clusters)]. *)
Definition visit (st : gset nat * list (list nat)) (i : nat)
  : gset nat * list (list nat) :=
  if bool_decide (i ∈ st.1) then st
  else
    let inner := foldl (scan i) ([i], st.1 ∪ {[i]}) (seq (S i) (n - S i)) in
    (inner.2, st.2 ++ [inner.1]).

Definition greedy_clusters : list (list nat) :=
  (foldl visit (∅, []) (seq 0 n)).2.

(** The same pass written by recursion on the indices that are left:
    [V] is [visited], and a seed takes the later indices that are not
    visited and pass the test against it. *)
Fixpoint greedy_from (V : gset nat) (l : list nat) : list (list nat) :=
  match l with
  | [] => []
  | i :: rest =>
      if bool_decide (i ∈ V) then greedy_from V rest
      else
        let c := filter (fun j => (j ∉ V ∪ {[i]}) ∧ similar i j = true) rest in
        (i :: c) :: greedy_from (V ∪ {[i]} ∪ list_to_set c) rest
  end.

(** What [greedy_from V l] puts in a cluster: a seed of [l] not in [V],
    then later indices of [l] not in [V] that pass the test against it. *)
Definition cluster_in (V : gset nat) (l : list nat) (c : list nat) : Prop :=
  ∃ i rest, c = i :: rest ∧ i ∈ l ∧ (i ∉ V) ∧ StronglySorted lt c ∧
            Forall (fun j => j ∈ l ∧ (j ∉ V) ∧ similar i j = true) rest.

(** A cluster is its seed followed by later indices, in input order, each
    of which passes the test against the seed. *)
Definition seeded (c : list nat) : Prop :=
  ∃ i rest, c = i :: rest ∧ (i < n)%nat ∧ StronglySorted lt c ∧
            Forall (fun j => (j < n)%nat ∧ similar i j = true) rest.

(** [c1] was opened before [c2]: its seed comes first in the input, and no
    member of [c2] passes the test against the seed of [c1]. *)
Definition precedes (c1 c2 : list nat) : Prop :=
  ∃ i1 i2, head c1 = Some i1 ∧ head c2 = Some i2 ∧ (i1 < i2)%nat ∧
           Forall (fun j => similar i1 j = false) c2.
End Greedy.

(** [r] is the text of the member of [c] that is longest, and first in input
    order among the longest. *)
Definition first_longest (texts : list string) (c : list nat) (r : string) : Prop :=
  ∃ k, k ∈ c ∧ texts !! k = Some r ∧
       ∀ j s, j ∈ c → texts !! j = Some s →
              (String.length s ≤ String.length r)%nat ∧
              (String.length s = String.length r → (k ≤ j)%nat).

(** [max(xs, key=len)]: the first element of greatest length; [None] stands
    for the ValueError Python raises on an empty sequence. *)
Definition longer (best x : string) : string :=
  if (String.length best <? String.length x)%nat then x else best.
Definition max_len (xs : list string) : option string :=
  match xs with
  | [] => None
  | x :: rest => Some (foldl longer x rest)
  end.

(** What a call returns: the batches handed to the embedding provider, and
    the returned list ([None] when an exception is raised). *)
Record outcome := Outcome {
  embed_calls : list (list string);
  returned : option (list string)
}.

Section Dedup.
(** The embedding provider, [m.encode(texts, ...)]: one row per text. *)
Variable encode : list string → list (list R).

Definition embed_texts (texts : list string) : list (list R) := encode texts.

Definition embs_norm (entity_texts : list string) : list (list R) :=
  normalize_rows (embed_texts entity_texts).

(** The clusters of lines 34-49, as lists of indices. *)
Definition clusters_of (entity_texts : list string) (threshold : R)
  : list (list nat) :=
  let en := embs_norm entity_texts in
  greedy_clusters (length en) (cos_ge en threshold).

(** Line 50, for one cluster: [max([entity_texts[i] for i in c], key=len)];
    [None] when an index is out of range or the cluster is empty. *)
Definition representative (entity_texts : list string) (c : list nat)
  : option string :=
  mapM (fun i => entity_texts !! i) c ≫= max_len.

Definition deduplicate_entities (entity_texts : list string) (threshold : R)
  : outcome :=
  match entity_texts with
  | [] => Outcome [] (Some [])
  | _ =>
      Outcome [entity_texts]
        (mapM (representative entity_texts) (clusters_of entity_texts threshold))
  end.
End Dedup.

(** A provider that embeds each text on its own. *)
Definition encode_each (embed : string → list R) (texts : list string)
  : list (list R) := map embed texts.

(** Three unit vectors in the plane: the first and the last are far apart,
    the middle one is close to both. *)
Definition plane_embed (s : string) : list R :=
  if bool_decide (s = "a") then [1; 0]%R
  else if bool_decide (s = "bb") then [4 / 5; 3 / 5]%R
  else if bool_decide (s = "c") then [7 / 25; 24 / 25]%R
  else [0; 0]%R.
Definition plane_encode : list string → list (list R) := encode_each plane_embed.

End Embeddings.

(** ** src/embeddings.py on the numbers of numpy *)

Module FloatEmbeddings.

Section Arithmetic.
(** The numbers of the array [embs] (its dtype) and the numbers of Python
    ([float(...)] and [threshold]), with what numpy and Python compute on
    them: [np.linalg.norm] of one row (line 31 takes it along axis 1),
    [x == 0], the literal [1e-9] stored in the array, [x / d],
    [float(np.dot(u, v))] and [cos >= threshold]. *)
Variable F P : Type.
Variable norm : list F → F.
Variable eq_zero : F → bool.
Variable tiny : F.
Variable div : F → F → F.
Variable dot : list F → list F → P.
Variable ge : P → P → bool.

(** Line 31: one norm per row. *)
Definition row_norms (embs : list (list F)) : list F := map norm embs.

(** Line 32, [norms[norms == 0] = 1e-9]. *)
Definition clamp (x : F) : F := if eq_zero x then tiny else x.
Definition clamp_norms (norms : list F) : list F := map clamp norms.

(** Line 33, [embs / norms]: every row is divided by its own entry of
    [norms]. *)
Definition divide_rows (embs : list (list F)) (norms : list F) : list (list F) :=
  zip_with (fun row d => map (fun x => div x d) row) embs norms.

(** Lines 31-33. *)
Definition normalize_rows (embs : list (list F)) : list (list F) :=
  divide_rows embs (clamp_norms (row_norms embs)).

(** Lines 45-46. *)
Definition cos_ge (embs_norm : list (list F)) (threshold : P) (i j : nat) : bool :=
  ge (dot (embs_norm !!! i) (embs_norm !!! j)) threshold.

(** The embedding provider, [m.encode(texts, ...)]. *)
Variable encode : list string → list (list F).

Definition embs_norm (entity_texts : list string) : list (list F) :=
  normalize_rows (encode entity_texts).

(** Lines 34-49, with the loops of [Embeddings]. *)
Definition clusters_of (entity_texts : list string) (threshold : P)
  : list (list nat) :=
  let en := embs_norm entity_texts in
  Embeddings.greedy_clusters (length en) (cos_ge en threshold).

(** Lines 23-51. *)
Definition deduplicate_entities (entity_texts : list string) (threshold : P)
  : Embeddings.outcome :=
  match entity_texts with
  | [] => Embeddings.Outcome [] (Some [])
  | _ =>
      Embeddings.Outcome [entity_texts]
        (mapM (Embeddings.representative entity_texts)
              (clusters_of entity_texts threshold))
  end.
End Arithmetic.

Arguments row_norms {F} _ _.
Arguments clamp {F} _ _ _.
Arguments clamp_norms {F} _ _ _.
Arguments divide_rows {F} _ _ _.
Arguments normalize_rows {F} _ _ _ _ _.
Arguments cos_ge {F P} _ _ _ _ _ _.
Arguments embs_norm {F} _ _ _ _ _ _.
Arguments clusters_of {F P} _ _ _ _ _ _ _ _ _.
Arguments deduplicate_entities {F P} _ _ _ _ _ _ _ _ _.

End FloatEmbeddings.

(** The arithmetic without rounding: the operations of [Embeddings]. *)
Module Exact.
Definition eq_zero (x : R) : bool := if Req_dec_T x 0 then true else false.
Definition ge (x y : R) : bool := if Rge_dec x y then true else false.
End Exact.

(** IEEE binary64 numbers, with sums taken from left to right. *)
Module Binary64.
Definition sum_squares (row : list float) : float :=
  foldl (fun a x => PrimFloat.add a (PrimFloat.mul x x)) 0%float row.
Definition norm (row : list float) : float := PrimFloat.sqrt (sum_squares row).
Definition eq_zero (x : float) : bool := PrimFloat.eqb x 0%float.
(** The binary64 number next to 1e-9. *)
Definition tiny : float := 0x1.12e0be826d695p-30%float.
Definition dot (u v : list float) : float :=
  foldl (fun a p => PrimFloat.add a (PrimFloat.mul p.1 p.2)) 0%float (zip u v).
Definition ge (x y : float) : bool := PrimFloat.leb y x.

(** Embeddings in the plane: "a", "bb" and "c" point in the directions
    of the example of [Embeddings.plane_embed] and have the lengths 1, 5
    and 25; "zero" is the zero vector; every other text has an embedding
    so small that its squares are rounded to zero. *)
Definition rows (texts : list string) : list (list float) :=
  map (fun s => if bool_decide (s = "a") then [1; 0]%float
                else if bool_decide (s = "bb") then [4; 3]%float
                else if bool_decide (s = "c") then [7; 24]%float
                else if bool_decide (s = "zero") then [0; 0]%float
                else [0x1p-600; 0]%float) texts.
End Binary64.

(** ** app.py: the closure [normalize] *)

Module App.

(** [str.lower] on the characters of code 0 to 255: the capital letters,
    which are A-Z (65 to 90) and the accented capitals of codes 192 to 222
    but for the sign of code 215, go to the small letter 32 codes further;
    every other character stays. *)
Definition lower_char (c : ascii) : ascii :=
  let k := nat_of_ascii c in
  if ((65 <=? k) && (k <=? 90)
      || (192 <=? k) && (k <=? 222) && negb (k =? 215))%nat
  then ascii_of_nat (k + 32) else c.
Fixpoint lower (s : string) : string :=
  match s with
  | EmptyString => EmptyString
  | String c s' => String (lower_char c) (lower s')
  end.

(** [needle in hay] on strings. *)
Fixpoint contains (needle hay : string) : bool :=
  String.prefix needle hay ||
  match hay with
  | EmptyString => false
  | String _ hay' => contains needle hay'
  end.

(** [needle] occurs in [hay] as a contiguous piece. *)
Definition substring (needle hay : string) : Prop :=
  ∃ pre post, hay = String.app pre (String.app needle post).

(** The test of line 98. *)
Definition overlaps (e r : string) : bool :=
  contains (lower e) (lower r) || contains (lower r) (lower e).

(** The loop of lines 97-100. *)
Fixpoint first_overlap (e : string) (reps : list string) : string :=
  match reps with
  | [] => e
  | r :: rest => if overlaps e r then r else first_overlap e rest
  end.

(** Lines 94-100; [reps] is the variable the closure captures. *)
Definition normalize (reps : list string) (e : string) : string :=
  if bool_decide (e = "") then e else first_overlap e reps.

(** The policy in the words of the specification: the first representative,
    in list order, that matches the mention by case-insensitive substring
    containment; the mention itself when none matches. *)
Definition normalize_policy (reps : list string) (e : string) : string :=
  match List.find (overlaps e) reps with
  | Some r => r
  | None => e
  end.

(** [list(dict.fromkeys(xs))] (lines 84 and 88): a dict keeps its keys in
    the order in which they were first inserted, and setting a key that is
    there already leaves its place unchanged. *)
Definition fromkeys (xs : list string) : list string :=
  foldl (fun keys x => if bool_decide (x ∈ keys) then keys else keys ++ [x]) [] xs.

(** Line 102: [[(normalize(s), p, normalize(o)) for (s, p, o) in triplets
    if s and o]]; [None] and the empty string are the falsy values. *)
Definition normalized_triplets (reps : list string)
    (triplets : list GraphBuilder.triplet) : list GraphBuilder.triplet :=
  omap (fun t => match t with
                 | (Some s, p, Some o) =>
                     if bool_decide (s ≠ "" ∧ o ≠ "")
                     then Some (Some (normalize reps s), p, Some (normalize reps o))
                     else None
                 | _ => None
                 end) triplets.

(** Lines 102-108: the graph the application draws. *)
Definition knowledge_graph (set_iter : gset string → list string)
    (reps : list string) (triplets : list GraphBuilder.triplet)
  : GraphBuilder.digraph (list string) :=
  GraphBuilder.build_graph_from_triplets set_iter (normalized_triplets reps triplets).

End App.

(** ** src/preprocess.py *)

Module Preprocess.
Local Open Scope nat_scope.

(** The characters the functions name. *)
Definition LF : ascii := "010"%char.
Definition CR : ascii := "013"%char.
Definition TAB : ascii := "009"%char.
Definition SP : ascii := " "%char.

(** [str.isspace] on the characters of the model, which is also what
    [str.strip] removes and what [\s] matches: the codes 9-13, 28-32, 133
    and 160. *)
Definition isspace (c : ascii) : bool :=
  let k := nat_of_ascii c in
  ((9 <=? k) && (k <=? 13)) || ((28 <=? k) && (k <=? 32)) || (k =? 133) || (k =? 160).

(** Line 34: [text.replace("\r", "\n")]. *)
Definition replace_cr (s : list ascii) : list ascii :=
  map (fun c => if Ascii.eqb c CR then LF else c) s.

(** Line 35: [re.sub(r"\n{2,}", "\n\n", text)]; every maximal run of two
    or more newlines becomes two newlines.  [k] is the number of newlines
    read just before. *)
Fixpoint squeeze_newlines (k : nat) (s : list ascii) : list ascii :=
  match s with
  | [] => []
  | c :: r =>
      if Ascii.eqb c LF
      then if k <? 2 then c :: squeeze_newlines (S k) r else squeeze_newlines (S k) r
      else c :: squeeze_newlines 0 r
  end.

(** [re.sub(r"[...]+", " ", text)] for a class of characters [P]: every
    maximal run of characters of the class becomes one space.  [in_run]
    tells that the character read just before was of the class. *)
Fixpoint blank_runs (P : ascii → bool) (in_run : bool) (s : list ascii) : list ascii :=
  match s with
  | [] => []
  | c :: r =>
      if P c
      then if in_run then blank_runs P true r else SP :: blank_runs P true r
      else c :: blank_runs P false r
  end.

(** The class of line 37, [[^\x09\x0A\x0D\x20-\x7E]], and the class of
    line 38, [[ \t]]. *)
Definition unprintable (c : ascii) : bool :=
  let k := nat_of_ascii c in
  negb ((k =? 9) || (k =? 10) || (k =? 13) || ((32 <=? k) && (k <=? 126))).
Definition space_or_tab (c : ascii) : bool := Ascii.eqb c SP || Ascii.eqb c TAB.

(** [str.strip()]. *)
Fixpoint lstrip (s : list ascii) : list ascii :=
  match s with
  | [] => []
  | c :: r => if isspace c then lstrip r else s
  end.
Definition rstrip (s : list ascii) : list ascii := rev (lstrip (rev s)).
Definition strip (s : list ascii) : list ascii := rstrip (lstrip s).

(** Lines 32-39 on the characters of the text. *)
Definition clean_chars (s : list ascii) : list ascii :=
  strip (blank_runs space_or_tab false
           (blank_runs unprintable false
              (squeeze_newlines 0 (replace_cr s)))).

Definition clean_text (text : string) : string :=
  string_of_list_ascii (clean_chars (list_ascii_of_string text)).

(** The characters [[\.\?\!]] of the lookbehind of line 63. *)
Definition is_end (c : ascii) : bool :=
  Ascii.eqb c "."%char || Ascii.eqb c "?"%char || Ascii.eqb c "!"%char.

(** Line 63: [re.split(r'(?<=[\.\?\!])\s+', text)].  A separator is a
    maximal run of whitespace that starts right after ".", "?" or "!".
    [cur] is the piece read so far, [after_end] tells that the character
    read just before was one of the three, [skipping] that a separator is
    being read. *)
Fixpoint split_pieces (cur : list ascii) (after_end skipping : bool) (s : list ascii)
  : list (list ascii) :=
  match s with
  | [] => [cur]
  | c :: r =>
      if isspace c then
        if skipping then split_pieces cur false true r
        else if after_end then cur :: split_pieces [] false true r
        else split_pieces (cur ++ [c]) false false r
      else split_pieces (cur ++ [c]) (is_end c) false r
  end.

(** Lines 57-64; [p.strip()] is falsy when it is empty. *)
Definition _simple_sent_split (text : list ascii) : list (list ascii) :=
  List.filter (fun p => negb (Nat.eqb (length (strip p)) 0))
              (split_pieces [] false false text).

(** Line 55: [[s.strip() for s in sents if len(s.strip()) > 3]]. *)
Definition keep_long (sents : list (list ascii)) : list (list ascii) :=
  map strip (List.filter (fun s => 3 <? length (strip s)) sents).

(** What a call of [sent_tokenize] does. *)
Inductive tokenized :=
  | Sentences (sents : list (list ascii))
  | RaisesLookupError
  | RaisesOther.

Section SplitSentences.
(** [_PUNKT_AVAILABLE], and NLTK's [sent_tokenize] at its first call and at
    the call that follows [_ensure_punkt()]. *)
Variable _PUNKT_AVAILABLE : bool.
Variable sent_tokenize : tokenized.
Variable sent_tokenize_again : tokenized.

(** Lines 43-54, for a cleaned text: [None] when an exception leaves the
    function. *)
Definition tokenize (text : list ascii) : option (list (list ascii)) :=
  if _PUNKT_AVAILABLE then
    match sent_tokenize with
    | Sentences sents => Some sents
    | RaisesLookupError =>
        match sent_tokenize_again with
        | Sentences sents => Some sents
        | _ => Some (_simple_sent_split text)
        end
    | RaisesOther => None
    end
  else Some (_simple_sent_split text).

(** Lines 41-55. *)
Definition split_sentences (text : list ascii) : option (list (list ascii)) :=
  keep_long <$> tokenize (clean_chars text).
End SplitSentences.

(** The properties of a cleaned text, as checks that run. *)
Definition allowed (c : ascii) : bool :=
  let k := nat_of_ascii c in (k =? 10) || ((32 <=? k) && (k <=? 126)).
Fixpoint short_newline_runs (k : nat) (s : list ascii) : bool :=
  match s with
  | [] => true
  | c :: r =>
      if Ascii.eqb c LF then (k <? 2) && short_newline_runs (S k) r
      else short_newline_runs 0 r
  end.
Fixpoint single_spaces (after_space : bool) (s : list ascii) : bool :=
  match s with
  | [] => true
  | c :: r =>
      if Ascii.eqb c SP then negb after_space && single_spaces true r
      else single_spaces false r
  end.
Definition no_outer_space (s : list ascii) : bool :=
  match head s, last s with
  | Some a, Some b => negb (isspace a) && negb (isspace b)
  | _, _ => true
  end.
Definition tidy (s : list ascii) : bool :=
  forallb allowed s && short_newline_runs 0 s && single_spaces false s && no_outer_space s.

End Preprocess.

(** ** src/graph_image.py: the labels and the colours that are drawn *)

Module GraphImage.
Local Open Scope nat_scope.

(** Lines 118-119 and line 129: a label of more than 30 characters is cut
    to its first 27 characters and "...". *)
Definition shorten (lab : string) : string :=
  if 30 <? String.length lab
  then String.append (String.substring 0 27 lab) "..."
  else lab.

(** Lines 114-120: [labels[n]] for every node; the nodes of the graphs of
    this repository all have a [label]. *)
Definition node_labels {P} (G : GraphBuilder.digraph P) : gmap string string :=
  (fun a => shorten (GraphBuilder.n_label a)) <$> GraphBuilder.nodes G.

(** Lines 125-129: [edge_labels[(u, v)]] for the edges whose [label] is
    truthy. *)
Definition edge_labels {P} (G : GraphBuilder.digraph P)
  : gmap (string * string) string :=
  omap (fun d => if bool_decide (GraphBuilder.e_label d = "")
                 then None else Some (shorten (GraphBuilder.e_label d)))
       (GraphBuilder.edges G).

(** Lines 71-78: every type gets the number of distinct types seen before
    it; the state is [(unique_types, idx, colors)]. *)
Definition color_step (st : gmap (option string) nat * nat * list nat)
    (t : option string) : gmap (option string) nat * nat * list nat :=
  let '(unique_types, idx, colors) := st in
  match unique_types !! t with
  | Some c => (unique_types, idx, colors ++ [c])
  | None => (<[t := idx]> unique_types, idx + 1, colors ++ [idx])
  end.
Definition type_colors (node_types : list (option string)) : list nat :=
  (foldl color_step (∅, 0, []) node_types).2.

End GraphImage.

(** ** src/nlp_pipeline.py: what does not depend on the spaCy parse *)

Module NlpPipeline.
Local Open Scope nat_scope.

Definition relation : Type := string * string * string.

(** Lines 71-75: consecutive entities are linked by "related_to". *)
Definition link_entities (ents : list string) : list relation :=
  if 2 <=? length ents
  then map (fun i => (ents !!! i, "related_to", ents !!! (i + 1)))
           (seq 0 (length ents - 1))
  else [].

(** Lines 77-85: one step of the loop; the state is [(seen, out)]. *)
Definition dedupe_step (st : gset relation * list relation) (r : relation)
  : gset relation * list relation :=
  if bool_decide (r ∈ st.1) then st else (st.1 ∪ {[r]}, st.2 ++ [r]).
Definition dedupe (relations : list relation) : list relation :=
  (foldl dedupe_step (∅, []) relations).2.

Section ExtractRelations.
(** What lines 52-69 append to [relations] for the sentence: the "X of Y"
    matches and the subject-verb-object triples of the dependency parse;
    and [[ent.text for ent in doc.ents]]. *)
Variable parsed_relations : list relation.
Variable ents : list string.

Definition extract_relations_from_sentence : list relation :=
  dedupe (parsed_relations ++ link_entities ents).
End ExtractRelations.

(** The labels of line 96. *)
Definition antecedent_labels : list string :=
  ["PERSON"; "ORG"; "GPR"; "NORP"; "PRODUCT"].

Section NaiveCoref.
(** [[(ent.text, ent.label_) for ent in nlp(sent).ents]], and the sentence
    with every pronoun of [PRONOUNS] replaced by a given text (line 103
    when [repl] returns [last_entity]). *)
Variable doc_ents : string → list (string * string).
Variable replace_pronouns : string → string → string.

(** Line 96: the texts of the entities of the sentence that have one of
    the labels. *)
Definition antecedents (sent : string) : list string :=
  map fst (List.filter (fun e => bool_decide (e.2 ∈ antecedent_labels))
                       (doc_ents sent)).

(** Lines 99-103: when [last_entity] is falsy [repl] returns every match
    as it is, and the sentence is unchanged. *)
Definition sub_pronouns (last_entity : option string) (sent : string) : string :=
  match last_entity with
  | Some e => if bool_decide (e = "") then sent else replace_pronouns e sent
  | None => sent
  end.

(** One sentence of the loop of lines 94-104; the state is
    [(last_entity, resolved)]. *)
Definition coref_step (st : option string * list string) (sent : string)
  : option string * list string :=
  let last_entity := match last (antecedents sent) with
                     | Some e => Some e
                     | None => st.1
                     end in
  (last_entity, st.2 ++ [sub_pronouns last_entity sent]).

Definition naive_coref_resolution (sentences : list string) : list string :=
  (foldl coref_step (None, []) sentences).2.
End NaiveCoref.

End NlpPipeline.

(** ** src/embeddings.py: the cached model *)

Module ModelCache.

Definition MODEL_NAME : string := "all-MiniLM-L6-v2".

Section GetModel.
(** The model type of sentence-transformers and its constructor. *)
Variable model : Type.
Variable SentenceTransformer : string → model.

(** The global [_model], with the names the constructor was called with. *)
Record globals := Globals {
  _model : option model;
  constructed : list string
}.

Definition start : globals := Globals None [].

(** Lines 12-16. *)
Definition get_model (g : globals) : model * globals :=
  match _model g with
  | None =>
      let m := SentenceTransformer MODEL_NAME in
      (m, Globals (Some m) (constructed g ++ [MODEL_NAME]))
  | Some m => (m, g)
  end.

(** Lines 18-20 followed by lines 23-51: [embed_texts] asks for the model
    when the list is not empty; [encode_with m] is [m.encode]. *)
Variable encode_with : model → list string → list (list R).

Definition deduplicate_entities (g : globals) (entity_texts : list string)
    (threshold : R) : Embeddings.outcome * globals :=
  match entity_texts with
  | [] => (Embeddings.Outcome [] (Some []), g)
  | _ =>
      let '(m, g') := get_model g in
      (Embeddings.deduplicate_entities (encode_with m) entity_texts threshold, g')
  end.

(** The calls of one process, one after the other (line 88 of app.py at
    every run of the script): what each returns, and the globals at the
    end. *)
Fixpoint calls (g : globals) (batches : list (list string * R))
  : list Embeddings.outcome * globals :=
  match batches with
  | [] => ([], g)
  | (entity_texts, threshold) :: rest =>
      let '(o, g1) := deduplicate_entities g entity_texts threshold in
      let '(os, g2) := calls g1 rest in
      (o :: os, g2)
  end.
End GetModel.

Arguments Globals {model} _ _.
Arguments _model {model} _.
Arguments constructed {model} _.
Arguments start {model}.
Arguments get_model {model} _ _.
Arguments deduplicate_entities {model} _ _ _ _ _.
Arguments calls {model} _ _ _ _.

End ModelCache.

(** ** src/ingestion.py *)

Module Ingestion.
Local Open Scope nat_scope.

(** What the PDF library and the OCR engine do on one page: the text layer
    ([None] when [page.get_text()] raises), whether the page can be
    rendered to an image, and the text read from the image ([None] when
    [pytesseract.image_to_string] raises). *)
Record page := Page {
  get_text : option string;
  renders : bool;
  image_to_string : option string
}.

Definition strip (s : string) : string :=
  string_of_list_ascii (Preprocess.strip (list_ascii_of_string s)).

(** Lines 28-39 for one page; [None] when an exception leaves the
    function (lines 33-34 are outside the [try]). *)
Definition page_text (ocr_if_needed : bool) (p : page) : option string :=
  let text := match get_text p with
              | Some t => strip t
              | None => ""
              end in
  if bool_decide (text = "") && ocr_if_needed then
    if renders p then Some (default "" (image_to_string p)) else None
  else Some text.

(** The loop of lines 27-39 from page number [i] on; the dictionaries
    [{"page_num": i, "text": text}] are pairs.  The document yields its
    pages one by one; [None] stands for a page whose loading raises. *)
Fixpoint extract_from (ocr_if_needed : bool) (i : nat) (doc : list (option page))
    (pages : list (nat * string)) : option (list (nat * string)) :=
  match doc with
  | [] => Some pages
  | None :: _ => None
  | Some p :: rest =>
      match page_text ocr_if_needed p with
      | Some text => extract_from ocr_if_needed (S i) rest (pages ++ [(i, text)])
      | None => None
      end
  end.

Section OpenPdf.
(** [open_pdf] (lines 16-19): the document for the path or the bytes
    given; [None] when [fitz.open] raises, as it does on what is no PDF. *)
Variable input : Type.
Variable open_pdf : input → option (list (option page)).

(** Lines 21-41; [None] when an exception leaves the function. *)
Definition extract_text_from_pdf (path_or_bytes : input) (ocr_if_needed : bool)
  : option (list (nat * string)) :=
  match open_pdf path_or_bytes with
  | Some doc => extract_from ocr_if_needed 1 doc []
  | None => None
  end.
End OpenPdf.

Arguments extract_text_from_pdf {input} _ _ _.

End Ingestion.

(** * Properties *)

Import GraphBuilder Embeddings App.

(** ** The definitions on small inputs *)

Section Evaluation.

(** The examples of the specification. *)
Example self_loop it :
  dom (nodes (build_graph_from_triplets it [(Some "A", "self_rel", Some "A")]))
    = ({[ "A" ]} : gset string) ∧
  (e_weight <$> edges (build_graph_from_triplets it [(Some "A", "self_rel", Some "A")]))
    = {[ ("A", "A") := 1 ]}.
Proof.
  unfold build_graph_from_triplets, expose. cbn [nodes edges]. split.
  - by vm_compute.
  - rewrite <- map_fmap_compose. by vm_compute.
Qed.

Example absent_subject it :
  build_graph_from_triplets it [(None, "rel", Some "B")] = empty_graph.
Proof.
  change (expose it empty_graph = empty_graph).
  unfold expose, empty_graph. cbn [nodes edges]. by rewrite fmap_empty.
Qed.

Example max_len_robert : max_len ["Bob"; "Robert"; "Bobby"] = Some "Robert".
Proof. reflexivity. Qed.

Example max_len_tie : max_len ["Bob"; "Bobby"; "Alice"] = Some "Bobby".
Proof. reflexivity. Qed.

Example max_len_empty : max_len [] = None.
Proof. reflexivity. Qed.

(** Three mentions, the first two close to each other: two clusters; with
    no two close: three clusters. *)
Example two_clusters :
  greedy_clusters 3 (fun i j => bool_decide (i = 0 ∧ j = 1)) = [[0; 1]; [2]].
Proof. by vm_compute. Qed.

Example three_clusters :
  greedy_clusters 3 (fun _ _ => false) = [[0]; [1]; [2]].
Proof. by vm_compute. Qed.

(** The test is against the seed only: 2 is close to 1 but not to the seed
    0, and 3 is close to the seed 0 only. *)
Example seed_only :
  greedy_clusters 4 (fun i j => bool_decide (j = i + 1 ∨ (i = 0 ∧ j = 3)))
    = [[0; 1; 3]; [2]].
Proof. by vm_compute. Qed.

Example normalize_first : normalize ["Robert Smith"; "Bob"; "Bobby"] "bob" = "Bob".
Proof. reflexivity. Qed.

Example normalize_case : normalize ["Robert Smith"; "Bob"] "SMITH" = "Robert Smith".
Proof. reflexivity. Qed.

Example normalize_longer_mention :
  normalize ["Bob"; "Robert"] "Sir Robert of York" = "Robert".
Proof. reflexivity. Qed.

Example normalize_none : normalize ["Robert Smith"; "Bob"] "Alice" = "Alice".
Proof. reflexivity. Qed.

End Evaluation.

(** ** The graph aggregator *)

Section Aggregation.

Lemma aggregate_snoc ts t : aggregate (ts ++ [t]) = step (aggregate ts) t.
Proof. unfold aggregate. by rewrite fold_left_app. Qed.

Lemma step_skipped G t : kept t = false → step G t = G.
Proof. by destruct t as [[[s|] p] [o|]]. Qed.

Lemma aggregate_filter_from G ts :
  fold_left step (List.filter kept ts) G = fold_left step ts G.
Proof.
  revert G. induction ts as [|t ts IH]; intros G; [done|].
  cbn [List.filter]. destruct (kept t) eqn:Hk; cbn [fold_left].
  - apply IH.
  - rewrite (step_skipped G t Hk). apply IH.
Qed.

(** The edge data after one more triplet. *)
Lemma step_edges G s p o e :
  edges (step G (Some s, p, Some o)) !! e =
    if bool_decide ((s, o) = e) then
      Some (match edges G !! e with
            | Some d => EdgeAttrs (e_label d) (e_weight d + 1) (e_preds d ∪ {[p]})
            | None => EdgeAttrs p 1 {[p]}
            end)
    else edges G !! e.
Proof.
  cbn [step].
  set (G1 := if has_node G s then G else add_node G s).
  set (G2 := if has_node G1 o then G1 else add_node G1 o).
  assert (HE : edges G2 = edges G).
  { subst G2 G1. by repeat case_match. }
  unfold has_edge. rewrite HE.
  destruct (decide ((s, o) = e)) as [<-|Hne].
  - rewrite (bool_decide_eq_true_2 ((s, o) = (s, o))); [|done].
    case_bool_decide as Hin.
    + destruct Hin as [d Hd]. cbn. rewrite HE, lookup_alter_eq, Hd. done.
    + apply eq_None_not_Some in Hin. cbn. rewrite HE, lookup_insert_eq, Hin. done.
  - rewrite (bool_decide_eq_false_2 ((s, o) = e)); [|done].
    case_bool_decide as Hin; cbn; rewrite HE.
    + by rewrite lookup_alter_ne.
    + by rewrite lookup_insert_ne.
Qed.

Lemma preds_on_snoc e ts t :
  preds_on e (ts ++ [t]) =
    preds_on e ts ++ (if bool_decide (pair_of t = Some e) then [t.1.2] else []).
Proof. unfold preds_on. rewrite omap_app. cbn. by case_bool_decide. Qed.

Lemma length_preds_on e ts : length (preds_on e ts) = occurrences e ts.
Proof.
  unfold preds_on, occurrences.
  induction ts as [|t ts IH]; [done|]. cbn.
  case_bool_decide; cbn; by rewrite IH.
Qed.

(** The loop invariant in closed form: the data of every edge after the
    first loop, read off the input. *)
Lemma edges_aggregate ts e :
  edges (aggregate ts) !! e =
    match preds_on e ts with
    | [] => None
    | p0 :: _ => Some (EdgeAttrs p0 (occurrences e ts) (list_to_set (preds_on e ts)))
    end.
Proof.
  induction ts as [|t ts IH] using rev_ind; [done|].
  rewrite aggregate_snoc, <- !length_preds_on, preds_on_snoc.
  rewrite <- length_preds_on in IH.
  destruct t as [[[s|] p] [o|]]; cbn [pair_of];
    try (rewrite bool_decide_eq_false_2; [|done]; rewrite app_nil_r;
         rewrite step_skipped; done).
  rewrite step_edges, IH.
  case_bool_decide as Hse.
  - rewrite bool_decide_eq_true_2; [|by f_equal].
    destruct (preds_on e ts) as [|p0 ps] eqn:Hps; cbn.
    + do 2 f_equal. by rewrite (right_id_L ∅ (∪)).
    + rewrite length_app. cbn. do 2 f_equal.
      rewrite list_to_set_app_L. cbn.
      by rewrite (right_id_L ∅ (∪)), (assoc_L (∪)).
  - rewrite bool_decide_eq_false_2; [|congruence].
    by rewrite app_nil_r.
Qed.

Lemma edges_expose it G e :
  edges (expose it G) !! e =
    (fun d => EdgeAttrs (e_label d) (e_weight d) (it (e_preds d))) <$> edges G !! e.
Proof. cbn. by rewrite lookup_fmap. Qed.

Lemma iter_up_order : set_order iter_up.
Proof. by intros X. Qed.

Lemma iter_down_order : set_order iter_down.
Proof. intros X. unfold iter_down. by rewrite reverse_Permutation. Qed.

Lemma aggregate_filter ts : aggregate (List.filter kept ts) = aggregate ts.
Proof. apply aggregate_filter_from. Qed.

Lemma aggregate_empty_label :
  aggregate [(Some "A", "rel", Some "")] =
    DiGraph {[ "A" := NodeAttrs "A" "entity"; "" := NodeAttrs "" "entity" ]}
            {[ ("A", "") := EdgeAttrs "rel" 1 {[ "rel" ]} ]}.
Proof. by vm_compute. Qed.

Lemma size_expose it G :
  size (nodes (expose it G)) = size (nodes G) ∧
  size (edges (expose it G)) = size (edges G).
Proof. cbn. by rewrite map_size_fmap. Qed.

(** C1, as stated, fails: the loop tests [is None] only, so the empty
    string is a node label like any other and the triplet ("A","rel","")
    alone gives two nodes and one edge, not an empty graph. *)
Lemma empty_object_not_skipped :
  (∀ it, size (nodes (build_graph_from_triplets it [(Some "A", "rel", Some "")])) = 2) ∧
  (∀ it, size (edges (build_graph_from_triplets it [(Some "A", "rel", Some "")])) = 1).
Proof.
  split; intros it; unfold build_graph_from_triplets;
    destruct (size_expose it (aggregate [(Some "A", "rel", Some "")])) as [Hn He].
  - rewrite Hn. by vm_compute.
  - rewrite He. by vm_compute.
Qed.

(** C1 (amended): a triplet whose subject or object is absent ([None]) is
    skipped and contributes nothing: the graph of a list is the graph of
    the list without such triplets, and a single such triplet gives the
    empty graph.  An empty string is not absent: ("A","rel","") alone
    gives the two nodes "A" and "" and one edge between them. *)
Theorem absent_skipped_empty_kept it :
  (∀ ts, build_graph_from_triplets it ts =
         build_graph_from_triplets it (List.filter kept ts)) ∧
  (∀ p o, build_graph_from_triplets it [(None, p, o)] = empty_graph) ∧
  (∀ s p, build_graph_from_triplets it [(s, p, None)] = empty_graph) ∧
  dom (nodes (build_graph_from_triplets it [(Some "A", "rel", Some "")]))
    = ({[ "A"; "" ]} : gset string) ∧
  dom (edges (build_graph_from_triplets it [(Some "A", "rel", Some "")]))
    = ({[ ("A", "") ]} : gset (string * string)).
Proof.
  unfold build_graph_from_triplets.
  split; [|split; [|split; [|split]]].
  - intros ts. by rewrite aggregate_filter.
  - intros p o. change (expose it empty_graph = empty_graph).
    unfold expose, empty_graph. cbn [nodes edges]. by rewrite fmap_empty.
  - intros [s|] p; change (expose it empty_graph = empty_graph);
      unfold expose, empty_graph; cbn [nodes edges]; by rewrite fmap_empty.
  - rewrite aggregate_empty_label. cbn. by vm_compute.
  - rewrite aggregate_empty_label. cbn. rewrite dom_fmap_L. by vm_compute.
Qed.

(** The two-triplet input on which two iteration orders disagree. *)
Lemma two_preds_up :
  edges (build_graph_from_triplets iter_up
           [(Some "A", "works_at", Some "B"); (Some "A", "founded", Some "B")])
    !! ("A", "B") = Some (EdgeAttrs "works_at" 2 ["works_at"; "founded"]).
Proof. by vm_compute. Qed.

Lemma two_preds_down :
  edges (build_graph_from_triplets iter_down
           [(Some "A", "works_at", Some "B"); (Some "A", "founded", Some "B")])
    !! ("A", "B") = Some (EdgeAttrs "works_at" 2 ["founded"; "works_at"]).
Proof. by vm_compute. Qed.

(** C2, as stated, fails: [preds] is [list(a_set)], so its order is the
    iteration order of a set.  Two admissible iteration orders give, on
    the same two triplets, two different [preds] lists and so two
    different graphs. *)
Lemma preds_order_differs :
  set_order iter_up ∧ set_order iter_down ∧
  edges (build_graph_from_triplets iter_up
           [(Some "A", "works_at", Some "B"); (Some "A", "founded", Some "B")])
    !! ("A", "B") = Some (EdgeAttrs "works_at" 2 ["works_at"; "founded"]) ∧
  edges (build_graph_from_triplets iter_down
           [(Some "A", "works_at", Some "B"); (Some "A", "founded", Some "B")])
    !! ("A", "B") = Some (EdgeAttrs "works_at" 2 ["founded"; "works_at"]) ∧
  build_graph_from_triplets iter_up
    [(Some "A", "works_at", Some "B"); (Some "A", "founded", Some "B")] ≠
  build_graph_from_triplets iter_down
    [(Some "A", "works_at", Some "B"); (Some "A", "founded", Some "B")].
Proof.
  split; [apply iter_up_order|]. split; [apply iter_down_order|].
  split; [apply two_preds_up|]. split; [apply two_preds_down|].
  intros Heq. pose proof two_preds_up as Hu. rewrite Heq, two_preds_down in Hu.
  discriminate Hu.
Qed.

(** C2 (amended): two runs on the same input agree on everything but the
    order of the [preds] lists: the node dictionaries are equal, the same
    ordered pairs carry an edge, with the same label and weight, and the
    two [preds] lists of an edge are permutations of each other. *)
Theorem deterministic_up_to_preds_order it1 it2 ts :
  set_order it1 → set_order it2 →
  nodes (build_graph_from_triplets it1 ts) = nodes (build_graph_from_triplets it2 ts) ∧
  ∀ e, match edges (build_graph_from_triplets it1 ts) !! e,
             edges (build_graph_from_triplets it2 ts) !! e with
       | Some d1, Some d2 =>
           e_label d1 = e_label d2 ∧ e_weight d1 = e_weight d2 ∧
           e_preds d1 ≡ₚ e_preds d2
       | None, None => True
       | _, _ => False
       end.
Proof.
  intros H1 H2. split; [done|]. intros e.
  unfold build_graph_from_triplets. rewrite !edges_expose.
  destruct (edges (aggregate ts) !! e) as [d|]; cbn; [|done].
  split; [done|]. split; [done|].
  by rewrite (H1 (e_preds d)), (H2 (e_preds d)).
Qed.

(** The statement above at the two iteration orders [iter_up] and
    [iter_down] and the input [works_founded]. *)
Lemma deterministic_up_to_preds_order_example :
  set_order iter_up ∧ set_order iter_down ∧
  nodes (build_graph_from_triplets iter_up works_founded)
    = nodes (build_graph_from_triplets iter_down works_founded) ∧
  ∀ e, match edges (build_graph_from_triplets iter_up works_founded) !! e,
             edges (build_graph_from_triplets iter_down works_founded) !! e with
       | Some d1, Some d2 =>
           e_label d1 = e_label d2 ∧ e_weight d1 = e_weight d2 ∧
           e_preds d1 ≡ₚ e_preds d2
       | None, None => True
       | _, _ => False
       end.
Proof.
  split; [apply iter_up_order|]. split; [apply iter_down_order|].
  apply (deterministic_up_to_preds_order iter_up iter_down works_founded
           iter_up_order iter_down_order).
Defined.

Lemma aggregate_works_founded :
  aggregate works_founded =
    DiGraph {[ "A" := NodeAttrs "A" "entity"; "B" := NodeAttrs "B" "entity" ]}
            {[ ("A", "B") := EdgeAttrs "works_at" 3 {[ "works_at"; "founded" ]} ]}.
Proof. by vm_compute. Qed.

(** C3: the three triplets (A,works_at,B), (A,works_at,B), (A,founded,B)
    give exactly one edge, from A to B, with weight 3, label "works_at"
    (the predicate of the first occurrence) and a [preds] list that
    holds exactly the two predicates "works_at" and "founded". *)
Theorem works_founded_edge it :
  set_order it →
  ∃ ps, edges (build_graph_from_triplets it works_founded)
          = {[ ("A", "B") := EdgeAttrs "works_at" 3 ps ]} ∧
        ps ≡ₚ ["works_at"; "founded"].
Proof.
  intros Hit. unfold build_graph_from_triplets.
  rewrite aggregate_works_founded. cbn.
  exists (it {[ "works_at"; "founded" ]}). split.
  - by rewrite map_fmap_singleton.
  - rewrite (Hit _). by vm_compute.
Qed.

(** The statement above at the iteration order [iter_up]. *)
Lemma works_founded_edge_example :
  set_order iter_up ∧
  ∃ ps, edges (build_graph_from_triplets iter_up works_founded)
          = {[ ("A", "B") := EdgeAttrs "works_at" 3 ps ]} ∧
        ps ≡ₚ ["works_at"; "founded"].
Proof. split; [apply iter_up_order | apply (works_founded_edge iter_up iter_up_order)]. Defined.

(** C4: in the returned graph the weight of every edge is the number of
    non-skipped input triplets whose (subject, object) is the ordered
    pair of the edge, and no predicate occurs twice in its [preds]. *)
Theorem weight_counts_and_preds_nodup it ts e d :
  set_order it →
  edges (build_graph_from_triplets it ts) !! e = Some d →
  e_weight d = occurrences e ts ∧ NoDup (e_preds d).
Proof.
  intros Hit. unfold build_graph_from_triplets.
  rewrite edges_expose, edges_aggregate.
  destruct (preds_on e ts) as [|p0 ps]; cbn; [done|].
  intros [= <-]. cbn. split; [done|].
  rewrite (Hit _). apply NoDup_elements.
Qed.

(** The statement above at [iter_up], [works_founded] and the edge from A
    to B. *)
Lemma weight_counts_and_preds_nodup_example :
  set_order iter_up ∧
  edges (build_graph_from_triplets iter_up works_founded) !! ("A", "B")
    = Some (EdgeAttrs "works_at" 3 ["works_at"; "founded"]) ∧
  (e_weight (EdgeAttrs "works_at" 3 ["works_at"; "founded"])
     = occurrences ("A", "B") works_founded ∧
   NoDup (e_preds (EdgeAttrs "works_at" 3 ["works_at"; "founded"]))).
Proof.
  split; [apply iter_up_order|].
  assert (Hl : edges (build_graph_from_triplets iter_up works_founded) !! ("A", "B")
               = Some (EdgeAttrs "works_at" 3 ["works_at"; "founded"])) by (by vm_compute).
  split; [exact Hl|].
  exact (weight_counts_and_preds_nodup iter_up works_founded ("A", "B") _ iter_up_order Hl).
Defined.

End Aggregation.

(** ** The deduplicator: the greedy pass *)

Section GreedyFacts.
Variable n : nat.
Variable similar : nat → nat → bool.

Lemma filter_ext_in {A} (P1 P2 : A → Prop)
    `{!∀ x, Decision (P1 x), !∀ x, Decision (P2 x)} (l : list A) :
  (∀ x, x ∈ l → P1 x ↔ P2 x) → filter P1 l = filter P2 l.
Proof.
  induction l as [|a l IH]; intros HP; [done|].
  rewrite !filter_cons.
  rewrite IH by (intros x Hx; apply HP; by right).
  apply decide_ext, HP. by left.
Qed.

Lemma filter_unvisited_empty (l : list nat) (V : gset nat) :
  V = ∅ → filter (fun j => j ∉ V) l = l.
Proof.
  intros ->. induction l as [|j l IH]; [done|].
  rewrite filter_cons_True by apply not_elem_of_empty. by rewrite IH.
Qed.

(** The inner loop in closed form. *)
Lemma scan_fold i l : ∀ c0 V0,
  NoDup l →
  foldl (scan similar i) (c0, V0) l =
    (c0 ++ filter (fun j => (j ∉ V0) ∧ similar i j = true) l,
     V0 ∪ list_to_set (filter (fun j => (j ∉ V0) ∧ similar i j = true) l)).
Proof.
  induction l as [|j l IH]; intros c0 V0 Hnd.
  - cbn. by rewrite app_nil_r, (right_id_L ∅ (∪)).
  - apply NoDup_cons in Hnd as [Hj Hnd].
    cbn [foldl]. unfold scan at 2. cbn [fst snd].
    case_bool_decide as HjV.
    + rewrite IH by done. rewrite filter_cons_False; [done|].
      intros [? _]. done.
    + destruct (similar i j) eqn:Hs.
      * rewrite IH by done. rewrite filter_cons_True by done.
        assert (Hext : filter (fun x => (x ∉ V0 ∪ {[j]}) ∧ similar i x = true) l
                       = filter (fun x => (x ∉ V0) ∧ similar i x = true) l).
        { apply filter_ext_in. intros x Hx.
          rewrite not_elem_of_union, not_elem_of_singleton.
          split; [intros [[? _] ?]; done|].
          intros [? ?]. repeat split; try done. intros ->. done. }
        rewrite Hext, <- (assoc_L (++)). cbn.
        by rewrite (assoc_L (∪)).
      * rewrite IH by done.
        rewrite filter_cons_False; [done|]. intros [_ ?]. congruence.
Qed.

(** The outer loop adds to [clusters] what [greedy_from] lists. *)
Lemma visit_fold m : ∀ k st,
  k + m = n →
  (foldl (visit n similar) st (seq k m)).2 = st.2 ++ greedy_from similar st.1 (seq k m).
Proof.
  induction m as [|m IH]; intros k [V cs] Hk.
  - cbn. by rewrite app_nil_r.
  - cbn [seq foldl greedy_from fst snd]. unfold visit at 2. cbn [fst snd].
    case_bool_decide as HkV.
    + rewrite IH by lia. done.
    + replace (n - S k) with m by lia.
      rewrite scan_fold by apply NoDup_seq. cbn [fst snd].
      rewrite IH by lia. cbn [fst snd].
      by rewrite <- (assoc_L (++)).
Qed.

Lemma greedy_clusters_from :
  greedy_clusters n similar = greedy_from similar ∅ (seq 0 n).
Proof. unfold greedy_clusters. by rewrite visit_fold. Qed.

Lemma StronglySorted_lt_seq k m : StronglySorted lt (seq k m).
Proof.
  revert k. induction m as [|m IH]; intros k; cbn; constructor; [apply IH|].
  apply Forall_forall. intros j Hj%elem_of_seq. lia.
Qed.

Lemma StronglySorted_filter {A} (R : relation A) (P : A → Prop)
    `{!∀ x, Decision (P x)} (l : list A) :
  StronglySorted R l → StronglySorted R (filter P l).
Proof.
  induction 1 as [|x l Hl IH Hx]; [constructor|].
  rewrite filter_cons. case_decide; [|done].
  constructor; [done|].
  apply Forall_forall. intros y [_ Hy]%list_elem_of_filter.
  by eapply Forall_forall in Hx.
Qed.

Lemma cluster_in_weaken V V' l l' c :
  V ⊆ V' → l' ⊆ l → cluster_in similar V' l' c → cluster_in similar V l c.
Proof.
  intros HV Hl (i & rest & -> & Hi & HiV & Hs & Hrest).
  exists i, rest. repeat split; [by apply Hl| by intros ?%HV | done |].
  eapply Forall_impl; [exact Hrest|]. intros j (? & ? & ?).
  repeat split; [by apply Hl | by intros ?%HV | done].
Qed.

Lemma greedy_from_shape l : ∀ V,
  StronglySorted lt l → Forall (cluster_in similar V l) (greedy_from similar V l).
Proof.
  induction l as [|i rest IH]; intros V Hs; [constructor|].
  apply StronglySorted_cons in Hs as [Hlt Hs].
  assert (Hsub : rest ⊆ i :: rest) by (intros x ?; by right).
  cbn [greedy_from]. case_bool_decide as HiV.
  - eapply Forall_impl; [apply (IH V Hs)|]. intros c.
    by apply cluster_in_weaken.
  - constructor.
    + exists i, (filter (fun j => (j ∉ V ∪ {[i]}) ∧ similar i j = true) rest).
      repeat split; [by left | done | | ].
      * constructor; [by apply StronglySorted_filter|].
        apply Forall_forall. intros j [_ Hj]%list_elem_of_filter.
        by eapply Forall_forall in Hlt.
      * apply Forall_forall. intros j [[HjV Hsim] Hj]%list_elem_of_filter.
        repeat split; [by right | | done].
        intros HjV'. apply HjV. by apply elem_of_union_l.
    + eapply Forall_impl; [apply (IH _ Hs)|]. intros c.
      apply cluster_in_weaken; [|done].
      intros x Hx. by do 2 apply elem_of_union_l.
Qed.

Lemma greedy_from_precedes l : ∀ V,
  StronglySorted lt l → StronglySorted (precedes similar) (greedy_from similar V l).
Proof.
  induction l as [|i rest IH]; intros V Hs; [constructor|].
  pose proof Hs as [Hlt Hs']%StronglySorted_cons.
  cbn [greedy_from]. case_bool_decide as HiV; [by apply IH|].
  constructor; [by apply IH|].
  eapply Forall_impl; [apply (greedy_from_shape rest _ Hs')|].
  intros c (i2 & r2 & -> & Hi2 & Hi2V & Hsc & Hr2).
  exists i, i2. repeat split.
  - by eapply Forall_forall in Hlt.
  - assert (Hout : ∀ j, j ∈ rest →
              j ∉ V ∪ {[i]} ∪ list_to_set
                    (filter (fun j => (j ∉ V ∪ {[i]}) ∧ similar i j = true) rest) →
              similar i j = false).
    { intros j Hj HjV. destruct (similar i j) eqn:Hsim; [|done].
      exfalso. apply HjV. apply elem_of_union_r, elem_of_list_to_set.
      apply list_elem_of_filter. repeat split; [|done|done].
      intros ?. apply HjV. by apply elem_of_union_l. }
    constructor; [by apply Hout|].
    eapply Forall_impl; [exact Hr2|]. intros j (? & ? & _). by apply Hout.
Qed.

Lemma greedy_from_partition l : ∀ V,
  NoDup l → concat (greedy_from similar V l) ≡ₚ filter (fun j => j ∉ V) l.
Proof.
  induction l as [|i rest IH]; intros V Hnd; [done|].
  apply NoDup_cons in Hnd as [Hi Hnd].
  cbn [greedy_from]. case_bool_decide as HiV.
  - rewrite filter_cons_False by (intros ?; done). by apply IH.
  - rewrite filter_cons_True by done. cbn [concat].
    rewrite <- app_comm_cons. constructor.
    rewrite (IH _ Hnd).
    rewrite <- (filter_app_complement (fun j => similar i j = true)
                  (filter (fun j => j ∉ V) rest)).
    rewrite !list_filter_filter.
    apply Permutation_app;
      (match goal with |- ?x ≡ₚ ?y => cut (x = y); [by intros ->|] end);
      apply filter_ext_in; intros j Hj.
    + rewrite not_elem_of_union, not_elem_of_singleton.
      split; [intros [[? _] ?]; done|].
      intros [? ?]. repeat split; try done. intros ->. done.
    + rewrite !not_elem_of_union, not_elem_of_singleton,
        not_elem_of_list_to_set, list_elem_of_filter.
      rewrite not_elem_of_union, not_elem_of_singleton.
      split.
      * intros ((HjV & Hji) & Hnc). split; [|done].
        intros Hsim. apply Hnc. done.
      * intros (Hns & HjV).
        assert (j ≠ i) by (intros ->; done).
        repeat split; try done. intros ((_ & Hsim) & _). done.
Qed.

(** The three facts about the clusters the loops build. *)
Lemma greedy_clusters_seeded : Forall (seeded n similar) (greedy_clusters n similar).
Proof.
  rewrite greedy_clusters_from.
  eapply Forall_impl; [apply greedy_from_shape, StronglySorted_lt_seq|].
  intros c (i & rest & -> & Hi%elem_of_seq & _ & Hs & Hrest).
  exists i, rest. repeat split; [lia | done |].
  eapply Forall_impl; [exact Hrest|]. intros j (Hj%elem_of_seq & _ & ?).
  split; [lia | done].
Qed.

Lemma greedy_clusters_precedes :
  StronglySorted (precedes similar) (greedy_clusters n similar).
Proof. rewrite greedy_clusters_from. apply greedy_from_precedes, StronglySorted_lt_seq. Qed.

Lemma greedy_clusters_partition : concat (greedy_clusters n similar) ≡ₚ seq 0 n.
Proof.
  rewrite greedy_clusters_from, greedy_from_partition by apply NoDup_seq.
  by rewrite (filter_unvisited_empty _ ∅).
Qed.

End GreedyFacts.

(** ** The deduplicator: normalisation of the embeddings *)

Section Normalisation.
Local Open Scope R_scope.

Lemma epsilon_pos : 0 < epsilon.
Proof. unfold epsilon. apply Rinv_0_lt_compat, pow_lt. lra. Qed.

Lemma clamp_nonzero x : clamp x ≠ 0.
Proof.
  unfold clamp. destruct (Req_dec_T x 0); [|done].
  pose proof epsilon_pos. lra.
Qed.

Lemma clamp_zero : clamp 0 = epsilon.
Proof. unfold clamp. by destruct (Req_dec_T 0 0). Qed.

Lemma clamp_id x : x ≠ 0 → clamp x = x.
Proof. intros Hx. unfold clamp. by destruct (Req_dec_T x 0). Qed.

Lemma dot_self_nonneg u : 0 <= dot u u.
Proof.
  unfold dot. induction u as [|x u IH]; cbn; [lra|].
  pose proof (Rle_0_sqr x) as Hx. unfold Rsqr in Hx. lra.
Qed.

Lemma dot_zeros u : Forall (fun x => x = 0) u → dot u u = 0.
Proof.
  unfold dot. induction 1 as [|x u -> _ IH]; cbn; [done|]. rewrite IH. lra.
Qed.

Lemma dot_scaled d u v :
  d ≠ 0 →
  dot (map (fun x => x / d) u) (map (fun x => x / d) v) = dot u v / (d * d).
Proof.
  intros Hd. unfold dot. revert v.
  induction u as [|x u IH]; intros [|y v]; cbn; try (field; done).
  rewrite IH. field. done.
Qed.

Lemma l2norm_zeros u : Forall (fun x => x = 0) u → l2norm u = 0.
Proof. intros Hu. unfold l2norm. rewrite dot_zeros by done. apply sqrt_0. Qed.

(** A row of non-zero norm has norm one after the division. *)
Lemma l2norm_normalized u :
  l2norm u ≠ 0 → l2norm (map (fun x => x / clamp (l2norm u)) u) = 1.
Proof.
  intros Hn. rewrite clamp_id by done.
  unfold l2norm at 1. rewrite dot_scaled by done.
  unfold l2norm in *. rewrite sqrt_sqrt by apply dot_self_nonneg.
  assert (dot u u ≠ 0) by (intros Hz; apply Hn; rewrite Hz; apply sqrt_0).
  replace (dot u u / dot u u) with 1 by (field; done).
  apply sqrt_1.
Qed.

(** A row that has norm one already is left as it is. *)
Lemma normalized_unit u :
  dot u u = 1 → map (fun x => x / clamp (l2norm u)) u = u.
Proof.
  intros Hu. unfold l2norm. rewrite Hu, sqrt_1, clamp_id by lra.
  induction u as [|x u IH] in |- *; [done|]. cbn. f_equal; [field|].
  clear. induction u as [|y u IH]; [done|]. cbn. f_equal; [field | done].
Qed.

Lemma normalize_rows_map embs :
  normalize_rows embs = map (fun row => map (fun x => x / clamp (l2norm row)) row) embs.
Proof.
  unfold normalize_rows, divide_rows, clamp_norms, row_norms.
  induction embs as [|row embs IH]; [done|]. cbn. by rewrite IH.
Qed.

Lemma normalize_rows_units embs :
  Forall (fun u => dot u u = 1) embs → normalize_rows embs = embs.
Proof.
  rewrite normalize_rows_map.
  induction 1 as [|u embs Hu _ IH]; [done|].
  rewrite map_cons, IH. f_equal. by apply normalized_unit.
Qed.

Lemma length_normalize_rows embs : length (normalize_rows embs) = length embs.
Proof. by rewrite normalize_rows_map, length_map. Qed.

End Normalisation.

(** ** The deduplicator on the numbers of numpy: normalisation *)

Section FloatNormalisation.
Local Open Scope nat_scope.
Context {F P : Type}.
Context (norm : list F → F) (eq_zero : F → bool) (tiny : F) (div : F → F → F).
Context (dot : list F → list F → P) (ge : P → P → bool).
Context (encode : list string → list (list F)).

Lemma float_normalize_rows_map embs :
  FloatEmbeddings.normalize_rows norm eq_zero tiny div embs
    = map (fun row => map (fun x => div x (FloatEmbeddings.clamp eq_zero tiny (norm row))) row)
          embs.
Proof.
  unfold FloatEmbeddings.normalize_rows, FloatEmbeddings.divide_rows,
    FloatEmbeddings.clamp_norms, FloatEmbeddings.row_norms.
  induction embs as [|row embs IH]; [done|]. cbn. by rewrite IH.
Qed.

Lemma float_length_normalize_rows embs :
  length (FloatEmbeddings.normalize_rows norm eq_zero tiny div embs) = length embs.
Proof. by rewrite float_normalize_rows_map, length_map. Qed.


End FloatNormalisation.

Section FloatInstances.

(** The model over the real numbers is the float model at the arithmetic
    without rounding. *)
Lemma exact_normalize_rows embs :
  normalize_rows embs
    = FloatEmbeddings.normalize_rows l2norm Exact.eq_zero epsilon Rdiv embs.
Proof.
  rewrite normalize_rows_map, float_normalize_rows_map.
  apply map_ext. intros row. apply map_ext. intros x. f_equal.
  unfold clamp, FloatEmbeddings.clamp, Exact.eq_zero.
  by destruct (Req_dec_T (l2norm row) 0).
Qed.

Lemma exact_deduplicate_entities encode texts threshold :
  deduplicate_entities encode texts threshold
    = FloatEmbeddings.deduplicate_entities l2norm Exact.eq_zero epsilon Rdiv
        dot Exact.ge encode texts threshold.
Proof.
  unfold deduplicate_entities, FloatEmbeddings.deduplicate_entities.
  destruct texts as [|s texts]; [done|]. do 2 f_equal.
  unfold clusters_of, FloatEmbeddings.clusters_of, embs_norm,
    FloatEmbeddings.embs_norm, embed_texts.
  by rewrite exact_normalize_rows.
Qed.

(** In binary64: a row of norm 5 becomes a row of norm 1; a row of zeros
    has norm zero and is divided by 1e-9; so is a row whose squares are
    rounded to zero, which is not zero and does not get norm 1. *)
Example binary64_rows :
  FloatEmbeddings.embs_norm Binary64.norm Binary64.eq_zero Binary64.tiny PrimFloat.div
    Binary64.rows ["bb"; "zero"; "small"]
  = [[4 / 5; 3 / 5]; [0 / Binary64.tiny; 0 / Binary64.tiny];
     [0x1p-600 / Binary64.tiny; 0 / Binary64.tiny]]%float ∧
  Binary64.norm [0x1p-600; 0]%float = 0%float.
Proof. split; vm_compute; reflexivity. Qed.

End FloatInstances.

(** ** The deduplicator: representatives *)

Section Representatives.
Local Open Scope nat_scope.

(** [max(xs, key=len)] returns the first of the longest elements. *)
Lemma foldl_longer_first rest : ∀ x,
  ∃ k, (x :: rest) !! k = Some (foldl longer x rest) ∧
       ∀ j s, (x :: rest) !! j = Some s →
              String.length s ≤ String.length (foldl longer x rest) ∧
              (String.length s = String.length (foldl longer x rest) → k ≤ j).
Proof.
  induction rest as [|y rest IH] using rev_ind; intros x.
  - exists 0. split; [done|]. intros [|j] s; [|done]. intros [= ->]. cbn. lia.
  - destruct (IH x) as (k & Hk & Hmax). rewrite foldl_app. cbn [foldl].
    set (m := foldl longer x rest) in *.
    pose proof (lookup_lt_Some _ _ _ Hk) as Hklt.
    assert (Hlast : (x :: rest ++ [y]) !! length (x :: rest) = Some y).
    { rewrite app_comm_cons. rewrite lookup_app_r by done.
      by rewrite Nat.sub_diag. }
    assert (Hsplit : ∀ j s, (x :: rest ++ [y]) !! j = Some s →
              (j < length (x :: rest) ∧ (x :: rest) !! j = Some s) ∨
              (j = length (x :: rest) ∧ s = y)).
    { intros j s. rewrite app_comm_cons.
      destruct (decide (j < length (x :: rest))) as [Hj|Hj].
      - rewrite lookup_app_l by done. by left.
      - rewrite lookup_app_r by lia.
        destruct (j - length (x :: rest)) as [|d] eqn:Hd; [|done].
        intros [= ->]. right. split; [lia|done]. }
    unfold longer. destruct (String.length m <? String.length y) eqn:Hlt.
    + apply Nat.ltb_lt in Hlt. exists (length (x :: rest)). split; [done|].
      intros j s [[Hj Hs]|[-> ->]]%Hsplit; [|lia].
      destruct (Hmax j s Hs) as [Hle _]. lia.
    + apply Nat.ltb_ge in Hlt. exists k. split.
      * rewrite app_comm_cons. by rewrite lookup_app_l.
      * intros j s [[Hj Hs]|[-> ->]]%Hsplit; [by apply Hmax|]. lia.
Qed.

Lemma StronglySorted_lt_lookup (c : list nat) p q i j :
  StronglySorted lt c → c !! p = Some i → c !! q = Some j → p ≤ q → i ≤ j.
Proof.
  intros Hs. revert p q. induction Hs as [|x c Hs IH Hx]; intros p q; [done|].
  destruct p as [|p], q as [|q]; cbn; intros Hp Hq Hle.
  - assert (i = j) by congruence. lia.
  - injection Hp as ->. apply list_elem_of_lookup_2 in Hq.
    eapply Forall_forall in Hx; [|done]. lia.
  - lia.
  - apply (IH p q); [done|done|lia].
Qed.

Lemma representative_first_longest texts c r :
  StronglySorted lt c → representative texts c = Some r → first_longest texts c r.
Proof.
  intros Hs. unfold representative.
  destruct (mapM (fun i => texts !! i) c) as [l|] eqn:Hl; [|done]. cbn.
  apply mapM_Some_1 in Hl.
  destruct l as [|x rest]; [done|]. intros [= <-].
  destruct (foldl_longer_first rest x) as (p & Hp & Hmax).
  destruct (Forall2_lookup_r _ _ _ _ _ Hl Hp) as (k & Hk & Hkr).
  exists k. split; [by eapply list_elem_of_lookup_2|]. split; [done|].
  intros j s [q Hq]%list_elem_of_lookup_1 Hjs.
  destruct (Forall2_lookup_l _ _ _ _ _ Hl Hq) as (s' & Hs' & Hjs').
  assert (s' = s) as -> by congruence.
  destruct (Hmax q s Hs') as [Hle Hfirst]. split; [done|].
  intros Heq. eapply StronglySorted_lt_lookup; eauto.
Qed.

Lemma representative_is_Some texts sim c :
  seeded (length texts) sim c → is_Some (representative texts c).
Proof.
  intros (i & rest & -> & Hi & _ & Hrest). unfold representative.
  assert (Hm : is_Some (mapM (fun i => texts !! i) (i :: rest))).
  { apply mapM_is_Some_2. constructor; [by apply lookup_lt_is_Some_2|].
    eapply Forall_impl; [exact Hrest|]. intros j [Hj _].
    by apply lookup_lt_is_Some_2. }
  destruct Hm as [l Hl]. rewrite Hl. cbn.
  apply length_mapM in Hl. destruct l; [done|]. by eexists.
Qed.

Lemma representative_elem_of texts c r :
  representative texts c = Some r → r ∈ texts.
Proof.
  unfold representative.
  destruct (mapM (fun i => texts !! i) c) as [l|] eqn:Hl; [|done]. cbn.
  apply mapM_Some_1 in Hl.
  destruct l as [|x rest]; [done|]. intros [= <-].
  destruct (foldl_longer_first rest x) as (p & Hp & _).
  destruct (Forall2_lookup_r _ _ _ _ _ Hl Hp) as (k & _ & Hkr).
  by eapply list_elem_of_lookup_2.
Qed.

Lemma length_concat_nonempty {A} (cs : list (list A)) :
  Forall (fun c => c ≠ []) cs → length cs ≤ length (concat cs).
Proof.
  induction 1 as [|c cs Hc _ IH]; [done|]. cbn. rewrite length_app.
  destruct c; [done|]. cbn. lia.
Qed.

End Representatives.

(** ** The deduplicator: clusters of concrete inputs *)

Section GreedyExtensionality.

(** The pass only looks at the test on the indices it is run on. *)
Lemma greedy_from_ext (sim sim' : nat → nat → bool) l : ∀ V,
  (∀ i j, i ∈ l → j ∈ l → sim i j = sim' i j) →
  greedy_from sim V l = greedy_from sim' V l.
Proof.
  induction l as [|i rest IH]; intros V Hext; [done|].
  assert (Hrest : ∀ i j, i ∈ rest → j ∈ rest → sim i j = sim' i j).
  { intros ????. apply Hext; by right. }
  cbn [greedy_from]. case_bool_decide; [by apply IH|].
  assert (Hc : filter (fun j => (j ∉ V ∪ {[i]}) ∧ sim i j = true) rest
               = filter (fun j => (j ∉ V ∪ {[i]}) ∧ sim' i j = true) rest).
  { apply filter_ext_in. intros j Hj.
    rewrite (Hext i j); [done | by left | by right]. }
  rewrite Hc. f_equal. by apply IH.
Qed.

Lemma greedy_clusters_ext (sim sim' : nat → nat → bool) n :
  (∀ i j, i < n → j < n → sim i j = sim' i j) →
  greedy_clusters n sim = greedy_clusters n sim'.
Proof.
  intros Hext. rewrite !greedy_clusters_from. apply greedy_from_ext.
  intros i j Hi%elem_of_seq Hj%elem_of_seq. apply Hext; lia.
Qed.

(** When no later index passes the test against an earlier one, every
    index that is left is a cluster of its own. *)
Lemma greedy_from_dissimilar (sim : nat → nat → bool) l : ∀ V,
  StronglySorted lt l →
  (∀ i j, i ∈ l → j ∈ l → i < j → sim i j = false) →
  greedy_from sim V l = map (fun i => [i]) (filter (fun j => j ∉ V) l).
Proof.
  induction l as [|i rest IH]; intros V Hs Hd; [done|].
  pose proof Hs as [Hlt Hs']%StronglySorted_cons.
  assert (Hrest : ∀ i j, i ∈ rest → j ∈ rest → i < j → sim i j = false).
  { intros ?????. apply Hd; [by right | by right | done]. }
  cbn [greedy_from]. case_bool_decide as HiV.
  - rewrite filter_cons_False by (intros ?; done). by apply IH.
  - rewrite filter_cons_True by done.
    assert (Hc : filter (fun j => (j ∉ V ∪ {[i]}) ∧ sim i j = true) rest = []).
    { apply elem_of_nil_inv. intros j [[_ Hsim] Hj]%list_elem_of_filter.
      rewrite (Hd i j) in Hsim; [done | by left | by right |].
      eapply Forall_forall in Hlt; [|done]. lia. }
    rewrite Hc. cbn [map list_to_set]. f_equal.
    rewrite IH by done. f_equal.
    apply filter_ext_in. intros j Hj.
    rewrite !not_elem_of_union, not_elem_of_singleton.
    split; [by intros [[? _] _]|].
    intros ?. repeat split; [done| |apply not_elem_of_empty].
    intros ->. eapply Forall_forall in Hlt; [|done]. lia.
Qed.

End GreedyExtensionality.

Section PlaneExample.
Local Open Scope R_scope.

Lemma plane_rows_abc :
  embs_norm plane_encode ["a"; "bb"; "c"] = [[1; 0]; [4 / 5; 3 / 5]; [7 / 25; 24 / 25]].
Proof.
  unfold embs_norm, embed_texts, plane_encode, encode_each.
  change (map plane_embed ["a"; "bb"; "c"])
    with [[1; 0]; [4 / 5; 3 / 5]; [7 / 25; 24 / 25]].
  apply normalize_rows_units.
  repeat constructor; unfold dot; cbn; field.
Qed.

Lemma plane_rows_bc :
  embs_norm plane_encode ["bb"; "c"] = [[4 / 5; 3 / 5]; [7 / 25; 24 / 25]].
Proof.
  unfold embs_norm, embed_texts, plane_encode, encode_each.
  change (map plane_embed ["bb"; "c"]) with [[4 / 5; 3 / 5]; [7 / 25; 24 / 25]].
  apply normalize_rows_units.
  repeat constructor; unfold dot; cbn; field.
Qed.


Lemma cos_ge_true en t i j :
  dot (en !!! i) (en !!! j) >= t → cos_ge en t i j = true.
Proof. intros H. unfold cos_ge. by destruct (Rge_dec _ _). Qed.

Lemma cos_ge_false en t i j :
  dot (en !!! i) (en !!! j) < t → cos_ge en t i j = false.
Proof. intros H. unfold cos_ge. destruct (Rge_dec _ _); [lra|done]. Qed.

(** "a" and "bb" are close, "bb" and "c" are close, "a" and "c" are not. *)
Lemma plane_cos_abc i j :
  (i < 3)%nat → (j < 3)%nat →
  cos_ge (embs_norm plane_encode ["a"; "bb"; "c"]) (3 / 4) i j
    = bool_decide (i + j ≠ 2 ∨ i = j)%nat.
Proof.
  rewrite plane_rows_abc. intros Hi Hj.
  destruct i as [|[|[|i]]]; [| | |lia]; destruct j as [|[|[|j]]]; try lia;
    first [ rewrite cos_ge_true; [done | unfold dot; cbn; lra]
          | rewrite cos_ge_false; [done | unfold dot; cbn; lra] ].
Qed.

Lemma plane_cos_bc i j :
  (i < 2)%nat → (j < 2)%nat →
  cos_ge (embs_norm plane_encode ["bb"; "c"]) (3 / 4) i j = true.
Proof.
  rewrite plane_rows_bc. intros Hi Hj.
  destruct i as [|[|i]]; [| |lia]; destruct j as [|[|j]]; try lia;
    apply cos_ge_true; unfold dot; cbn; lra.
Qed.

Lemma plane_clusters_abc :
  clusters_of plane_encode ["a"; "bb"; "c"] (3 / 4) = [[0; 1]; [2]]%nat.
Proof.
  unfold clusters_of. rewrite plane_rows_abc at 1. cbn [length].
  rewrite (greedy_clusters_ext _ (fun i j => bool_decide (i + j ≠ 2 ∨ i = j)%nat))
    by apply plane_cos_abc.
  by vm_compute.
Qed.

Lemma plane_clusters_bc :
  clusters_of plane_encode ["bb"; "c"] (3 / 4) = [[0; 1]]%nat.
Proof.
  unfold clusters_of. rewrite plane_rows_bc at 1. cbn [length].
  rewrite (greedy_clusters_ext _ (fun _ _ => true)) by apply plane_cos_bc.
  by vm_compute.
Qed.

Lemma plane_first_pass :
  deduplicate_entities plane_encode ["a"; "bb"; "c"] (3 / 4)
    = Outcome [["a"; "bb"; "c"]] (Some ["bb"; "c"]).
Proof.
  unfold deduplicate_entities. rewrite plane_clusters_abc. f_equal.
Qed.

Lemma plane_second_pass :
  deduplicate_entities plane_encode ["bb"; "c"] (3 / 4)
    = Outcome [["bb"; "c"]] (Some ["bb"]).
Proof.
  unfold deduplicate_entities. rewrite plane_clusters_bc. f_equal.
Qed.

Lemma plane_encode_length l : length (plane_encode l) = length l.
Proof. apply length_map. Qed.

End PlaneExample.

(** ** The deduplicator: the returned representatives *)

Section DedupFacts.
Local Open Scope nat_scope.

Variable encode : list string → list (list R).
Hypothesis encode_length : ∀ texts, length (encode texts) = length texts.

Lemma length_embs_norm texts : length (embs_norm encode texts) = length texts.
Proof. unfold embs_norm, embed_texts. by rewrite length_normalize_rows. Qed.

Lemma clusters_seeded texts t :
  Forall (seeded (length texts) (cos_ge (embs_norm encode texts) t))
         (clusters_of encode texts t).
Proof.
  unfold clusters_of. rewrite <- (length_embs_norm texts) at 1.
  apply greedy_clusters_seeded.
Qed.

Lemma clusters_partition texts t :
  concat (clusters_of encode texts t) ≡ₚ seq 0 (length texts).
Proof.
  unfold clusters_of. rewrite <- (length_embs_norm texts).
  apply greedy_clusters_partition.
Qed.

Lemma returned_clusters texts t :
  returned (deduplicate_entities encode texts t)
    = mapM (representative texts) (clusters_of encode texts t).
Proof.
  destruct texts as [|s texts]; [|done].
  unfold clusters_of. rewrite length_embs_norm. done.
Qed.

Lemma Forall2_Forall_l {A B} (P : A → Prop) (Q : A → B → Prop) l k :
  Forall P l → Forall2 Q l k → Forall2 (fun x y => P x ∧ Q x y) l k.
Proof.
  intros HP HQ. induction HQ as [|x y l k Hxy HQ IH]; [constructor|].
  apply Forall_cons in HP as [Hx HP]. constructor; [done | by apply IH].
Qed.

(** The call returns, with one representative per cluster, in the order
    of the clusters. *)
Lemma dedup_returns texts t :
  ∃ reps, returned (deduplicate_entities encode texts t) = Some reps ∧
          Forall2 (fun c r => representative texts c = Some r)
                  (clusters_of encode texts t) reps.
Proof.
  rewrite returned_clusters.
  destruct (mapM_is_Some_2 (representative texts) (clusters_of encode texts t))
    as [reps Hreps].
  { eapply Forall_impl; [apply clusters_seeded|]. intros c.
    apply representative_is_Some. }
  exists reps. split; [done|]. by apply mapM_Some_1.
Qed.

(** C5: the representative emitted for a cluster is the text of a member
    of the cluster, no member has a longer text, and among the members of
    that greatest length it is the one that comes first in the input. *)
Theorem representative_longest_first texts t :
  ∃ reps, returned (deduplicate_entities encode texts t) = Some reps ∧
          Forall2 (first_longest texts) (clusters_of encode texts t) reps.
Proof.
  destruct (dedup_returns texts t) as (reps & Hret & Hreps).
  exists reps. split; [done|].
  eapply Forall2_impl.
  - apply (Forall2_Forall_l _ _ _ _ (clusters_seeded texts t) Hreps).
  - intros c r [(i & rest & -> & _ & Hs & _) Hr]. cbn in Hr.
    by apply representative_first_longest.
Qed.

(** C10: for a non-empty input one batch goes to the embedding provider,
    the clusters partition the indices [0 .. n-1], every returned
    representative is one of the input strings, and the returned list is
    non-empty and no longer than the input; for the empty input the
    empty list is returned and the provider is not called. *)
Theorem clusters_partition_input texts t :
  deduplicate_entities encode [] t = Outcome [] (Some []) ∧
  (texts ≠ [] →
   embed_calls (deduplicate_entities encode texts t) = [texts] ∧
   concat (clusters_of encode texts t) ≡ₚ seq 0 (length texts) ∧
   ∃ reps, returned (deduplicate_entities encode texts t) = Some reps ∧
           Forall (fun r => r ∈ texts) reps ∧
           1 ≤ length reps ≤ length texts).
Proof.
  split; [done|]. intros Hne.
  split; [by destruct texts|]. split; [apply clusters_partition|].
  destruct (dedup_returns texts t) as (reps & Hret & Hreps).
  exists reps. split; [done|]. split.
  - apply Forall_forall. intros r [k Hk]%list_elem_of_lookup_1.
    destruct (Forall2_lookup_r _ _ _ _ _ Hreps Hk) as (c & _ & Hc).
    by eapply representative_elem_of.
  - rewrite <- (Forall2_length _ _ _ Hreps).
    pose proof (clusters_partition texts t) as Hperm.
    pose proof (Permutation_length Hperm) as Hlen. rewrite length_seq in Hlen.
    split.
    + destruct (clusters_of encode texts t) as [|c cs]; [|cbn; lia].
      cbn in Hlen. destruct texts; [done|]. cbn in Hlen. lia.
    + rewrite <- Hlen. apply length_concat_nonempty.
      eapply Forall_impl; [apply clusters_seeded|].
      by intros c (i & rest & -> & _).
Qed.

(** C7 (amended): a second pass over the representatives of a first pass
    returns, and what it returns is a subset of those representatives;
    it is the very same list when no later representative passes the
    test against an earlier one. *)
Theorem second_pass_subset texts t r1 :
  returned (deduplicate_entities encode texts t) = Some r1 →
  ∃ r2, returned (deduplicate_entities encode r1 t) = Some r2 ∧
        Forall (fun s => s ∈ r1) r2 ∧
        ((∀ i j, i < j < length r1 →
                 cos_ge (embs_norm encode r1) t i j = false) →
         r2 = r1).
Proof.
  intros _.
  destruct (dedup_returns r1 t) as (r2 & Hret & Hreps).
  exists r2. split; [done|]. split.
  - apply Forall_forall. intros r [k Hk]%list_elem_of_lookup_1.
    destruct (Forall2_lookup_r _ _ _ _ _ Hreps Hk) as (c & _ & Hc).
    by eapply representative_elem_of.
  - intros Hd. rewrite returned_clusters in Hret.
    assert (Hcs : clusters_of encode r1 t = map (fun i => [i]) (seq 0 (length r1))).
    { unfold clusters_of. rewrite length_embs_norm, greedy_clusters_from.
      rewrite greedy_from_dissimilar.
      - by rewrite (filter_unvisited_empty _ ∅).
      - apply StronglySorted_lt_seq.
      - intros i j _ Hj%elem_of_seq Hij. apply Hd. lia. }
    rewrite Hcs in Hret.
    assert (Hall : mapM (representative r1) (map (fun i => [i]) (seq 0 (length r1)))
                   = Some r1).
    { apply mapM_Some_2, Forall2_fmap_l, Forall2_same_length_lookup_2.
      - by rewrite length_seq.
      - intros i x y [-> _]%lookup_seq Hy. cbn.
        unfold representative. cbn. rewrite Hy. done. }
    congruence.
Qed.

End DedupFacts.

Section DedupExamples.
Local Open Scope nat_scope.

(** The statements of this part at the provider [plane_encode], the
    mentions "a", "bb", "c" and the threshold 3/4, the default threshold
    of [deduplicate_entities]. *)
Lemma representative_longest_first_example :
  (∀ texts, length (plane_encode texts) = length texts) ∧
  ∃ reps, returned (deduplicate_entities plane_encode ["a"; "bb"; "c"] (3 / 4)) = Some reps ∧
          Forall2 (first_longest ["a"; "bb"; "c"])
                  (clusters_of plane_encode ["a"; "bb"; "c"] (3 / 4)) reps.
Proof.
  split; [exact plane_encode_length|].
  exact (representative_longest_first plane_encode plane_encode_length
           ["a"; "bb"; "c"] (3 / 4)%R).
Defined.

Lemma clusters_partition_input_example :
  (∀ texts, length (plane_encode texts) = length texts) ∧
  ["a"; "bb"; "c"] ≠ [] ∧
  embed_calls (deduplicate_entities plane_encode ["a"; "bb"; "c"] (3 / 4))
    = [["a"; "bb"; "c"]] ∧
  concat (clusters_of plane_encode ["a"; "bb"; "c"] (3 / 4)) ≡ₚ seq 0 3 ∧
  ∃ reps, returned (deduplicate_entities plane_encode ["a"; "bb"; "c"] (3 / 4)) = Some reps ∧
          Forall (fun r => r ∈ ["a"; "bb"; "c"]) reps ∧
          1 ≤ length reps ≤ 3.
Proof.
  split; [exact plane_encode_length|].
  assert (Hne : ["a"; "bb"; "c"] ≠ []) by discriminate.
  split; [exact Hne|].
  exact (proj2 (clusters_partition_input plane_encode plane_encode_length
                  ["a"; "bb"; "c"] (3 / 4)%R) Hne).
Defined.

Lemma second_pass_subset_example :
  (∀ texts, length (plane_encode texts) = length texts) ∧
  returned (deduplicate_entities plane_encode ["a"; "bb"; "c"] (3 / 4)) = Some ["bb"; "c"] ∧
  ∃ r2, returned (deduplicate_entities plane_encode ["bb"; "c"] (3 / 4)) = Some r2 ∧
        Forall (fun s => s ∈ ["bb"; "c"]) r2 ∧
        ((∀ i j, i < j < 2 →
                 cos_ge (embs_norm plane_encode ["bb"; "c"]) (3 / 4) i j = false) →
         r2 = ["bb"; "c"]).
Proof.
  split; [exact plane_encode_length|].
  assert (H1 : returned (deduplicate_entities plane_encode ["a"; "bb"; "c"] (3 / 4))
               = Some ["bb"; "c"]) by (by rewrite plane_first_pass).
  split; [exact H1|].
  exact (second_pass_subset plane_encode plane_encode_length
           ["a"; "bb"; "c"] (3 / 4)%R ["bb"; "c"] H1).
Defined.

(** C7, as stated, fails.  With the three unit vectors of [plane_embed]
    and the threshold 3/4, the first pass over "a", "bb", "c" puts "bb"
    with the seed "a" and leaves "c" alone, and returns "bb" and "c"; in
    the second pass "bb" is the seed and "c" is close to it, so only "bb"
    is returned: "c" is lost. *)
Lemma second_pass_drops_a_representative :
  returned (deduplicate_entities plane_encode ["a"; "bb"; "c"] (3 / 4)) = Some ["bb"; "c"] ∧
  returned (deduplicate_entities plane_encode ["bb"; "c"] (3 / 4)) = Some ["bb"] ∧
  "c" ∈ ["bb"; "c"] ∧ "c" ∉ ["bb"].
Proof.
  rewrite plane_first_pass, plane_second_pass.
  split; [done|]. split; [done|]. split.
  - by right; left.
  - intros [=]%list_elem_of_singleton.
Qed.


End DedupExamples.

(** ** The normalisation of triplets in app.py *)

Section Normalize.

Lemma prefix_app needle hay :
  String.prefix needle hay = true ↔ ∃ post, hay = String.app needle post.
Proof.
  revert hay. induction needle as [|c needle IH]; intros [|d hay]; cbn.
  - split; [by exists EmptyString | done].
  - split; [by exists (String d hay) | done].
  - split; [done | by intros [? ?]].
  - destruct (Ascii.ascii_dec c d) as [->|Hne].
    + rewrite IH. split; intros [post Hp]; exists post.
      * by rewrite Hp.
      * change (String d hay = String d (needle +:+ post)) in Hp. congruence.
    + split; [done|]. intros [post Hp].
      change (String d hay = String c (needle +:+ post)) in Hp. congruence.
Qed.

Lemma contains_substring needle hay :
  contains needle hay = true ↔ substring needle hay.
Proof.
  induction hay as [|d hay IH]; cbn [contains].
  - rewrite orb_false_r, prefix_app. split.
    + intros [post Hp]. by exists EmptyString, post.
    + intros ([|??] & post & Hp); [by exists post | done].
  - rewrite orb_true_iff, prefix_app, IH. split.
    + intros [[post Hp] | (pre & post & Hp)].
      * by exists EmptyString, post.
      * exists (String d pre), post. by rewrite Hp.
    + intros ([|c pre] & post & Hp).
      * left. by exists post.
      * right. exists pre, post.
        change (String d hay = String c (pre +:+ needle +:+ post)) in Hp.
        congruence.
Qed.

Lemma first_overlap_find e reps :
  first_overlap e reps = match List.find (overlaps e) reps with
                         | Some r => r
                         | None => e
                         end.
Proof.
  induction reps as [|r reps IH]; [done|]. cbn.
  by destruct (overlaps e r).
Qed.

End Normalize.

Section NormalizeClaim.
Local Open Scope nat_scope.

(** The empty mention is returned as it is (line 95), though the empty
    string is a substring of every representative. *)
Example empty_mention_unchanged :
  normalize ["X"] "" = "" ∧ normalize_policy ["X"] "" = "X".
Proof. by vm_compute. Qed.

(** [str.lower] on an accented capital: "ÉCOLE" becomes "école". *)
Example lower_accented :
  lower (String "201" "COLE") = String "233" "cole" ∧
  normalize [String "233" "cole"] (String "201" "COLE") = String "233" "cole".
Proof. by vm_compute. Qed.

Lemma lower_char_code c :
  nat_of_ascii (lower_char c)
    = (if (65 <=? nat_of_ascii c) && (nat_of_ascii c <=? 90)
          || (192 <=? nat_of_ascii c) && (nat_of_ascii c <=? 222)
             && negb (nat_of_ascii c =? 215)
       then nat_of_ascii c + 32 else nat_of_ascii c).
Proof.
  unfold lower_char.
  destruct ((65 <=? nat_of_ascii c) && (nat_of_ascii c <=? 90)
            || (192 <=? nat_of_ascii c) && (nat_of_ascii c <=? 222)
               && negb (nat_of_ascii c =? 215)) eqn:Hc; [|done].
  apply nat_ascii_embedding.
  apply orb_true_iff in Hc as [Hc|Hc].
  - apply andb_true_iff in Hc as [_ Hc%Nat.leb_le]. lia.
  - apply andb_true_iff in Hc as [Hc _].
    apply andb_true_iff in Hc as [_ Hc%Nat.leb_le]. lia.
Qed.

Lemma lower_get s : ∀ i c,
  String.get i s = Some c → String.get i (lower s) = Some (lower_char c).
Proof.
  induction s as [|d s IH]; intros i c; [done|].
  destruct i as [|i]; cbn.
  - by intros [= ->].
  - apply IH.
Qed.

Lemma lower_length s : String.length (lower s) = String.length s.
Proof. induction s as [|d s IH]; [done|]. cbn. by rewrite IH. Qed.

Lemma first_overlap_first e reps : ∀ k r,
  reps !! k = Some r → overlaps e r = true →
  (∀ j r', j < k → reps !! j = Some r' → overlaps e r' = false) →
  first_overlap e reps = r.
Proof.
  induction reps as [|r0 reps IH]; intros k r Hk Hov Hbefore; [done|].
  cbn [first_overlap]. destruct k as [|k].
  - cbn in Hk. injection Hk as ->. by rewrite Hov.
  - rewrite (Hbefore 0 r0) by (done || lia).
    apply (IH k); [done | done |].
    intros j r' Hj Hr'. apply (Hbefore (S j)); [lia | done].
Qed.

Lemma first_overlap_none e reps :
  (∀ r, r ∈ reps → overlaps e r = false) → first_overlap e reps = e.
Proof.
  induction reps as [|r0 reps IH]; intros Hno; [done|].
  cbn [first_overlap]. rewrite (Hno r0) by (by left).
  apply IH. intros r Hr. apply Hno. by right.
Qed.

Lemma normalize_policy_nonempty reps e : e ≠ "" → normalize reps e = normalize_policy reps e.
Proof.
  intros He. unfold normalize, normalize_policy.
  rewrite bool_decide_eq_false_2 by done. apply first_overlap_find.
Qed.

(** C8: a mention that is not empty - the closure is called on no other,
    line 102 keeps the triplets whose subject and object are truthy - is
    mapped to the first representative, in list order, that matches it:
    case being ignored, the mention is a substring of the representative
    or the representative is a substring of the mention; it is returned
    unchanged when no representative matches.  Ignoring case is comparing
    after [str.lower], which maps every character on its own: the
    capital letters to the small ones, 32 codes further. *)
Theorem normalize_first_overlap reps e :
  e ≠ "" →
  normalize reps e = normalize_policy reps e ∧
  (∀ k r, reps !! k = Some r → overlaps e r = true →
          (∀ j r', j < k → reps !! j = Some r' → overlaps e r' = false) →
          normalize reps e = r) ∧
  ((∀ r, r ∈ reps → overlaps e r = false) → normalize reps e = e) ∧
  (∀ r, overlaps e r = true ↔
        substring (lower e) (lower r) ∨ substring (lower r) (lower e)) ∧
  (∀ s, String.length (lower s) = String.length s ∧
        ∀ i c, String.get i s = Some c →
               String.get i (lower s) = Some (lower_char c)) ∧
  (∀ c, nat_of_ascii (lower_char c)
        = (if (65 <=? nat_of_ascii c) && (nat_of_ascii c <=? 90)
              || (192 <=? nat_of_ascii c) && (nat_of_ascii c <=? 222)
                 && negb (nat_of_ascii c =? 215)
           then nat_of_ascii c + 32 else nat_of_ascii c)) ∧
  (∀ triplets,
      normalized_triplets reps triplets
      = omap (fun t => match t with
                       | (Some s, p, Some o) =>
                           if bool_decide (s ≠ "" ∧ o ≠ "")
                           then Some (Some (normalize_policy reps s), p,
                                      Some (normalize_policy reps o))
                           else None
                       | _ => None
                       end) triplets).
Proof.
  intros He.
  split; [by apply normalize_policy_nonempty|].
  split; [|split; [|split; [|split; [|split]]]].
  - intros k r Hk Hov Hbefore. unfold normalize.
    rewrite bool_decide_eq_false_2 by done. by eapply first_overlap_first.
  - intros Hno. unfold normalize. rewrite bool_decide_eq_false_2 by done.
    by apply first_overlap_none.
  - intros r. unfold overlaps. by rewrite orb_true_iff, !contains_substring.
  - intros s. split; [apply lower_length | apply lower_get].
  - apply lower_char_code.
  - intros triplets. unfold normalized_triplets.
    induction triplets as [|[[[s|] p] [o|]] triplets IH]; cbn [omap list_omap];
      rewrite ?IH; try done.
    case_bool_decide as Hso; [|done]. destruct Hso as [Hs Ho].
    by rewrite !normalize_policy_nonempty.
Qed.

(** The statement above at the mention "BOB": "Robert" does not match,
    "bobby" does, and comes before "Bob". *)
Lemma normalize_first_overlap_example :
  "BOB" ≠ "" ∧ normalize ["Robert"; "bobby"; "Bob"] "BOB" = "bobby".
Proof.
  assert (He : "BOB" ≠ "") by discriminate.
  split; [exact He|].
  destruct (normalize_first_overlap ["Robert"; "bobby"; "Bob"] "BOB" He)
    as (_ & Hfirst & _).
  apply (Hfirst 1); [reflexivity | reflexivity |].
  intros [|j] r' Hj Hr'; [|lia]. injection Hr' as <-. reflexivity.
Defined.

End NormalizeClaim.


(** ** The graph aggregator: nodes, edges and totals *)

Section AggregationMore.
Local Open Scope nat_scope.

Lemma elem_of_endpoints ts v :
  v ∈ endpoints ts ↔ ∃ s p o, (Some s, p, Some o) ∈ ts ∧ (v = s ∨ v = o).
Proof.
  unfold endpoints. rewrite list_elem_of_bind. split.
  - intros ([[[s|] p] [o|]] & Hv & Ht); try by apply elem_of_nil in Hv.
    exists s, p, o. split; [done|].
    apply elem_of_cons in Hv as [->|Hv]; [by left|].
    apply list_elem_of_singleton in Hv as ->. by right.
  - intros (s & p & o & Ht & Hv). exists (Some s, p, Some o). split; [|done].
    destruct Hv as [-> | ->]; [by left | by right; left].
Qed.

Lemma endpoints_snoc ts t :
  endpoints (ts ++ [t]) =
    endpoints ts ++ match t with (Some s, _, Some o) => [s; o] | _ => [] end.
Proof. unfold endpoints. rewrite bind_app. cbn. by rewrite app_nil_r. Qed.

Lemma nodes_ensure {P} (G : digraph P) x v :
  nodes (if has_node G x then G else add_node G x) !! v =
    match nodes G !! v with
    | Some a => Some a
    | None => if bool_decide (v = x) then Some (NodeAttrs v "entity") else None
    end.
Proof.
  unfold has_node. destruct (decide (is_Some (nodes G !! x))) as [Hx|Hx].
  - rewrite (bool_decide_eq_true_2 _ Hx).
    destruct (nodes G !! v) eqn:Hv; [done|].
    case_bool_decide as Hvx; [|done]. subst v. rewrite Hv in Hx. by destruct Hx.
  - rewrite (bool_decide_eq_false_2 _ Hx).
    apply eq_None_not_Some in Hx. cbn.
    destruct (decide (v = x)) as [->|Hne].
    + rewrite lookup_insert_eq, Hx. by rewrite bool_decide_eq_true_2.
    + rewrite lookup_insert_ne by done.
      rewrite (bool_decide_eq_false_2 (v = x)) by done. by destruct (nodes G !! v).
Qed.

Lemma step_nodes G s p o v :
  nodes (step G (Some s, p, Some o)) !! v =
    match nodes G !! v with
    | Some a => Some a
    | None => if bool_decide (v = s ∨ v = o) then Some (NodeAttrs v "entity") else None
    end.
Proof.
  cbn [step].
  set (G1 := if has_node G s then G else add_node G s).
  set (G2 := if has_node G1 o then G1 else add_node G1 o).
  assert (HN : nodes (if has_edge G2 s o then bump_edge G2 s o p else add_edge G2 s o p)
               = nodes G2) by (by destruct (has_edge G2 s o)).
  rewrite HN. clear HN. subst G2 G1. rewrite !nodes_ensure.
  destruct (nodes G !! v); [done|].
  destruct (decide (v = s)) as [->|Hs].
  - rewrite !bool_decide_eq_true_2; [done | by left | done].
  - rewrite (bool_decide_eq_false_2 (v = s)) by done.
    destruct (decide (v = o)) as [->|Ho].
    + rewrite !bool_decide_eq_true_2; [done | by right | done].
    + rewrite !bool_decide_eq_false_2; [done | by intros [?|?] | done].
Qed.

(** The node dictionary after the first loop, read off the input. *)
Lemma nodes_aggregate ts v :
  nodes (aggregate ts) !! v =
    if bool_decide (v ∈ endpoints ts) then Some (NodeAttrs v "entity") else None.
Proof.
  induction ts as [|t ts IH] using rev_ind.
  - cbn. rewrite bool_decide_eq_false_2; [done|]. apply not_elem_of_nil.
  - rewrite aggregate_snoc, endpoints_snoc.
    destruct t as [[[s|] p] [o|]];
      try (rewrite step_skipped by done; by rewrite app_nil_r).
    rewrite step_nodes, IH.
    case_bool_decide as Hin.
    + rewrite bool_decide_eq_true_2; [done|]. apply elem_of_app. by left.
    + case_bool_decide as Hv.
      * rewrite bool_decide_eq_true_2; [done|]. apply elem_of_app. right.
        destruct Hv as [-> | ->]; [by left | by right; left].
      * rewrite bool_decide_eq_false_2; [done|].
        intros [?|Hv']%elem_of_app; [done|]. apply Hv.
        apply elem_of_cons in Hv' as [->|Hv']; [by left|].
        apply list_elem_of_singleton in Hv' as ->. by right.
Qed.

Lemma elem_of_preds_on u v p ts :
  p ∈ preds_on (u, v) ts ↔ (Some u, p, Some v) ∈ ts.
Proof.
  unfold preds_on. rewrite list_elem_of_omap. split.
  - intros ([[[s|] q] [o|]] & Ht & Hp); cbn in Hp;
      try (rewrite bool_decide_eq_false_2 in Hp by done; done).
    case_bool_decide as Heq; [|done]. by simplify_eq.
  - intros Ht. exists (Some u, p, Some v). split; [done|]. cbn.
    by rewrite bool_decide_eq_true_2.
Qed.

Lemma preds_on_nil u v ts :
  preds_on (u, v) ts = [] ↔ ∀ p, (Some u, p, Some v) ∉ ts.
Proof.
  split.
  - intros Hnil p Hp%elem_of_preds_on. rewrite Hnil in Hp. by apply elem_of_nil in Hp.
  - intros Hno. apply elem_of_nil_inv. intros p Hp%elem_of_preds_on. by eapply Hno.
Qed.

(** The first triplet folded into an edge. *)
Lemma preds_on_first u v ts p0 ps :
  preds_on (u, v) ts = p0 :: ps →
  ∃ ts1 ts2, ts = ts1 ++ (Some u, p0, Some v) :: ts2 ∧ preds_on (u, v) ts1 = [].
Proof.
  induction ts as [|t ts IH]; [done|].
  unfold preds_on. cbn [omap list_omap].
  destruct (bool_decide (pair_of t = Some (u, v))) eqn:Hb; cbn.
  - intros [= <- _]. apply bool_decide_eq_true_1 in Hb.
    exists [], ts. split; [|done].
    destruct t as [[[s|] q] [o|]]; cbn in Hb; try done. by simplify_eq.
  - intros Hrest. destruct (IH Hrest) as (ts1 & ts2 & -> & Hnil).
    exists (t :: ts1), ts2. split; [done|].
    unfold preds_on in *. cbn [omap list_omap]. by rewrite Hb.
Qed.

Lemma edges_step_insert G s p o :
  edges (step G (Some s, p, Some o)) =
    <[(s, o) := match edges G !! (s, o) with
                | Some d => EdgeAttrs (e_label d) (e_weight d + 1) (e_preds d ∪ {[p]})
                | None => EdgeAttrs p 1 {[p]}
                end]> (edges G).
Proof.
  apply map_eq. intros e. rewrite step_edges.
  destruct (decide ((s, o) = e)) as [<-|Hne].
  - by rewrite bool_decide_eq_true_2, lookup_insert_eq.
  - by rewrite bool_decide_eq_false_2, lookup_insert_ne.
Qed.

Lemma total_weight_step G s p o :
  total_weight (step G (Some s, p, Some o)) = total_weight G + 1.
Proof.
  unfold total_weight. rewrite edges_step_insert.
  assert (Hcomm : ∀ (m : gmap (string * string) (edge_attrs (gset string)))
                    (j1 j2 : string * string) z1 z2 (y : nat),
             j1 ≠ j2 → m !! j1 = Some z1 → m !! j2 = Some z2 →
             e_weight z1 + (e_weight z2 + y) = e_weight z2 + (e_weight z1 + y)).
  { intros. lia. }
  destruct (edges G !! (s, o)) as [d|] eqn:Hd.
  - rewrite <- insert_delete_eq.
    rewrite map_fold_insert_L; [|apply Hcomm|apply lookup_delete_eq].
    rewrite (map_fold_delete_L _ _ (s, o) d (edges G)); [|apply Hcomm|done].
    cbn. lia.
  - rewrite map_fold_insert_L; [|apply Hcomm|done]. cbn. lia.
Qed.

Lemma size_edges_step G s p o :
  size (edges (step G (Some s, p, Some o))) ≤ size (edges G) + 1.
Proof.
  rewrite edges_step_insert, map_size_insert.
  destruct (edges G !! (s, o)); cbn; lia.
Qed.

Lemma size_nodes_ensure {P} (G : digraph P) x :
  size (nodes (if has_node G x then G else add_node G x)) ≤ size (nodes G) + 1.
Proof.
  destruct (has_node G x); [lia|]. cbn. rewrite map_size_insert.
  destruct (nodes G !! x); cbn; lia.
Qed.

Lemma size_nodes_step G s p o :
  size (nodes (step G (Some s, p, Some o))) ≤ size (nodes G) + 2.
Proof.
  cbn [step].
  set (G1 := if has_node G s then G else add_node G s).
  set (G2 := if has_node G1 o then G1 else add_node G1 o).
  assert (HN : nodes (if has_edge G2 s o then bump_edge G2 s o p else add_edge G2 s o p)
               = nodes G2) by (by destruct (has_edge G2 s o)).
  rewrite HN. subst G2.
  pose proof (size_nodes_ensure G1 o). subst G1.
  pose proof (size_nodes_ensure G s). lia.
Qed.

Lemma counts_aggregate ts :
  total_weight (aggregate ts) = length (List.filter kept ts) ∧
  size (edges (aggregate ts)) ≤ length (List.filter kept ts) ∧
  size (nodes (aggregate ts)) ≤ 2 * length (List.filter kept ts).
Proof.
  induction ts as [|t ts (IHw & IHe & IHn)] using rev_ind; [done|].
  rewrite aggregate_snoc, List.filter_app, length_app.
  destruct t as [[[s|] p] [o|]]; cbn [List.filter kept length];
    try (rewrite step_skipped by done; rewrite Nat.add_0_r; done).
  pose proof (total_weight_step (aggregate ts) s p o).
  pose proof (size_edges_step (aggregate ts) s p o).
  pose proof (size_nodes_step (aggregate ts) s p o).
  repeat split; lia.
Qed.

Lemma weight_of_build it ts e :
  weight_of (build_graph_from_triplets it ts) e = occurrences e ts.
Proof.
  unfold weight_of, build_graph_from_triplets.
  rewrite edges_expose, edges_aggregate.
  destruct (preds_on e ts) as [|p0 ps] eqn:Hp; [|done]. cbn.
  by rewrite <- length_preds_on, Hp.
Qed.

Lemma label_of_build it ts e :
  label_of (build_graph_from_triplets it ts) e = head (preds_on e ts).
Proof.
  unfold label_of, build_graph_from_triplets.
  rewrite edges_expose, edges_aggregate.
  by destruct (preds_on e ts).
Qed.

Lemma preds_of_build it ts e d :
  set_order it →
  edges (build_graph_from_triplets it ts) !! e = Some d →
  ∀ p, p ∈ e_preds d ↔ p ∈ preds_on e ts.
Proof.
  intros Hit. unfold build_graph_from_triplets.
  rewrite edges_expose, edges_aggregate.
  destruct (preds_on e ts) as [|p0 ps]; [done|].
  cbn [fmap option_fmap option_map].
  intros [= <-] p. cbn [e_preds].
  rewrite (Hit _), elem_of_elements.
  rewrite elem_of_union, elem_of_singleton, elem_of_list_to_set, elem_of_cons. done.
Qed.

(** X1: the nodes of the returned graph are exactly the subjects and the
    objects of the triplets that are not skipped, and every node carries
    its own key as [label] and "entity" as [type]. *)
Theorem nodes_are_endpoints it ts v :
  (is_Some (nodes (build_graph_from_triplets it ts) !! v) ↔
   ∃ s p o, (Some s, p, Some o) ∈ ts ∧ (v = s ∨ v = o)) ∧
  (∀ a, nodes (build_graph_from_triplets it ts) !! v = Some a →
        a = NodeAttrs v "entity").
Proof.
  unfold build_graph_from_triplets. cbn [expose nodes].
  rewrite nodes_aggregate, <- elem_of_endpoints.
  case_bool_decide as Hv; split.
  - split; [done | by eexists].
  - by intros a [= <-].
  - split; [by intros [? ?] | done].
  - done.
Qed.

(** X2: there is an edge from [u] to [v] exactly when some triplet has
    subject [u] and object [v]; both end points of an edge are nodes. *)
Theorem edge_iff_triplet it ts u v :
  (is_Some (edges (build_graph_from_triplets it ts) !! (u, v)) ↔
   ∃ p, (Some u, p, Some v) ∈ ts) ∧
  (is_Some (edges (build_graph_from_triplets it ts) !! (u, v)) →
   is_Some (nodes (build_graph_from_triplets it ts) !! u) ∧
   is_Some (nodes (build_graph_from_triplets it ts) !! v)).
Proof.
  assert (Hiff : is_Some (edges (build_graph_from_triplets it ts) !! (u, v)) ↔
                 ∃ p, (Some u, p, Some v) ∈ ts).
  { unfold build_graph_from_triplets. rewrite edges_expose, edges_aggregate.
    destruct (preds_on (u, v) ts) as [|p0 ps] eqn:Hp; cbn.
    - split; [by intros [? ?]|]. intros [p Hin%elem_of_preds_on].
      rewrite Hp in Hin. by apply elem_of_nil in Hin.
    - split; [|by eexists]. intros _. exists p0.
      apply elem_of_preds_on. rewrite Hp. by left. }
  split; [exact Hiff|]. intros [p Hp]%Hiff.
  unfold build_graph_from_triplets. cbn [expose nodes].
  rewrite !nodes_aggregate.
  rewrite !bool_decide_eq_true_2; [by split; eexists | |];
    apply elem_of_endpoints; exists u, p, v; split; auto.
Qed.

(** X3: the label of an edge is the predicate of the first triplet between
    its end points, its [preds] holds exactly the predicates of the
    triplets between them, and there are at least one and at most [weight]
    of them. *)
Theorem label_first_preds_all it ts u v d :
  set_order it →
  edges (build_graph_from_triplets it ts) !! (u, v) = Some d →
  (∃ ts1 ts2, ts = ts1 ++ (Some u, e_label d, Some v) :: ts2 ∧
              ∀ p, (Some u, p, Some v) ∉ ts1) ∧
  (∀ p, p ∈ e_preds d ↔ (Some u, p, Some v) ∈ ts) ∧
  1 ≤ length (e_preds d) ≤ e_weight d.
Proof.
  intros Hit Hd.
  pose proof (preds_of_build it ts (u, v) d Hit Hd) as Hpreds.
  unfold build_graph_from_triplets in Hd.
  rewrite edges_expose, edges_aggregate in Hd.
  destruct (preds_on (u, v) ts) as [|p0 ps] eqn:Hp; [done|]. cbn in Hd.
  injection Hd as <-. cbn [e_label e_weight e_preds] in *.
  split; [|split].
  - destruct (preds_on_first u v ts p0 ps Hp) as (ts1 & ts2 & -> & Hnil).
    exists ts1, ts2. split; [done|]. by apply preds_on_nil.
  - intros p. rewrite Hpreds, <- Hp. apply elem_of_preds_on.
  - split.
    + assert (Hin : p0 ∈ p0 :: ps) by (by left). apply Hpreds in Hin.
      match goal with |- 1 ≤ length ?l => destruct l as [|q qs] end; [|cbn; lia].
      by apply elem_of_nil in Hin.
    + rewrite <- length_preds_on, Hp. apply submseteq_length, NoDup_submseteq.
      * rewrite (Hit _). apply NoDup_elements.
      * intros p. apply Hpreds.
Qed.

(** The statement above at [iter_up], [works_founded] and the edge from A
    to B. *)
Lemma label_first_preds_all_example :
  set_order iter_up ∧
  edges (build_graph_from_triplets iter_up works_founded) !! ("A", "B")
    = Some (EdgeAttrs "works_at" 3 ["works_at"; "founded"]) ∧
  (∃ ts1 ts2, works_founded = ts1 ++ (Some "A", "works_at", Some "B") :: ts2 ∧
              ∀ p, (Some "A", p, Some "B") ∉ ts1) ∧
  (∀ p, p ∈ ["works_at"; "founded"] ↔ (Some "A", p, Some "B") ∈ works_founded) ∧
  1 ≤ length ["works_at"; "founded"] ≤ 3.
Proof.
  split; [apply iter_up_order|].
  assert (Hl : edges (build_graph_from_triplets iter_up works_founded) !! ("A", "B")
               = Some (EdgeAttrs "works_at" 3 ["works_at"; "founded"])) by (by vm_compute).
  split; [exact Hl|].
  exact (label_first_preds_all iter_up works_founded "A" "B" _ iter_up_order Hl).
Defined.

(** X4: the weights of the edges add up to the number of triplets that are
    not skipped; so there are at most that many edges, and at most twice
    as many nodes. *)
Theorem total_weight_counts_kept it ts :
  total_weight (build_graph_from_triplets it ts) = length (List.filter kept ts) ∧
  number_of_edges (build_graph_from_triplets it ts) ≤ length (List.filter kept ts) ∧
  number_of_nodes (build_graph_from_triplets it ts) ≤ 2 * length (List.filter kept ts).
Proof.
  destruct (counts_aggregate ts) as (Hw & He & Hn).
  unfold total_weight, number_of_edges, number_of_nodes, build_graph_from_triplets.
  cbn [expose nodes edges]. rewrite map_fold_fmap, map_size_fmap.
  split; [exact Hw|]. split; [exact He | exact Hn].
Qed.

Lemma occurrences_app e ts1 ts2 :
  occurrences e (ts1 ++ ts2) = occurrences e ts1 + occurrences e ts2.
Proof. unfold occurrences. by rewrite List.filter_app, length_app. Qed.

Lemma preds_on_app e ts1 ts2 :
  preds_on e (ts1 ++ ts2) = preds_on e ts1 ++ preds_on e ts2.
Proof. unfold preds_on. apply omap_app. Qed.

Lemma nodes_build_is_Some it ts v :
  is_Some (nodes (build_graph_from_triplets it ts) !! v) ↔ v ∈ endpoints ts.
Proof.
  unfold build_graph_from_triplets. cbn [expose nodes]. rewrite nodes_aggregate.
  case_bool_decide as Hv.
  - split; [done | by eexists].
  - split; [by intros [? ?] | done].
Qed.

(** X5: the graph of two lists put one after the other.  The weight of an
    edge is the sum of its weights in the graphs of the two lists (0 where
    it is absent), its label is the label in the graph of the first list
    when the edge is there, and of the second otherwise, and the nodes are
    the nodes of either graph. *)
Theorem graph_of_concatenation it ts1 ts2 e v :
  weight_of (build_graph_from_triplets it (ts1 ++ ts2)) e =
    weight_of (build_graph_from_triplets it ts1) e +
    weight_of (build_graph_from_triplets it ts2) e ∧
  label_of (build_graph_from_triplets it (ts1 ++ ts2)) e =
    match label_of (build_graph_from_triplets it ts1) e with
    | Some l => Some l
    | None => label_of (build_graph_from_triplets it ts2) e
    end ∧
  (is_Some (nodes (build_graph_from_triplets it (ts1 ++ ts2)) !! v) ↔
   is_Some (nodes (build_graph_from_triplets it ts1) !! v) ∨
   is_Some (nodes (build_graph_from_triplets it ts2) !! v)).
Proof.
  split; [|split].
  - rewrite !weight_of_build. apply occurrences_app.
  - rewrite !label_of_build, preds_on_app. by destruct (preds_on e ts1).
  - rewrite !nodes_build_is_Some. unfold endpoints.
    by rewrite bind_app, elem_of_app.
Qed.

Lemma occurrences_Permutation e ts ts' :
  ts ≡ₚ ts' → occurrences e ts = occurrences e ts'.
Proof.
  unfold occurrences. induction 1 as [|t ts ts' _ IH|t1 t2 ts|ts ts' ts'' _ IH1 _ IH2].
  - done.
  - cbn. destruct (bool_decide _); cbn; by rewrite IH.
  - cbn. by do 2 destruct (bool_decide _).
  - by rewrite IH1.
Qed.

(** X6: the order of the input matters for the labels only.  Two lists with
    the same triplets in another order give the same nodes and the same
    edges, with the same weights and the same predicates in [preds]. *)
Theorem graph_of_permutation it ts ts' :
  ts ≡ₚ ts' →
  nodes (build_graph_from_triplets it ts) = nodes (build_graph_from_triplets it ts') ∧
  ∀ e, match edges (build_graph_from_triplets it ts) !! e,
             edges (build_graph_from_triplets it ts') !! e with
       | Some d, Some d' => e_weight d = e_weight d' ∧ e_preds d ≡ₚ e_preds d'
       | None, None => True
       | _, _ => False
       end.
Proof.
  intros Hperm. split.
  - apply map_eq. intros v. unfold build_graph_from_triplets. cbn [expose nodes].
    rewrite !nodes_aggregate.
    assert (He : endpoints ts ≡ₚ endpoints ts') by (unfold endpoints; by rewrite Hperm).
    rewrite (bool_decide_ext (v ∈ endpoints ts) (v ∈ endpoints ts')); [done|].
    by rewrite He.
  - intros e. unfold build_graph_from_triplets.
    rewrite !edges_expose, !edges_aggregate.
    assert (Hp : preds_on e ts ≡ₚ preds_on e ts').
    { unfold preds_on. by rewrite Hperm. }
    rewrite (occurrences_Permutation e ts ts' Hperm).
    assert (Hs : list_to_set (C:=gset string) (preds_on e ts) = list_to_set (preds_on e ts'))
      by (by rewrite Hp).
    rewrite Hs.
    destruct (preds_on e ts) as [|p0 ps], (preds_on e ts') as [|p0' ps']; cbn; try done.
    + by apply Permutation_nil_cons in Hp.
    + symmetry in Hp. by apply Permutation_nil_cons in Hp.
Qed.

(** The statement above at a list of two triplets and its reversal. *)
Lemma graph_of_permutation_example :
  [(Some "A", "p", Some "B"); (Some "B", "q", Some "A")]
    ≡ₚ [(Some "B", "q", Some "A"); (Some "A", "p", Some "B")] ∧
  nodes (build_graph_from_triplets iter_up
           [(Some "A", "p", Some "B"); (Some "B", "q", Some "A")])
    = nodes (build_graph_from_triplets iter_up
               [(Some "B", "q", Some "A"); (Some "A", "p", Some "B")]) ∧
  ∀ e, match edges (build_graph_from_triplets iter_up
                      [(Some "A", "p", Some "B"); (Some "B", "q", Some "A")]) !! e,
             edges (build_graph_from_triplets iter_up
                      [(Some "B", "q", Some "A"); (Some "A", "p", Some "B")]) !! e with
       | Some d, Some d' => e_weight d = e_weight d' ∧ e_preds d ≡ₚ e_preds d'
       | None, None => True
       | _, _ => False
       end.
Proof.
  assert (Hp : [(Some "A", "p", Some "B"); (Some "B", "q", Some "A")]
               ≡ₚ [(Some "B", "q", Some "A"); (Some "A", "p", Some "B")])
    by apply perm_swap.
  split; [exact Hp|].
  exact (graph_of_permutation iter_up _ _ Hp).
Defined.

Lemma kept_nil_iff ts :
  List.filter kept ts = [] ↔ ∀ s p o, (Some s, p, Some o) ∉ ts.
Proof.
  induction ts as [|t ts IH].
  - split; [|done]. intros _ s p o. apply not_elem_of_nil.
  - cbn [List.filter]. destruct t as [[[s|] p] [o|]]; cbn [kept].
    + split; [done|]. intros H. exfalso. apply (H s p o). by left.
    + rewrite IH. split; intros H s' p' o'.
      * intros [?|?]%elem_of_cons; [done | by eapply H].
      * intros ?. apply (H s' p' o'). by right.
    + rewrite IH. split; intros H s' p' o'.
      * intros [?|?]%elem_of_cons; [done | by eapply H].
      * intros ?. apply (H s' p' o'). by right.
    + rewrite IH. split; intros H s' p' o'.
      * intros [?|?]%elem_of_cons; [done | by eapply H].
      * intros ?. apply (H s' p' o'). by right.
Qed.

(** X7: the returned graph has no node exactly when every triplet is
    skipped, and it has no edge in exactly the same case. *)
Theorem empty_graph_iff_all_skipped it ts :
  (number_of_nodes (build_graph_from_triplets it ts) = 0 ↔ List.filter kept ts = []) ∧
  (number_of_edges (build_graph_from_triplets it ts) = 0 ↔ List.filter kept ts = []).
Proof.
  unfold number_of_nodes, number_of_edges. rewrite !map_size_empty_iff, !map_empty.
  split; rewrite kept_nil_iff; split.
  - intros Hnone s p o Hin.
    assert (Hs : is_Some (nodes (build_graph_from_triplets it ts) !! s)).
    { apply nodes_build_is_Some, elem_of_endpoints. exists s, p, o. auto. }
    rewrite Hnone in Hs. by destruct Hs.
  - intros Hno v. apply eq_None_not_Some.
    intros (s & p & o & Hin & _)%nodes_build_is_Some%elem_of_endpoints.
    by eapply Hno.
  - intros Hnone s p o Hin%elem_of_preds_on.
    specialize (Hnone (s, o)). unfold build_graph_from_triplets in Hnone.
    rewrite edges_expose, edges_aggregate in Hnone.
    destruct (preds_on (s, o) ts); [by apply elem_of_nil in Hin | done].
  - intros Hno [u v]. unfold build_graph_from_triplets.
    rewrite edges_expose, edges_aggregate.
    destruct (preds_on (u, v) ts) as [|p0 ps] eqn:Hp; [done|]. exfalso.
    apply (Hno u p0 v), elem_of_preds_on. rewrite Hp. by left.
Qed.

End AggregationMore.


(** ** app.py: the entity list, the normalised triplets and the graph *)

Section AppFacts.
Local Open Scope nat_scope.

Lemma fromkeys_from n : ∀ xs acc,
  length xs ≤ n →
  foldl (fun keys x => if bool_decide (x ∈ keys) then keys else keys ++ [x]) acc xs
    = acc ++ fromkeys (filter (fun y => y ∉ acc) xs).
Proof.
  unfold fromkeys. induction n as [|n IH]; intros xs acc Hn.
  - destruct xs; [|cbn in Hn; lia]. cbn. by rewrite app_nil_r.
  - destruct xs as [|x xs]; [cbn; by rewrite app_nil_r|].
    cbn in Hn. cbn [foldl]. rewrite filter_cons.
    case_bool_decide as Hx.
    + rewrite decide_False by (intros ?; done). apply IH. lia.
    + rewrite decide_True by done. cbn [foldl].
      rewrite (bool_decide_eq_false_2 (x ∈ [])) by apply not_elem_of_nil.
      cbn [app].
      rewrite (IH xs (acc ++ [x])) by lia.
      rewrite (IH (filter (fun y => y ∉ acc) xs) [x])
        by (pose proof (length_filter (fun y => y ∉ acc) xs); lia).
      rewrite <- (assoc_L (++)). do 2 f_equal.
      rewrite list_filter_filter. f_equal. apply filter_ext_in. intros y _.
      rewrite elem_of_app. split.
      * intros Hn'. split; intros ?; apply Hn'; [by right | by left].
      * intros [H1 H2] [?|?]; done.
Qed.

(** The first occurrence of a string stays, the later ones go. *)
Lemma fromkeys_cons x xs :
  fromkeys (x :: xs) = x :: fromkeys (filter (fun y => y ≠ x) xs).
Proof.
  unfold fromkeys at 1. cbn [foldl].
  rewrite (bool_decide_eq_false_2 (x ∈ [])) by apply not_elem_of_nil. cbn [app].
  rewrite (fromkeys_from (length xs)) by done. cbn [app]. do 2 f_equal.
  apply filter_ext_in. intros y _. by rewrite list_elem_of_singleton.
Qed.

Lemma fromkeys_facts n : ∀ xs,
  length xs ≤ n →
  NoDup (fromkeys xs) ∧ (∀ x, x ∈ fromkeys xs ↔ x ∈ xs) ∧ sublist (fromkeys xs) xs.
Proof.
  induction n as [|n IH]; intros xs Hn.
  - destruct xs; [|cbn in Hn; lia]. repeat split; [constructor | done | done | done].
  - destruct xs as [|x xs]; [repeat split; [constructor | done | done | done]|].
    cbn in Hn. rewrite fromkeys_cons.
    destruct (IH (filter (fun y => y ≠ x) xs)) as (Hnd & Hel & Hsub).
    { pose proof (length_filter (fun y => y ≠ x) xs). lia. }
    split; [|split].
    + constructor; [|done]. rewrite Hel, list_elem_of_filter. by intros [? _].
    + intros y. rewrite !elem_of_cons, Hel, list_elem_of_filter.
      destruct (decide (y = x)) as [->|Hne]; [split; by left|].
      split; [intros [?|[_ ?]]; [done | by right] | intros [?|?]; [done | by right]].
    + constructor. etrans; [exact Hsub|]. apply sublist_filter.
Qed.

Lemma filter_ne_not_elem_of (x : string) (xs : list string) :
  x ∉ xs → filter (fun y => y ≠ x) xs = xs.
Proof.
  induction xs as [|y xs IH]; [done|].
  intros [Hxy Hx]%not_elem_of_cons.
  rewrite filter_cons_True by done. by rewrite IH.
Qed.

Lemma fromkeys_NoDup_id xs : NoDup xs → fromkeys xs = xs.
Proof.
  induction 1 as [|x xs Hx Hnd IH]; [done|].
  by rewrite fromkeys_cons, filter_ne_not_elem_of, IH.
Qed.

(** X8: [list(dict.fromkeys(xs))] has no duplicates and the same strings
    as [xs], in the order of their first occurrences in [xs]; applying it
    again changes nothing. *)
Theorem fromkeys_first_occurrences xs :
  NoDup (fromkeys xs) ∧
  (∀ x, x ∈ fromkeys xs ↔ x ∈ xs) ∧
  sublist (fromkeys xs) xs ∧
  (∀ x, fromkeys (x :: xs) = x :: fromkeys (filter (fun y => y ≠ x) xs)) ∧
  fromkeys (fromkeys xs) = fromkeys xs.
Proof.
  destruct (fromkeys_facts (length xs) xs) as (Hnd & Hel & Hsub); [done|].
  split; [done|]. split; [done|]. split; [done|]. split.
  - intros x. apply fromkeys_cons.
  - by apply fromkeys_NoDup_id.
Qed.

Lemma string_app_empty_r s : String.app s "" = s.
Proof.
  induction s as [|c s IH]; [done|].
  change (String c s +:+ "") with (String c (s +:+ "")). by rewrite IH.
Qed.

Lemma substring_refl s : substring s s.
Proof.
  exists "", "". change ("" +:+ (s +:+ "")) with (s +:+ "").
  by rewrite string_app_empty_r.
Qed.

Lemma substring_empty s : substring "" s.
Proof. by exists "", s. Qed.

Lemma overlaps_refl e : overlaps e e = true.
Proof.
  unfold overlaps. apply orb_true_iff. left.
  apply contains_substring, substring_refl.
Qed.

Lemma overlaps_empty_rep e : overlaps e "" = true.
Proof.
  unfold overlaps. apply orb_true_iff. right.
  apply contains_substring, substring_empty.
Qed.

(** The scan stops at or before any representative that matches. *)
Lemma first_overlap_before e reps : ∀ k r,
  reps !! k = Some r → overlaps e r = true →
  ∃ k' r', k' ≤ k ∧ reps !! k' = Some r' ∧ first_overlap e reps = r'.
Proof.
  induction reps as [|r0 reps IH]; intros k r Hk Hov; [done|].
  cbn [first_overlap]. destruct (overlaps e r0) eqn:H0.
  - exists 0, r0. split; [lia | done].
  - destruct k as [|k]; [cbn in Hk; congruence|].
    destruct (IH k r Hk Hov) as (k' & r' & Hle & Hk' & Hf).
    exists (S k'), r'. split; [lia | done].
Qed.

Lemma normalize_range reps e :
  normalize reps e = e ∨ normalize reps e ∈ reps.
Proof.
  unfold normalize. case_bool_decide; [by left|].
  induction reps as [|r reps IH]; [by left|]. cbn [first_overlap].
  destruct (overlaps e r); [right; by left|].
  destruct IH as [?|?]; [by left | right; by right].
Qed.

(** X9: a representative that is not empty is never left unmatched: it is
    mapped to a representative that stands at its own place in the list
    or before it. *)
Theorem representative_maps_backwards reps k r :
  reps !! k = Some r → r ≠ "" →
  ∃ k' r', k' ≤ k ∧ reps !! k' = Some r' ∧ normalize reps r = r'.
Proof.
  intros Hk Hr. unfold normalize. rewrite bool_decide_eq_false_2 by done.
  apply (first_overlap_before r reps k r Hk), overlaps_refl.
Qed.

(** The statement above at the second of two representatives, which is
    mapped to the first. *)
Lemma representative_maps_backwards_example :
  ["Bob"; "Bobby"] !! 1 = Some "Bobby" ∧ "Bobby" ≠ "" ∧
  ∃ k' r', k' ≤ 1 ∧ ["Bob"; "Bobby"] !! k' = Some r' ∧
           normalize ["Bob"; "Bobby"] "Bobby" = r'.
Proof.
  assert (H1 : ["Bob"; "Bobby"] !! 1 = Some "Bobby") by reflexivity.
  assert (H2 : "Bobby" ≠ "") by discriminate.
  split; [exact H1|]. split; [exact H2|].
  exact (representative_maps_backwards ["Bob"; "Bobby"] 1 "Bobby" H1 H2).
Defined.

Lemma lower_empty_inv e : lower e = "" → e = "".
Proof. by destruct e. Qed.

(** X10: mentions that differ in case only are treated alike: they get the
    same representative, or each is returned unchanged. *)
Theorem normalize_ignores_case reps e e' :
  lower e = lower e' →
  normalize reps e = normalize reps e' ∨
  (normalize reps e = e ∧ normalize reps e' = e').
Proof.
  intros Hl. unfold normalize.
  destruct (decide (e = "")) as [->|Hne].
  - symmetry in Hl. apply lower_empty_inv in Hl as ->. by left.
  - assert (He' : e' ≠ "").
    { intros ->. by apply lower_empty_inv in Hl. }
    rewrite !bool_decide_eq_false_2 by done.
    assert (Hov : ∀ r, overlaps e r = overlaps e' r).
    { intros r. unfold overlaps. by rewrite Hl. }
    induction reps as [|r reps IH]; [by right|]. cbn [first_overlap].
    rewrite <- Hov. destruct (overlaps e r); [by left | exact IH].
Qed.

(** The statement above at "Bob" and "BOB". *)
Lemma normalize_ignores_case_example :
  lower "Bob" = lower "BOB" ∧
  (normalize ["Robert"; "bobby"] "Bob" = normalize ["Robert"; "bobby"] "BOB" ∨
   (normalize ["Robert"; "bobby"] "Bob" = "Bob" ∧
    normalize ["Robert"; "bobby"] "BOB" = "BOB")).
Proof.
  assert (H : lower "Bob" = lower "BOB") by reflexivity.
  split; [exact H|].
  exact (normalize_ignores_case ["Robert"; "bobby"] "Bob" "BOB" H).
Defined.

(** X11: an empty string among the representatives matches every mention:
    no mention that is not empty is then returned unchanged unless it is a
    representative itself. *)
Theorem empty_representative_catches_all reps e :
  "" ∈ reps → e ≠ "" → normalize reps e ∈ reps.
Proof.
  intros [k Hk]%list_elem_of_lookup_1 He.
  unfold normalize. rewrite bool_decide_eq_false_2 by done.
  destruct (first_overlap_before e reps k "" Hk (overlaps_empty_rep e))
    as (k' & r' & _ & Hk' & ->).
  by eapply list_elem_of_lookup_2.
Qed.

(** The statement above at the representatives "Bob" and "". *)
Lemma empty_representative_catches_all_example :
  "" ∈ ["Bob"; ""] ∧ "Alice" ≠ "" ∧ normalize ["Bob"; ""] "Alice" ∈ ["Bob"; ""].
Proof.
  assert (H1 : "" ∈ ["Bob"; ""]) by (right; left).
  assert (H2 : "Alice" ≠ "") by discriminate.
  split; [exact H1|]. split; [exact H2|].
  exact (empty_representative_catches_all ["Bob"; ""] "Alice" H1 H2).
Defined.

Lemma elem_of_normalized_triplets reps triplets t :
  t ∈ normalized_triplets reps triplets ↔
  ∃ s p o, (Some s, p, Some o) ∈ triplets ∧ s ≠ "" ∧ o ≠ "" ∧
           t = (Some (normalize reps s), p, Some (normalize reps o)).
Proof.
  unfold normalized_triplets. rewrite list_elem_of_omap. split.
  - intros ([[[s|] p] [o|]] & Hin & Ht); try done.
    case_bool_decide as Hso; [|done]. destruct Hso as [Hs Ho].
    injection Ht as <-. by exists s, p, o.
  - intros (s & p & o & Hin & Hs & Ho & ->).
    exists (Some s, p, Some o). split; [done|].
    by rewrite bool_decide_eq_true_2.
Qed.

Lemma normalized_triplets_kept reps triplets :
  List.filter kept (normalized_triplets reps triplets) = normalized_triplets reps triplets.
Proof.
  unfold normalized_triplets.
  induction triplets as [|[[[s|] p] [o|]] ts IH]; cbn [omap list_omap]; try done.
  case_bool_decide; [|done]. cbn. by rewrite IH.
Qed.

Lemma length_normalized_triplets reps triplets :
  length (normalized_triplets reps triplets) ≤ length triplets.
Proof.
  unfold normalized_triplets.
  induction triplets as [|t ts IH]; [done|]. cbn [omap list_omap].
  destruct (match t with (Some s, p, Some o) => _ | _ => None end); cbn; lia.
Qed.

(** X12: the statistics the application shows (lines 110-114).  No
    normalised triplet is skipped by the aggregator, so the weights of the
    edges add up to the number shown as "Triplets", which is at most the
    number of extracted triplets; there are at most that many edges; and
    every node is a representative or the subject or object of an
    extracted triplet in which neither is empty. *)
Theorem knowledge_graph_statistics it reps triplets :
  total_weight (knowledge_graph it reps triplets)
    = length (normalized_triplets reps triplets) ∧
  number_of_edges (knowledge_graph it reps triplets)
    ≤ length (normalized_triplets reps triplets) ∧
  length (normalized_triplets reps triplets) ≤ length triplets ∧
  ∀ v, is_Some (nodes (knowledge_graph it reps triplets) !! v) →
       v ∈ reps ∨ ∃ s p o, (Some s, p, Some o) ∈ triplets ∧ s ≠ "" ∧ o ≠ "" ∧
                           (v = s ∨ v = o).
Proof.
  unfold knowledge_graph.
  destruct (counts_aggregate (normalized_triplets reps triplets)) as (Hw & He & _).
  rewrite normalized_triplets_kept in Hw, He.
  split; [|split; [|split]].
  - unfold total_weight, build_graph_from_triplets. cbn [expose edges].
    by rewrite map_fold_fmap.
  - unfold number_of_edges, build_graph_from_triplets. cbn [expose edges].
    by rewrite map_size_fmap.
  - apply length_normalized_triplets.
  - intros v (s' & p' & o' & Hin & Hv)%nodes_build_is_Some%elem_of_endpoints.
    apply elem_of_normalized_triplets in Hin
      as (s & p & o & Hin & Hs & Ho & [= -> -> ->]).
    destruct Hv as [-> | ->].
    + destruct (normalize_range reps s) as [-> | ?]; [|by left].
      right. exists s, p, o. auto.
    + destruct (normalize_range reps o) as [-> | ?]; [|by left].
      right. exists s, p, o. auto.
Qed.

(** X13: when no representative is empty, no node of the drawn graph has
    the empty string as its key. *)
Theorem knowledge_graph_no_empty_node it reps triplets :
  "" ∉ reps → nodes (knowledge_graph it reps triplets) !! "" = None.
Proof.
  intros Hreps. apply eq_None_not_Some. unfold knowledge_graph.
  intros (s' & p' & o' & Hin & Hv)%nodes_build_is_Some%elem_of_endpoints.
  apply elem_of_normalized_triplets in Hin
    as (s & p & o & Hin & Hs & Ho & [= -> -> ->]).
  destruct Hv as [Hv | Hv].
  - destruct (normalize_range reps s) as [He | He]; rewrite <- Hv in He; done.
  - destruct (normalize_range reps o) as [He | He]; rewrite <- Hv in He; done.
Qed.

(** The statement above at the triplet ("A","rel",""), which line 102
    drops. *)
Lemma knowledge_graph_no_empty_node_example :
  ("" ∉ ["A"]) ∧
  nodes (knowledge_graph iter_up ["A"] [(Some "A", "rel", Some "")]) !! "" = None.
Proof.
  assert (H : "" ∉ ["A"]) by (by intros [=]%list_elem_of_singleton).
  split; [exact H|].
  exact (knowledge_graph_no_empty_node iter_up ["A"] [(Some "A", "rel", Some "")] H).
Defined.

End AppFacts.

(** ** The deduplicator on the numbers of numpy: clusters *)

Section FloatClusters.
Local Open Scope nat_scope.
Context {F P : Type}.
Context (norm : list F → F) (eq_zero : F → bool) (tiny : F) (div : F → F → F).
Context (dot : list F → list F → P) (ge : P → P → bool).
Context (encode : list string → list (list F)).
Hypothesis encode_length : ∀ texts, length (encode texts) = length texts.

Lemma float_length_embs_norm texts :
  length (FloatEmbeddings.embs_norm norm eq_zero tiny div encode texts) = length texts.
Proof.
  unfold FloatEmbeddings.embs_norm. by rewrite float_length_normalize_rows.
Qed.

Lemma float_embs_norm_lookup texts i :
  FloatEmbeddings.embs_norm norm eq_zero tiny div encode texts !! i
    = (fun row => map (fun x => div x (FloatEmbeddings.clamp eq_zero tiny (norm row))) row)
        <$> encode texts !! i.
Proof.
  unfold FloatEmbeddings.embs_norm.
  by rewrite float_normalize_rows_map, list_lookup_fmap.
Qed.

Lemma float_returned_clusters texts t :
  returned (FloatEmbeddings.deduplicate_entities norm eq_zero tiny div dot ge encode texts t)
    = mapM (representative texts)
           (FloatEmbeddings.clusters_of norm eq_zero tiny div dot ge encode texts t).
Proof.
  destruct texts as [|s texts]; [|done].
  unfold FloatEmbeddings.clusters_of. rewrite float_length_embs_norm. done.
Qed.

Lemma float_clusters_seeded texts t :
  Forall (seeded (length texts)
            (FloatEmbeddings.cos_ge dot ge
               (FloatEmbeddings.embs_norm norm eq_zero tiny div encode texts) t))
         (FloatEmbeddings.clusters_of norm eq_zero tiny div dot ge encode texts t).
Proof.
  unfold FloatEmbeddings.clusters_of. rewrite <- (float_length_embs_norm texts) at 1.
  apply greedy_clusters_seeded.
Qed.

Lemma filter_all {A} (Q : A → Prop) `{!∀ x, Decision (Q x)} (l : list A) :
  (∀ x, x ∈ l → Q x) → filter Q l = l.
Proof.
  induction l as [|x l IH]; intros HQ; [done|].
  rewrite filter_cons_True by (apply HQ; by left).
  rewrite IH; [done|]. intros y Hy. apply HQ. by right.
Qed.

Lemma greedy_from_all_visited (sim : nat → nat → bool) l V :
  (∀ j, j ∈ l → j ∈ V) → greedy_from sim V l = [].
Proof.
  induction l as [|i rest IH]; intros HV; [done|]. cbn [greedy_from].
  rewrite bool_decide_eq_true_2 by (apply HV; by left).
  apply IH. intros j Hj. apply HV. by right.
Qed.

(** When every later index passes the test against index 0, the pass
    builds one cluster with all the indices. *)
Lemma greedy_clusters_first_takes_all (sim : nat → nat → bool) m :
  (∀ j, 0 < j < S m → sim 0 j = true) →
  greedy_clusters (S m) sim = [seq 0 (S m)].
Proof.
  intros Hsim. rewrite greedy_clusters_from. cbn [seq greedy_from].
  rewrite bool_decide_eq_false_2 by apply not_elem_of_empty.
  assert (Hc : filter (fun j => (j ∉ (∅ : gset nat) ∪ {[0]}) ∧ sim 0 j = true) (seq 1 m)
               = seq 1 m).
  { apply filter_all. intros j Hj%elem_of_seq. split.
    - rewrite not_elem_of_union, not_elem_of_singleton.
      split; [apply not_elem_of_empty | lia].
    - apply Hsim. lia. }
  rewrite Hc. f_equal. apply greedy_from_all_visited.
  intros j Hj. apply elem_of_union_r. by apply elem_of_list_to_set.
Qed.

(** X16: when every later mention passes the test of line 46 against the
    first mention, everything is merged: there is one cluster with all the
    indices, and the call returns one string, the first of the longest
    mentions. *)
Theorem first_mention_takes_all texts t :
  texts ≠ [] →
  (∀ j, 0 < j < length texts →
        FloatEmbeddings.cos_ge dot ge
          (FloatEmbeddings.embs_norm norm eq_zero tiny div encode texts) t 0 j = true) →
  FloatEmbeddings.clusters_of norm eq_zero tiny div dot ge encode texts t
    = [seq 0 (length texts)] ∧
  ∃ r, returned (FloatEmbeddings.deduplicate_entities norm eq_zero tiny div dot ge
                   encode texts t) = Some [r] ∧
       first_longest texts (seq 0 (length texts)) r.
Proof.
  intros Hne Hall.
  assert (Hcs : FloatEmbeddings.clusters_of norm eq_zero tiny div dot ge encode texts t
                = [seq 0 (length texts)]).
  { unfold FloatEmbeddings.clusters_of. rewrite float_length_embs_norm.
    destruct texts as [|s texts]; [done|]. cbn [length].
    by apply greedy_clusters_first_takes_all. }
  split; [exact Hcs|].
  rewrite float_returned_clusters, Hcs.
  assert (Hsome : is_Some (representative texts (seq 0 (length texts)))).
  { pose proof (float_clusters_seeded texts t) as Hseed.
    rewrite Hcs in Hseed. apply Forall_cons in Hseed as [Hseed _].
    by eapply representative_is_Some. }
  destruct Hsome as [r Hr]. exists r. split.
  - cbn. by rewrite Hr.
  - apply representative_first_longest; [apply StronglySorted_lt_seq | done].
Qed.

Lemma elem_of_concat {A} (x : A) (ls : list (list A)) :
  x ∈ concat ls ↔ ∃ l, l ∈ ls ∧ x ∈ l.
Proof.
  induction ls as [|l ls IH]; cbn.
  - split; [by intros ?%elem_of_nil | by intros (? & ?%elem_of_nil & _)].
  - rewrite elem_of_app, IH. split.
    + intros [?|(l' & ? & ?)]; [exists l; split; [by left | done]|].
      exists l'. split; [by right | done].
    + intros (l' & [->|?]%elem_of_cons & ?); [by left|]. right. by exists l'.
Qed.

Lemma StronglySorted_lookup_rel {A} (R : relation A) (l : list A) a b x y :
  StronglySorted R l → l !! a = Some x → l !! b = Some y → a < b → R x y.
Proof.
  intros Hs. revert a b. induction Hs as [|z l Hs IH Hz]; intros a b; [done|].
  destruct a as [|a], b as [|b]; cbn; intros Ha Hb Hab; try lia.
  - injection Ha as ->. apply list_elem_of_lookup_2 in Hb.
    by eapply Forall_forall in Hz.
  - apply (IH a b); [done | done | lia].
Qed.

(** X17: two mentions with the same embedding are never separated,
    provided that the embedding passes the test of line 46 against itself
    (rounding can make the cosine of a row with itself fall short of 1):
    every cluster that holds one of them holds the other. *)
Theorem equal_embeddings_share_cluster texts t i j u c :
  encode texts !! i = Some u →
  encode texts !! j = Some u →
  FloatEmbeddings.cos_ge dot ge
    (FloatEmbeddings.embs_norm norm eq_zero tiny div encode texts) t i i = true →
  c ∈ FloatEmbeddings.clusters_of norm eq_zero tiny div dot ge encode texts t →
  i ∈ c → j ∈ c.
Proof.
  intros Hi Hj Hself Hc Hic.
  set (en := FloatEmbeddings.embs_norm norm eq_zero tiny div encode texts) in *.
  set (sim := FloatEmbeddings.cos_ge dot ge en t) in *.
  assert (Hrow : ∀ k, encode texts !! k = Some u →
                      en !!! k = map (fun x => div x (FloatEmbeddings.clamp eq_zero tiny (norm u))) u).
  { intros k Hk. apply list_lookup_total_correct. subst en.
    by rewrite float_embs_norm_lookup, Hk. }
  assert (Hij : en !!! i = en !!! j) by (by rewrite !Hrow).
  assert (Hleft : ∀ a, sim a j = sim a i).
  { intros a. unfold sim, FloatEmbeddings.cos_ge. by rewrite Hij. }
  assert (Hright : ∀ a, sim j a = sim i a).
  { intros a. unfold sim, FloatEmbeddings.cos_ge. by rewrite Hij. }
  assert (Hjn : j < length en).
  { subst en. rewrite float_length_embs_norm, <- (encode_length texts).
    by eapply lookup_lt_Some. }
  pose proof (greedy_clusters_seeded (length en) sim) as Hseed.
  pose proof (greedy_clusters_precedes (length en) sim) as Hprec.
  pose proof (greedy_clusters_partition (length en) sim) as Hpart.
  change (greedy_clusters (length en) sim)
    with (FloatEmbeddings.clusters_of norm eq_zero tiny div dot ge encode texts t) in *.
  set (cs := FloatEmbeddings.clusters_of norm eq_zero tiny div dot ge encode texts t) in *.
  assert (Hjc : ∃ c2, c2 ∈ cs ∧ j ∈ c2).
  { apply elem_of_concat. rewrite Hpart. apply elem_of_seq. lia. }
  destruct Hjc as (c2 & Hc2 & Hjc2).
  apply list_elem_of_lookup_1 in Hc as [k1 Hk1].
  apply list_elem_of_lookup_1 in Hc2 as [k2 Hk2].
  assert (Hmem : ∀ k c0 i0 x, cs !! k = Some c0 →
                   head c0 = Some i0 → x ∈ c0 → x = i0 ∨ sim i0 x = true).
  { intros k c0 i0 x Hk Hh Hx.
    eapply Forall_forall in Hseed; [|by eapply list_elem_of_lookup_2].
    destruct Hseed as (i' & rest & -> & _ & _ & Hrest). cbn in Hh.
    injection Hh as ->. apply elem_of_cons in Hx as [->|Hx]; [by left|].
    right. eapply Forall_forall in Hrest; [|done]. by destruct Hrest. }
  destruct (lt_eq_lt_dec k1 k2) as [[Hlt|Heq]|Hgt].
  - exfalso.
    destruct (StronglySorted_lookup_rel _ _ _ _ _ _ Hprec Hk1 Hk2 Hlt)
      as (i1 & i2 & Hh1 & _ & _ & Hno).
    eapply Forall_forall in Hno; [|exact Hjc2].
    rewrite Hleft in Hno.
    destruct (Hmem k1 c i1 i Hk1 Hh1 Hic) as [-> | Hs]; congruence.
  - subst k2. congruence.
  - exfalso.
    destruct (StronglySorted_lookup_rel _ _ _ _ _ _ Hprec Hk2 Hk1 Hgt)
      as (i2 & i1 & Hh2 & _ & _ & Hno).
    eapply Forall_forall in Hno; [|exact Hic].
    destruct (Hmem k2 c2 i2 j Hk2 Hh2 Hjc2) as [-> | Hs].
    + rewrite Hright in Hno. congruence.
    + rewrite Hleft in Hs. congruence.
Qed.

End FloatClusters.

Section FloatExamples.
Local Open Scope nat_scope.

Lemma binary64_rows_length texts : length (Binary64.rows texts) = length texts.
Proof. apply length_map. Qed.

(** In binary64, with the threshold 3/4: "bb" takes "a" and "c", and the
    two occurrences of "a" are in one cluster. *)
Example binary64_clusters :
  FloatEmbeddings.clusters_of Binary64.norm Binary64.eq_zero Binary64.tiny
    PrimFloat.div Binary64.dot Binary64.ge Binary64.rows ["bb"; "a"; "c"] (3 / 4)%float
  = [[0; 1; 2]] ∧
  FloatEmbeddings.clusters_of Binary64.norm Binary64.eq_zero Binary64.tiny
    PrimFloat.div Binary64.dot Binary64.ge Binary64.rows ["a"; "c"; "a"] (3 / 4)%float
  = [[0; 2]; [1]] ∧
  returned (FloatEmbeddings.deduplicate_entities Binary64.norm Binary64.eq_zero
              Binary64.tiny PrimFloat.div Binary64.dot Binary64.ge Binary64.rows
              ["a"; "bb"; "c"] (3 / 4)%float) = Some ["bb"; "c"].
Proof. split; [|split]; vm_compute; reflexivity. Qed.


Lemma first_mention_takes_all_example :
  (∀ texts, length (Binary64.rows texts) = length texts) ∧
  ["bb"; "a"; "c"] ≠ [] ∧
  (∀ j, 0 < j < 3 →
        FloatEmbeddings.cos_ge Binary64.dot Binary64.ge
          (FloatEmbeddings.embs_norm Binary64.norm Binary64.eq_zero Binary64.tiny
             PrimFloat.div Binary64.rows ["bb"; "a"; "c"]) (3 / 4)%float 0 j = true) ∧
  FloatEmbeddings.clusters_of Binary64.norm Binary64.eq_zero Binary64.tiny
    PrimFloat.div Binary64.dot Binary64.ge Binary64.rows ["bb"; "a"; "c"] (3 / 4)%float
    = [seq 0 3] ∧
  ∃ r, returned (FloatEmbeddings.deduplicate_entities Binary64.norm Binary64.eq_zero
                   Binary64.tiny PrimFloat.div Binary64.dot Binary64.ge Binary64.rows
                   ["bb"; "a"; "c"] (3 / 4)%float) = Some [r] ∧
       first_longest ["bb"; "a"; "c"] (seq 0 3) r.
Proof.
  assert (Hne : ["bb"; "a"; "c"] ≠ []) by discriminate.
  assert (Hall : ∀ j, 0 < j < 3 →
        FloatEmbeddings.cos_ge Binary64.dot Binary64.ge
          (FloatEmbeddings.embs_norm Binary64.norm Binary64.eq_zero Binary64.tiny
             PrimFloat.div Binary64.rows ["bb"; "a"; "c"]) (3 / 4)%float 0 j = true).
  { intros [|[|[|j]]] Hj; [lia | reflexivity | reflexivity | lia]. }
  split; [exact binary64_rows_length|]. split; [exact Hne|]. split; [exact Hall|].
  exact (first_mention_takes_all Binary64.norm Binary64.eq_zero Binary64.tiny
           PrimFloat.div Binary64.dot Binary64.ge Binary64.rows binary64_rows_length
           ["bb"; "a"; "c"] (3 / 4)%float Hne Hall).
Defined.

Lemma equal_embeddings_share_cluster_example :
  (∀ texts, length (Binary64.rows texts) = length texts) ∧
  Binary64.rows ["a"; "c"; "a"] !! 0 = Some [1; 0]%float ∧
  Binary64.rows ["a"; "c"; "a"] !! 2 = Some [1; 0]%float ∧
  FloatEmbeddings.cos_ge Binary64.dot Binary64.ge
    (FloatEmbeddings.embs_norm Binary64.norm Binary64.eq_zero Binary64.tiny
       PrimFloat.div Binary64.rows ["a"; "c"; "a"]) (3 / 4)%float 0 0 = true ∧
  [0; 2] ∈ FloatEmbeddings.clusters_of Binary64.norm Binary64.eq_zero Binary64.tiny
             PrimFloat.div Binary64.dot Binary64.ge Binary64.rows ["a"; "c"; "a"]
             (3 / 4)%float ∧
  0 ∈ [0; 2] ∧ 2 ∈ [0; 2].
Proof.
  assert (H0 : Binary64.rows ["a"; "c"; "a"] !! 0 = Some [1; 0]%float) by reflexivity.
  assert (H2 : Binary64.rows ["a"; "c"; "a"] !! 2 = Some [1; 0]%float) by reflexivity.
  assert (Hself : FloatEmbeddings.cos_ge Binary64.dot Binary64.ge
    (FloatEmbeddings.embs_norm Binary64.norm Binary64.eq_zero Binary64.tiny
       PrimFloat.div Binary64.rows ["a"; "c"; "a"]) (3 / 4)%float 0 0 = true)
    by reflexivity.
  assert (Hc : [0; 2] ∈ FloatEmbeddings.clusters_of Binary64.norm Binary64.eq_zero
             Binary64.tiny PrimFloat.div Binary64.dot Binary64.ge Binary64.rows
             ["a"; "c"; "a"] (3 / 4)%float).
  { replace (FloatEmbeddings.clusters_of Binary64.norm Binary64.eq_zero
             Binary64.tiny PrimFloat.div Binary64.dot Binary64.ge Binary64.rows
             ["a"; "c"; "a"] (3 / 4)%float) with [[0; 2]; [1]]
      by (symmetry; apply binary64_clusters).
    by left. }
  assert (Hi : 0 ∈ [0; 2]) by (by left).
  split; [exact binary64_rows_length|]. split; [exact H0|]. split; [exact H2|].
  split; [exact Hself|]. split; [exact Hc|]. split; [exact Hi|].
  exact (equal_embeddings_share_cluster Binary64.norm Binary64.eq_zero Binary64.tiny
           PrimFloat.div Binary64.dot Binary64.ge Binary64.rows binary64_rows_length
           ["a"; "c"; "a"] (3 / 4)%float 0 2 [1; 0]%float [0; 2] H0 H2 Hself Hc Hi).
Defined.

(** In binary64 the cosine of a row with itself can fall short of 1: two
    mentions with the embedding (0, 1, 1) are kept apart at the threshold
    1. *)
Example binary64_self_cosine :
  FloatEmbeddings.cos_ge Binary64.dot Binary64.ge
    (FloatEmbeddings.embs_norm Binary64.norm Binary64.eq_zero Binary64.tiny
       PrimFloat.div (map (fun _ => [0; 1; 1]%float)) ["x"; "y"]) 1%float 0 0 = false ∧
  FloatEmbeddings.clusters_of Binary64.norm Binary64.eq_zero Binary64.tiny
    PrimFloat.div Binary64.dot Binary64.ge (map (fun _ => [0; 1; 1]%float))
    ["x"; "y"] 1%float = [[0]; [1]].
Proof. split; vm_compute; reflexivity. Qed.

End FloatExamples.

Section FloatDedup.
Local Open Scope nat_scope.
Context {F P : Type}.
Context (norm : list F → F) (eq_zero : F → bool) (tiny : F) (div : F → F → F).
Context (dot : list F → list F → P) (ge : P → P → bool).
Context (encode : list string → list (list F)).
Hypothesis encode_length : ∀ texts, length (encode texts) = length texts.

Lemma float_dedup_returns texts t :
  ∃ reps,
    returned (FloatEmbeddings.deduplicate_entities norm eq_zero tiny div dot ge
                encode texts t) = Some reps ∧
    Forall2 (fun c r => representative texts c = Some r)
            (FloatEmbeddings.clusters_of norm eq_zero tiny div dot ge encode texts t)
            reps.
Proof.
  rewrite (float_returned_clusters norm eq_zero tiny div dot ge encode encode_length).
  destruct (mapM_is_Some_2 (representative texts)
              (FloatEmbeddings.clusters_of norm eq_zero tiny div dot ge encode texts t))
    as [reps Hreps].
  { eapply Forall_impl;
      [apply (float_clusters_seeded norm eq_zero tiny div dot ge encode encode_length)|].
    intros c. apply representative_is_Some. }
  exists reps. split; [done|]. by apply mapM_Some_1.
Qed.

(** X14: the clusters and the representatives, whatever the arithmetic.
    For every number format the clusters are seeds followed by later
    indices that pass the test against the seed, no member of a later
    cluster passes the test against an earlier seed, and the clusters
    partition the indices; the call returns one representative per
    cluster, in the order of the clusters: a mention of the cluster of
    greatest length, the first of them in input order; for a non-empty
    input there is at least one and at most one per mention. *)
Theorem float_clusters_and_representatives texts t :
  Forall (seeded (length texts)
            (FloatEmbeddings.cos_ge dot ge
               (FloatEmbeddings.embs_norm norm eq_zero tiny div encode texts) t))
         (FloatEmbeddings.clusters_of norm eq_zero tiny div dot ge encode texts t) ∧
  StronglySorted
    (precedes (FloatEmbeddings.cos_ge dot ge
                 (FloatEmbeddings.embs_norm norm eq_zero tiny div encode texts) t))
    (FloatEmbeddings.clusters_of norm eq_zero tiny div dot ge encode texts t) ∧
  concat (FloatEmbeddings.clusters_of norm eq_zero tiny div dot ge encode texts t)
    ≡ₚ seq 0 (length texts) ∧
  ∃ reps,
    returned (FloatEmbeddings.deduplicate_entities norm eq_zero tiny div dot ge
                encode texts t) = Some reps ∧
    Forall2 (first_longest texts)
            (FloatEmbeddings.clusters_of norm eq_zero tiny div dot ge encode texts t)
            reps ∧
    Forall (fun r => r ∈ texts) reps ∧
    (texts ≠ [] → 1 ≤ length reps ≤ length texts).
Proof.
  pose proof (float_clusters_seeded norm eq_zero tiny div dot ge encode encode_length
                texts t) as Hseed.
  assert (Hpart : concat (FloatEmbeddings.clusters_of norm eq_zero tiny div dot ge
                            encode texts t) ≡ₚ seq 0 (length texts)).
  { unfold FloatEmbeddings.clusters_of.
    rewrite <- (float_length_embs_norm norm eq_zero tiny div encode encode_length texts).
    apply greedy_clusters_partition. }
  split; [exact Hseed|]. split; [|split; [exact Hpart|]].
  - unfold FloatEmbeddings.clusters_of. apply greedy_clusters_precedes.
  - destruct (float_dedup_returns texts t) as (reps & Hret & Hreps).
    exists reps. split; [done|]. split; [|split].
    + eapply Forall2_impl.
      * apply (Forall2_Forall_l _ _ _ _ Hseed Hreps).
      * intros c r [(i & rest & -> & _ & Hs & _) Hr]. cbn in Hr.
        by apply representative_first_longest.
    + apply Forall_forall. intros r [k Hk]%list_elem_of_lookup_1.
      destruct (Forall2_lookup_r _ _ _ _ _ Hreps Hk) as (c & _ & Hc).
      by eapply representative_elem_of.
    + intros Hne. rewrite <- (Forall2_length _ _ _ Hreps).
      pose proof (Permutation_length Hpart) as Hlen. rewrite length_seq in Hlen.
      split.
      * destruct (FloatEmbeddings.clusters_of _ _ _ _ _ _ _ _ _) as [|c cs]; [|cbn; lia].
        cbn in Hlen. destruct texts; [done|]. cbn in Hlen. lia.
      * rewrite <- Hlen. apply length_concat_nonempty.
        eapply Forall_impl; [exact Hseed|].
        by intros c (i & rest & -> & _).
Qed.

(** X15: a second pass, whatever the arithmetic.  A second pass over the
    representatives of a first pass returns, and what it returns is a
    subset of those representatives; it is the very same list when no
    later representative passes the test against an earlier one. *)
Theorem float_second_pass_subset texts t r1 :
  returned (FloatEmbeddings.deduplicate_entities norm eq_zero tiny div dot ge
              encode texts t) = Some r1 →
  ∃ r2, returned (FloatEmbeddings.deduplicate_entities norm eq_zero tiny div dot ge
                    encode r1 t) = Some r2 ∧
        Forall (fun s => s ∈ r1) r2 ∧
        ((∀ i j, i < j < length r1 →
                 FloatEmbeddings.cos_ge dot ge
                   (FloatEmbeddings.embs_norm norm eq_zero tiny div encode r1) t i j
                 = false) →
         r2 = r1).
Proof.
  intros _.
  destruct (float_dedup_returns r1 t) as (r2 & Hret & Hreps).
  exists r2. split; [done|]. split.
  - apply Forall_forall. intros r [k Hk]%list_elem_of_lookup_1.
    destruct (Forall2_lookup_r _ _ _ _ _ Hreps Hk) as (c & _ & Hc).
    by eapply representative_elem_of.
  - intros Hd. rewrite (float_returned_clusters norm eq_zero tiny div dot ge encode encode_length) in Hret.
    assert (Hcs : FloatEmbeddings.clusters_of norm eq_zero tiny div dot ge encode r1 t
                  = map (fun i => [i]) (seq 0 (length r1))).
    { unfold FloatEmbeddings.clusters_of.
      rewrite (float_length_embs_norm norm eq_zero tiny div encode encode_length),
        greedy_clusters_from.
      rewrite greedy_from_dissimilar.
      - by rewrite (filter_unvisited_empty _ ∅).
      - apply StronglySorted_lt_seq.
      - intros i j _ Hj%elem_of_seq Hij. apply Hd. lia. }
    rewrite Hcs in Hret.
    assert (Hall : mapM (representative r1) (map (fun i => [i]) (seq 0 (length r1)))
                   = Some r1).
    { apply mapM_Some_2, Forall2_fmap_l, Forall2_same_length_lookup_2.
      - by rewrite length_seq.
      - intros i x y [-> _]%lookup_seq Hy. cbn.
        unfold representative. cbn. rewrite Hy. done. }
    congruence.
Qed.

End FloatDedup.

Section FloatDedupExamples.
Local Open Scope nat_scope.

Lemma float_clusters_and_representatives_example :
  (∀ texts, length (Binary64.rows texts) = length texts) ∧
  concat (FloatEmbeddings.clusters_of Binary64.norm Binary64.eq_zero Binary64.tiny
            PrimFloat.div Binary64.dot Binary64.ge Binary64.rows ["a"; "bb"; "c"]
            (3 / 4)%float) ≡ₚ seq 0 3 ∧
  ∃ reps,
    returned (FloatEmbeddings.deduplicate_entities Binary64.norm Binary64.eq_zero
                Binary64.tiny PrimFloat.div Binary64.dot Binary64.ge Binary64.rows
                ["a"; "bb"; "c"] (3 / 4)%float) = Some reps ∧
    Forall2 (first_longest ["a"; "bb"; "c"])
            (FloatEmbeddings.clusters_of Binary64.norm Binary64.eq_zero Binary64.tiny
               PrimFloat.div Binary64.dot Binary64.ge Binary64.rows ["a"; "bb"; "c"]
               (3 / 4)%float) reps ∧
    Forall (fun r => r ∈ ["a"; "bb"; "c"]) reps ∧
    (["a"; "bb"; "c"] ≠ [] → 1 ≤ length reps ≤ 3).
Proof.
  split; [exact binary64_rows_length|].
  exact (proj2 (proj2 (float_clusters_and_representatives Binary64.norm Binary64.eq_zero
           Binary64.tiny PrimFloat.div Binary64.dot Binary64.ge Binary64.rows
           binary64_rows_length ["a"; "bb"; "c"] (3 / 4)%float))).
Defined.

(** In binary64 too the second pass over "bb", "c" keeps "bb" only. *)
Lemma float_second_pass_subset_example :
  (∀ texts, length (Binary64.rows texts) = length texts) ∧
  returned (FloatEmbeddings.deduplicate_entities Binary64.norm Binary64.eq_zero
              Binary64.tiny PrimFloat.div Binary64.dot Binary64.ge Binary64.rows
              ["a"; "bb"; "c"] (3 / 4)%float) = Some ["bb"; "c"] ∧
  returned (FloatEmbeddings.deduplicate_entities Binary64.norm Binary64.eq_zero
              Binary64.tiny PrimFloat.div Binary64.dot Binary64.ge Binary64.rows
              ["bb"; "c"] (3 / 4)%float) = Some ["bb"] ∧
  ∃ r2, returned (FloatEmbeddings.deduplicate_entities Binary64.norm Binary64.eq_zero
                    Binary64.tiny PrimFloat.div Binary64.dot Binary64.ge Binary64.rows
                    ["bb"; "c"] (3 / 4)%float) = Some r2 ∧
        Forall (fun s => s ∈ ["bb"; "c"]) r2.
Proof.
  assert (H1 : returned (FloatEmbeddings.deduplicate_entities Binary64.norm
              Binary64.eq_zero Binary64.tiny PrimFloat.div Binary64.dot Binary64.ge
              Binary64.rows ["a"; "bb"; "c"] (3 / 4)%float) = Some ["bb"; "c"])
    by (vm_compute; reflexivity).
  split; [exact binary64_rows_length|]. split; [exact H1|].
  split; [vm_compute; reflexivity|].
  destruct (float_second_pass_subset Binary64.norm Binary64.eq_zero Binary64.tiny
              PrimFloat.div Binary64.dot Binary64.ge Binary64.rows binary64_rows_length
              ["a"; "bb"; "c"] (3 / 4)%float ["bb"; "c"] H1) as (r2 & Hr2 & Hsub & _).
  exists r2. split; [exact Hr2 | exact Hsub].
Defined.

End FloatDedupExamples.


(** ** src/preprocess.py: cleaned text and sentences *)

Import Preprocess.

Section CleanText.
Local Open Scope nat_scope.

Lemma lstrip_split s : ∃ ws, s = ws ++ lstrip s ∧ forallb isspace ws = true.
Proof.
  induction s as [|c s (ws & Hs & Hws)]; [by exists []|]. cbn [lstrip].
  destruct (isspace c) eqn:Hc.
  - exists (c :: ws). cbn. rewrite Hc, Hws. split; [by f_equal | done].
  - by exists [].
Qed.

Lemma lstrip_head s c : head (lstrip s) = Some c → isspace c = false.
Proof.
  induction s as [|a s IH]; [done|]. cbn [lstrip].
  destruct (isspace a) eqn:Ha; [done|]. cbn. by intros [= <-].
Qed.

Lemma lstrip_id s :
  (∀ c, head s = Some c → isspace c = false) → lstrip s = s.
Proof. destruct s as [|a s]; [done|]. cbn. intros H. by rewrite (H a). Qed.

Lemma rstrip_split s : ∃ ws, s = rstrip s ++ ws ∧ forallb isspace ws = true.
Proof.
  unfold rstrip. destruct (lstrip_split (rev s)) as (ws & Hs & Hws).
  exists (rev ws). split.
  - rewrite <- rev_app_distr, <- Hs. by rewrite rev_involutive.
  - rewrite forallb_forall in *. intros c Hc. apply Hws. by apply in_rev.
Qed.

Lemma head_rev {A} (l : list A) : head (rev l) = last l.
Proof.
  induction l as [|a l IH] using rev_ind; [done|].
  by rewrite rev_app_distr, last_snoc.
Qed.

Lemma last_rev {A} (l : list A) : last (rev l) = head l.
Proof. by rewrite <- head_rev, rev_involutive. Qed.

Lemma rstrip_last s c : last (rstrip s) = Some c → isspace c = false.
Proof. unfold rstrip. rewrite last_rev. apply lstrip_head. Qed.

Lemma rstrip_id s :
  (∀ c, last s = Some c → isspace c = false) → rstrip s = s.
Proof.
  intros H. unfold rstrip. rewrite lstrip_id; [apply rev_involutive|].
  intros c. rewrite head_rev. apply H.
Qed.

Lemma head_app_Some {A} (l k : list A) c : head l = Some c → head (l ++ k) = Some c.
Proof. by destruct l. Qed.

(** What [strip] removes and what it leaves. *)
Lemma strip_split s :
  ∃ ws1 ws2, s = ws1 ++ strip s ++ ws2 ∧
             forallb isspace ws1 = true ∧ forallb isspace ws2 = true.
Proof.
  unfold strip. destruct (lstrip_split s) as (ws1 & Hs & H1).
  destruct (rstrip_split (lstrip s)) as (ws2 & Hl & H2).
  exists ws1, ws2. split; [|done]. by rewrite <- Hl.
Qed.

Lemma strip_head s c : head (strip s) = Some c → isspace c = false.
Proof.
  unfold strip. intros Hh. apply (lstrip_head s).
  destruct (rstrip_split (lstrip s)) as (ws & Hs & _).
  rewrite Hs. by apply head_app_Some.
Qed.

Lemma strip_last s c : last (strip s) = Some c → isspace c = false.
Proof. apply rstrip_last. Qed.

Lemma strip_id s :
  (∀ c, head s = Some c → isspace c = false) →
  (∀ c, last s = Some c → isspace c = false) → strip s = s.
Proof. intros Hh Hl. unfold strip. rewrite lstrip_id by done. by apply rstrip_id. Qed.

Lemma strip_strip s : strip (strip s) = strip s.
Proof. apply strip_id; [apply strip_head | apply strip_last]. Qed.

End CleanText.

Section CleanTidy.
Local Open Scope nat_scope.

Lemma short_newline_runs_mono s : ∀ k k',
  k' ≤ k → short_newline_runs k s = true → short_newline_runs k' s = true.
Proof.
  induction s as [|c s IH]; intros k k' Hk; [done|]. cbn [short_newline_runs].
  destruct (Ascii.eqb c LF); [|done].
  intros [Hlt Hs]%andb_true_iff. apply andb_true_iff. split.
  - apply Nat.ltb_lt in Hlt. apply Nat.ltb_lt. lia.
  - apply (IH (S k)); [lia | done].
Qed.

Lemma short_newline_runs_app_l l1 l2 : ∀ k,
  short_newline_runs k (l1 ++ l2) = true → short_newline_runs k l1 = true.
Proof.
  induction l1 as [|c l1 IH]; intros k; [done|].
  cbn [app short_newline_runs].
  destruct (Ascii.eqb c LF); [|apply IH].
  intros [Hlt Hs]%andb_true_iff. apply andb_true_iff. split; [done | by apply IH].
Qed.

Lemma short_newline_runs_app_r l1 l2 : ∀ k,
  short_newline_runs k (l1 ++ l2) = true → short_newline_runs 0 l2 = true.
Proof.
  induction l1 as [|c l1 IH]; intros k; cbn [app short_newline_runs].
  - apply short_newline_runs_mono. lia.
  - destruct (Ascii.eqb c LF); [|apply IH].
    intros [_ Hs]%andb_true_iff. by eapply IH.
Qed.

Lemma single_spaces_weaken s b : single_spaces b s = true → single_spaces false s = true.
Proof.
  destruct s as [|c s]; [done|]. cbn. destruct (Ascii.eqb c SP); [|done].
  intros [_ ?]%andb_true_iff. done.
Qed.

Lemma single_spaces_app_l l1 l2 : ∀ b,
  single_spaces b (l1 ++ l2) = true → single_spaces b l1 = true.
Proof.
  induction l1 as [|c l1 IH]; intros b; [done|]. cbn.
  destruct (Ascii.eqb c SP); [|apply IH].
  intros [Hb Hs]%andb_true_iff. apply andb_true_iff. split; [done | by apply IH].
Qed.

Lemma single_spaces_app_r l1 l2 : ∀ b,
  single_spaces b (l1 ++ l2) = true → single_spaces false l2 = true.
Proof.
  induction l1 as [|c l1 IH]; intros b; cbn.
  - apply single_spaces_weaken.
  - destruct (Ascii.eqb c SP); [|apply IH].
    intros [_ Hs]%andb_true_iff. by eapply IH.
Qed.

(** Line 35 leaves no run of more than two newlines. *)
Lemma squeeze_newlines_short s : ∀ k,
  short_newline_runs (Nat.min k 2) (squeeze_newlines k s) = true.
Proof.
  induction s as [|c s IH]; intros k; [done|]. cbn [squeeze_newlines].
  destruct (Ascii.eqb c LF) eqn:Hc.
  - destruct (k <? 2) eqn:Hk.
    + apply Nat.ltb_lt in Hk. cbn [short_newline_runs]. rewrite Hc.
      apply andb_true_iff. split; [apply Nat.ltb_lt; lia|].
      replace (Nat.min k 2) with k by lia.
      specialize (IH (S k)). by replace (Nat.min (S k) 2) with (S k) in IH by lia.
    + apply Nat.ltb_ge in Hk. specialize (IH (S k)).
      replace (Nat.min (S k) 2) with 2 in IH by lia.
      by replace (Nat.min k 2) with 2 by lia.
  - cbn [short_newline_runs]. rewrite Hc. apply (IH 0).
Qed.

Lemma squeeze_newlines_id s : ∀ k,
  short_newline_runs k s = true → squeeze_newlines k s = s.
Proof.
  induction s as [|c s IH]; intros k; [done|].
  cbn [squeeze_newlines short_newline_runs].
  destruct (Ascii.eqb c LF).
  - intros [Hk Hs]%andb_true_iff. rewrite Hk. f_equal. by apply IH.
  - intros Hs. f_equal. by apply IH.
Qed.

Lemma squeeze_newlines_Forall (Q : ascii → Prop) s : ∀ k,
  Forall Q s → Forall Q (squeeze_newlines k s).
Proof.
  induction s as [|c s IH]; intros k Hs; [done|].
  apply Forall_cons in Hs as [Hc Hs]. cbn [squeeze_newlines].
  destruct (Ascii.eqb c LF); [destruct (k <? 2)|]; try constructor; auto.
Qed.

(** Replacing runs of a class that has no newline in it keeps the runs of
    newlines short. *)
Lemma blank_runs_short P s : ∀ b k,
  P LF = false → (b = true → k = 0) →
  short_newline_runs k s = true → short_newline_runs k (blank_runs P b s) = true.
Proof.
  intros b k HP. revert b k.
  induction s as [|c s IH]; intros b k Hb; [done|]. cbn [blank_runs short_newline_runs].
  destruct (P c) eqn:Hc.
  - assert (Hne : Ascii.eqb c LF = false).
    { destruct (Ascii.eqb c LF) eqn:He; [|done].
      apply Ascii.eqb_eq in He. subst c. congruence. }
    rewrite Hne. intros Hs. destruct b.
    + rewrite (Hb eq_refl). by apply IH.
    + cbn [short_newline_runs]. change (Ascii.eqb SP LF) with false. by apply IH.
  - cbn [short_newline_runs]. destruct (Ascii.eqb c LF).
    + intros [Hk Hs]%andb_true_iff. rewrite Hk. cbn [andb]. by apply IH.
    + intros Hs. by apply IH.
Qed.

Lemma blank_runs_Forall P (Q R : ascii → Prop) s : ∀ b,
  R SP → (∀ c, P c = false → Q c → R c) →
  Forall Q s → Forall R (blank_runs P b s).
Proof.
  intros b HSP HR. revert b. induction s as [|c s IH]; intros b Hs; [done|].
  apply Forall_cons in Hs as [Hc Hs]. cbn.
  destruct (P c) eqn:HPc; [destruct b|]; try constructor; auto.
Qed.

Lemma blank_runs_id P s : ∀ b,
  Forall (fun c => P c = false) s → blank_runs P b s = s.
Proof.
  induction s as [|c s IH]; intros b Hs; [done|].
  apply Forall_cons in Hs as [Hc Hs]. cbn. rewrite Hc. f_equal. by apply IH.
Qed.

(** Line 38 leaves no two spaces side by side. *)
Lemma blank_runs_single_spaces s : ∀ b,
  single_spaces b (blank_runs space_or_tab b s) = true.
Proof.
  induction s as [|c s IH]; intros b; [done|]. cbn [blank_runs].
  destruct (space_or_tab c) eqn:Hc.
  - destruct b; [apply IH|]. cbn [single_spaces].
    change (Ascii.eqb SP SP) with true. cbn. apply IH.
  - cbn [single_spaces]. unfold space_or_tab in Hc.
    apply orb_false_iff in Hc as [Hc _]. rewrite Hc. apply IH.
Qed.

Lemma blank_runs_spaces_id s : ∀ b,
  single_spaces b s = true → Forall (fun c => Ascii.eqb c TAB = false) s →
  blank_runs space_or_tab b s = s.
Proof.
  induction s as [|c s IH]; intros b Hss Hs; [done|].
  apply Forall_cons in Hs as [Hc Hs]. cbn in *. unfold space_or_tab.
  rewrite Hc, orb_false_r. destruct (Ascii.eqb c SP) eqn:Hsp.
  - apply andb_true_iff in Hss as [Hb Hss]. destruct b; [done|].
    apply Ascii.eqb_eq in Hsp as ->. f_equal. by apply IH.
  - f_equal. by apply IH.
Qed.

Lemma allowed_iff c :
  allowed c = negb (unprintable c) && negb (Ascii.eqb c CR) && negb (Ascii.eqb c TAB).
Proof. destruct c as [[] [] [] [] [] [] [] []]; reflexivity. Qed.

Lemma allowed_range c : allowed c = true → c = LF ∨ 32 ≤ nat_of_ascii c ≤ 126.
Proof.
  destruct c as [[] [] [] [] [] [] [] []]; intros H; vm_compute in H;
    first [ discriminate H | left; reflexivity | right; vm_compute; lia ].
Qed.

Lemma is_end_not_space c : is_end c = true → isspace c = false.
Proof.
  destruct c as [[] [] [] [] [] [] [] []]; intros H; vm_compute in H;
    first [ discriminate H | reflexivity ].
Qed.

Lemma forallb_Forall {A} (f : A → bool) l :
  forallb f l = true ↔ Forall (fun x => f x = true) l.
Proof.
  induction l as [|x l IH]; cbn; [by split|].
  rewrite andb_true_iff, Forall_cons, IH. done.
Qed.

Lemma replace_cr_no_cr s : Forall (fun c => Ascii.eqb c CR = false) (replace_cr s).
Proof.
  unfold replace_cr. induction s as [|c s IH]; cbn; constructor; [|done].
  by destruct (Ascii.eqb c CR) eqn:Hc.
Qed.

Lemma replace_cr_id s :
  Forall (fun c => Ascii.eqb c CR = false) s → replace_cr s = s.
Proof.
  unfold replace_cr. induction 1 as [|c s Hc _ IH]; [done|]. cbn.
  by rewrite Hc, IH.
Qed.

(** The four properties of a cleaned text, together. *)
Lemma clean_chars_tidy s : tidy (clean_chars s) = true.
Proof.
  unfold clean_chars.
  set (s2 := squeeze_newlines 0 (replace_cr s)).
  set (s3 := blank_runs unprintable false s2).
  set (s4 := blank_runs space_or_tab false s3).
  assert (H2 : Forall (fun c => Ascii.eqb c CR = false) s2).
  { apply squeeze_newlines_Forall, replace_cr_no_cr. }
  assert (N2 : short_newline_runs 0 s2 = true).
  { apply (squeeze_newlines_short (replace_cr s) 0). }
  assert (H3 : Forall (fun c => unprintable c = false ∧ Ascii.eqb c CR = false) s3).
  { eapply blank_runs_Forall; [| |exact H2]; [done|]. by intros c ? ?. }
  assert (N3 : short_newline_runs 0 s3 = true).
  { apply blank_runs_short; [done | done | exact N2]. }
  assert (H4 : Forall (fun c => allowed c = true) s4).
  { eapply blank_runs_Forall; [| |exact H3]; [done|].
    intros c Hc [Hu Hr]. unfold space_or_tab in Hc.
    apply orb_false_iff in Hc as [_ Ht]. by rewrite allowed_iff, Hu, Hr, Ht. }
  assert (N4 : short_newline_runs 0 s4 = true).
  { apply blank_runs_short; [done | done | exact N3]. }
  assert (S4 : single_spaces false s4 = true) by apply blank_runs_single_spaces.
  destruct (strip_split s4) as (ws1 & ws2 & Hs4 & _ & _).
  unfold tidy. rewrite !andb_true_iff. split; [split; [split|]|].
  - apply forallb_Forall. rewrite Hs4 in H4.
    apply Forall_app in H4 as [_ H4]. by apply Forall_app in H4 as [H4 _].
  - rewrite Hs4 in N4. apply short_newline_runs_app_r in N4.
    by apply short_newline_runs_app_l in N4.
  - rewrite Hs4 in S4. apply single_spaces_app_r in S4.
    by apply single_spaces_app_l in S4.
  - unfold no_outer_space.
    destruct (head (strip s4)) as [a|] eqn:Ha; [|done].
    destruct (last (strip s4)) as [z|] eqn:Hz; [|done].
    by rewrite (strip_head s4 a Ha), (strip_last s4 z Hz).
Qed.

(** A tidy text is left as it is. *)
Lemma clean_chars_id s : tidy s = true → clean_chars s = s.
Proof.
  unfold tidy. rewrite !andb_true_iff. intros [[[Ha Hn] Hs] Ho].
  apply forallb_Forall in Ha.
  assert (Hparts : Forall (fun c => unprintable c = false ∧ Ascii.eqb c CR = false ∧
                                    Ascii.eqb c TAB = false) s).
  { eapply Forall_impl; [exact Ha|]. intros c Hc. cbv beta in Hc.
    rewrite allowed_iff in Hc.
    apply andb_true_iff in Hc as [[Hu Hr]%andb_true_iff Ht].
    by destruct (unprintable c), (Ascii.eqb c CR), (Ascii.eqb c TAB). }
  unfold clean_chars.
  rewrite replace_cr_id by (eapply Forall_impl; [exact Hparts|]; by intros c (_ & ? & _)).
  rewrite squeeze_newlines_id by done.
  rewrite (blank_runs_id unprintable)
    by (eapply Forall_impl; [exact Hparts|]; by intros c (? & _)).
  rewrite blank_runs_spaces_id;
    [|done|eapply Forall_impl; [exact Hparts|]; by intros c (_ & _ & ?)].
  unfold no_outer_space in Ho.
  destruct s as [|a s']; [done|].
  destruct (last (a :: s')) as [z|] eqn:Hz; [|by apply last_None in Hz].
  cbn [head] in Ho. apply andb_true_iff in Ho as [Ho1 Ho2].
  apply strip_id.
  - intros c [= <-]. by destruct (isspace a).
  - intros c Hc. rewrite Hz in Hc. injection Hc as <-. by destruct (isspace z).
Qed.

Lemma single_spaces_read s : ∀ b i,
  single_spaces b s = true → s !! i = Some SP → s !! S i = Some SP → False.
Proof.
  induction s as [|c s IH]; intros b i Hs; [done|].
  destruct i as [|i]; cbn.
  - intros [= ->] Hn. destruct s as [|d s]; [done|]. cbn in Hn. injection Hn as ->.
    cbn in Hs. change (Ascii.eqb SP SP) with true in Hs. cbn in Hs.
    by rewrite andb_false_r in Hs.
  - cbn in Hs. destruct (Ascii.eqb c SP).
    + apply andb_true_iff in Hs as [_ Hs]. by apply (IH true i).
    + by apply (IH false i).
Qed.

Lemma short_newline_runs_read s : ∀ k i,
  short_newline_runs k s = true →
  s !! i = Some LF → s !! S i = Some LF → s !! S (S i) = Some LF → False.
Proof.
  induction s as [|c s IH]; intros k i Hs; [done|].
  destruct i as [|i]; cbn [lookup list_lookup].
  - intros [= ->] H1 H2.
    destruct s as [|d [|e s]]; try done. cbn in H1, H2.
    injection H1 as ->. injection H2 as ->.
    cbn [short_newline_runs] in Hs. change (Ascii.eqb LF LF) with true in Hs.
    cbn match in Hs.
    apply andb_true_iff in Hs as [_ [_ [Hs _]%andb_true_iff]%andb_true_iff].
    apply Nat.ltb_lt in Hs. lia.
  - cbn [short_newline_runs] in Hs. destruct (Ascii.eqb c LF).
    + apply andb_true_iff in Hs as [_ Hs]. by apply (IH (S k) i).
    + by apply (IH 0 i).
Qed.

Lemma no_outer_space_read s :
  no_outer_space s = true →
  (∀ c, head s = Some c → isspace c = false) ∧
  (∀ c, last s = Some c → isspace c = false).
Proof.
  unfold no_outer_space. destruct s as [|a s']; [done|].
  destruct (last (a :: s')) as [z|] eqn:Hz; [|by apply last_None in Hz].
  cbn [head]. intros [Ha Hb]%andb_true_iff. split.
  - intros c [= <-]. by destruct (isspace a).
  - intros c [= <-]. by destruct (isspace z).
Qed.

(** X18: a cleaned text holds only newlines and the printable characters
    from space to "~"; it has no two spaces side by side, no three
    newlines in a row, and no whitespace at its start or at its end. *)
Theorem clean_text_tidy text :
  Forall (fun c => c = LF ∨ 32 ≤ nat_of_ascii c ≤ 126)
         (list_ascii_of_string (clean_text text)) ∧
  (∀ i, ¬ (list_ascii_of_string (clean_text text) !! i = Some SP ∧
           list_ascii_of_string (clean_text text) !! S i = Some SP)) ∧
  (∀ i, ¬ (list_ascii_of_string (clean_text text) !! i = Some LF ∧
           list_ascii_of_string (clean_text text) !! S i = Some LF ∧
           list_ascii_of_string (clean_text text) !! S (S i) = Some LF)) ∧
  (∀ c, head (list_ascii_of_string (clean_text text)) = Some c → isspace c = false) ∧
  (∀ c, last (list_ascii_of_string (clean_text text)) = Some c → isspace c = false).
Proof.
  unfold clean_text. rewrite list_ascii_of_string_of_list_ascii.
  pose proof (clean_chars_tidy (list_ascii_of_string text)) as Ht.
  set (out := clean_chars (list_ascii_of_string text)) in *.
  unfold tidy in Ht. rewrite !andb_true_iff in Ht.
  destruct Ht as [[[Ha Hn] Hs] Ho]. apply forallb_Forall in Ha.
  split; [|split; [|split; [|split]]].
  - eapply Forall_impl; [exact Ha|]. intros c. apply allowed_range.
  - intros i [H1 H2]. exact (single_spaces_read out false i Hs H1 H2).
  - intros i (H1 & H2 & H3). exact (short_newline_runs_read out 0 i Hn H1 H2 H3).
  - apply (no_outer_space_read out Ho).
  - apply (no_outer_space_read out Ho).
Qed.

(** X19: cleaning a cleaned text changes nothing. *)
Theorem clean_text_idempotent text : clean_text (clean_text text) = clean_text text.
Proof.
  unfold clean_text. rewrite list_ascii_of_string_of_list_ascii.
  by rewrite (clean_chars_id _ (clean_chars_tidy _)).
Qed.

(** X20: a text that is tidy already (only newlines and printable
    characters, single spaces, at most two newlines in a row, no
    whitespace at either end) is returned as it is. *)
Theorem clean_text_fixes_tidy text :
  tidy (list_ascii_of_string text) = true → clean_text text = text.
Proof.
  intros Ht. unfold clean_text. rewrite (clean_chars_id _ Ht).
  apply string_of_list_ascii_of_string.
Qed.

(** The statement above at a text of two lines. *)
Lemma clean_text_fixes_tidy_example :
  tidy (list_ascii_of_string (String.append "Ada met Bob." (String LF "They talked.")))
    = true ∧
  clean_text (String.append "Ada met Bob." (String LF "They talked."))
    = String.append "Ada met Bob." (String LF "They talked.").
Proof.
  assert (Ht : tidy (list_ascii_of_string
                       (String.append "Ada met Bob." (String LF "They talked."))) = true)
    by reflexivity.
  split; [exact Ht|].
  exact (clean_text_fixes_tidy _ Ht).
Defined.

End CleanTidy.

Section Sentences.
Local Open Scope nat_scope.

Lemma keep_long_spec sents :
  Forall (fun s => 3 < length s ∧ strip s = s) (keep_long sents).
Proof.
  unfold keep_long. induction sents as [|s sents IH]; [constructor|].
  cbn [List.filter]. destruct (3 <? length (strip s)) eqn:Hlen; [|done].
  cbn [map]. constructor; [|done]. split.
  - by apply Nat.ltb_lt.
  - apply strip_strip.
Qed.

(** X21: every sentence [split_sentences] returns is longer than three
    characters and has no whitespace at its start or end, whatever the
    tokenizer gave; the only way not to return is an exception of the
    first tokenizer call that is not a LookupError. *)
Theorem split_sentences_long_stripped available first again text :
  match split_sentences available first again text with
  | Some sents => Forall (fun s => 3 < length s ∧ strip s = s) sents
  | None => available = true ∧ first = RaisesOther
  end.
Proof.
  unfold split_sentences, tokenize.
  destruct available; [destruct first; [|destruct again|]|]; cbn;
    try apply keep_long_spec; done.
Qed.

(** A piece that ends in ".", "?" or "!". *)
Lemma ends_sentence_not_blank p c :
  last p = Some c → is_end c = true → strip p ≠ [].
Proof.
  intros Hl Hc Hs. destruct (strip_split p) as (ws1 & ws2 & Hp & H1 & H2).
  rewrite Hs in Hp. cbn in Hp.
  assert (Hall : forallb isspace p = true).
  { rewrite Hp, forallb_app, H1, H2. done. }
  apply forallb_Forall in Hall.
  assert (Hin : c ∈ p).
  { apply last_Some in Hl as [p' ->]. apply elem_of_app. right. by left. }
  eapply Forall_forall in Hall; [|exact Hin]. cbv beta in Hall.
  by rewrite (is_end_not_space c Hc) in Hall.
Qed.

Lemma split_pieces_ends s : ∀ cur after_end skipping,
  (after_end = true → ∃ c, last cur = Some c ∧ is_end c = true) →
  ∃ front final,
    split_pieces cur after_end skipping s = front ++ [final] ∧
    Forall (fun p => ∃ c, last p = Some c ∧ is_end c = true) front.
Proof.
  induction s as [|c s IH]; intros cur ae sk Hinv.
  - exists [], cur. by split.
  - cbn [split_pieces]. destruct (isspace c) eqn:Hsp.
    + destruct sk.
      * apply IH. done.
      * destruct ae.
        -- destruct (IH [] false true) as (front & final & Heq & Hf); [done|].
           exists (cur :: front), final. rewrite Heq. split; [done|].
           constructor; [by apply Hinv | done].
        -- apply IH. done.
    + apply IH. intros Hc. exists c. by rewrite last_snoc.
Qed.

(** X22: the fallback splitter returns no blank piece, and every piece but
    the last ends in ".", "?" or "!". *)
Theorem simple_sent_split_pieces text :
  Forall (fun p => strip p ≠ []) (_simple_sent_split text) ∧
  ∀ i p, _simple_sent_split text !! i = Some p →
         S i < length (_simple_sent_split text) →
         ∃ c, last p = Some c ∧ is_end c = true.
Proof.
  unfold _simple_sent_split. split.
  - apply Forall_forall. intros p Hp%list_elem_of_In%filter_In.
    destruct Hp as [_ Hp]. intros Hnil. by rewrite Hnil in Hp.
  - destruct (split_pieces_ends text [] false false) as (front & final & -> & Hf);
      [done|].
    rewrite List.filter_app.
    assert (Hkeep : List.filter (fun p => negb (length (strip p) =? 0)) front = front).
    { clear -Hf. induction Hf as [|p front (c & Hl & Hc) _ IH]; [done|].
      cbn. rewrite IH.
      pose proof (ends_sentence_not_blank p c Hl Hc) as Hne.
      destruct (strip p); [done | done]. }
    rewrite Hkeep. intros i p Hi Hlen.
    assert (Hlt : i < length front).
    { rewrite length_app in Hlen. cbn [List.filter] in Hlen.
      destruct (negb _) in Hlen; cbn in Hlen; lia. }
    rewrite lookup_app_l in Hi by done.
    eapply Forall_forall in Hf; [exact Hf|]. by eapply list_elem_of_lookup_2.
Qed.

End Sentences.

(** ** src/graph_image.py: labels and colours *)

Section LabelsAndColours.
Import GraphImage.
Local Open Scope nat_scope.

Lemma string_length_append s1 s2 :
  String.length (String.append s1 s2) = String.length s1 + String.length s2.
Proof.
  induction s1 as [|c s1 IH]; [done|].
  change (String.append (String c s1) s2) with (String c (String.append s1 s2)).
  cbn [String.length]. by rewrite IH.
Qed.

Lemma string_length_substring s : ∀ m,
  String.length (String.substring 0 m s) = Nat.min m (String.length s).
Proof.
  induction s as [|c s IH]; intros [|m]; cbn; try done. by rewrite IH.
Qed.

Lemma substring_append_prefix s t : ∀ m,
  m ≤ String.length s →
  String.substring 0 m (String.append s t) = String.substring 0 m s.
Proof.
  induction s as [|c s IH]; intros [|m] Hm; cbn in *; try done; try lia.
  - by destruct t.
  - change (String.append (String c s) t) with (String c (String.append s t)).
    cbn. rewrite IH by lia. done.
Qed.

Lemma substring_substring s : ∀ m,
  String.substring 0 m (String.substring 0 m s) = String.substring 0 m s.
Proof. induction s as [|c s IH]; intros [|m]; cbn; try done. by rewrite IH. Qed.

Lemma shorten_length lab : String.length (shorten lab) = Nat.min (String.length lab) 30.
Proof.
  unfold shorten. destruct (30 <? String.length lab) eqn:Hl.
  - apply Nat.ltb_lt in Hl.
    rewrite string_length_append, string_length_substring.
    change (String.length "...") with 3. lia.
  - apply Nat.ltb_ge in Hl. lia.
Qed.

(** X23: a drawn label is the label itself when it has at most 30
    characters, and its first 27 characters followed by "..." otherwise;
    so it has at most 30 characters and keeps the first 27.  No label
    drawn at a node or at an edge of a graph is longer than 30 characters,
    and an edge gets a label exactly when its [label] is not empty. *)
Theorem drawn_labels_short {P} (G : digraph P) :
  (∀ lab, String.length (shorten lab) = Nat.min (String.length lab) 30 ∧
          String.substring 0 27 (shorten lab) = String.substring 0 27 lab ∧
          (shorten lab = lab ∨
           (30 < String.length lab ∧
            shorten lab = String.append (String.substring 0 27 lab) "..."))) ∧
  dom (node_labels G) = dom (nodes G) ∧
  (∀ v lab, node_labels G !! v = Some lab → String.length lab ≤ 30) ∧
  (∀ e, is_Some (edge_labels G !! e) ↔
        ∃ d, edges G !! e = Some d ∧ e_label d ≠ "") ∧
  (∀ e lab, edge_labels G !! e = Some lab → 1 ≤ String.length lab ≤ 30).
Proof.
  split; [|split; [|split; [|split]]].
  - intros lab. split; [apply shorten_length|]. unfold shorten.
    destruct (30 <? String.length lab) eqn:Hl.
    + apply Nat.ltb_lt in Hl. split; [|by right].
      rewrite substring_append_prefix.
      * apply substring_substring.
      * rewrite string_length_substring. lia.
    + split; [done | by left].
  - unfold node_labels. apply dom_fmap_L.
  - intros v lab. unfold node_labels. rewrite lookup_fmap.
    destruct (nodes G !! v) as [a|]; [|done]. cbn. intros [= <-].
    rewrite shorten_length. lia.
  - intros e. unfold edge_labels. rewrite lookup_omap.
    destruct (edges G !! e) as [d|]; cbn.
    + case_bool_decide as Hd; split.
      * by intros [? ?].
      * intros (d' & [= <-] & Hne). done.
      * intros _. by exists d.
      * intros _. by eexists.
    + split; [by intros [? ?] | by intros (? & ? & _)].
  - intros e lab. unfold edge_labels. rewrite lookup_omap.
    destruct (edges G !! e) as [d|]; [|done]. cbn.
    case_bool_decide as Hd; [done|]. intros [= <-].
    rewrite shorten_length.
    destruct (e_label d) as [|c l]; [done|]. cbn [String.length]. lia.
Qed.

(** X24: the labels drawn on the graph of a list of triplets.  Every node
    is labelled with its own name, shortened; an edge is labelled with the
    predicate of the first triplet from its subject to its object,
    shortened, and has no label when that predicate is empty. *)
Theorem drawn_labels_of_triplets it ts :
  (∀ v, node_labels (build_graph_from_triplets it ts) !! v
        = (if bool_decide (v ∈ endpoints ts) then Some (shorten v) else None)) ∧
  (∀ e, edge_labels (build_graph_from_triplets it ts) !! e
        = match head (preds_on e ts) with
          | Some p => if bool_decide (p = "") then None else Some (shorten p)
          | None => None
          end).
Proof.
  split.
  - intros v. unfold node_labels, build_graph_from_triplets. cbn [expose nodes].
    rewrite lookup_fmap, nodes_aggregate. by case_bool_decide.
  - intros e. unfold edge_labels. rewrite lookup_omap.
    pose proof (label_of_build it ts e) as Hl. unfold label_of in Hl.
    destruct (edges (build_graph_from_triplets it ts) !! e) as [d|];
      cbn in Hl |- *; by rewrite <- Hl.
Qed.

Lemma color_step_snoc types t :
  foldl color_step (∅, 0, []) (types ++ [t])
    = color_step (foldl color_step (∅, 0, []) types) t.
Proof. by rewrite foldl_app. Qed.

(** The state of the colouring loop after the types [types]. *)
Lemma type_colors_invariant types :
  ∃ unique idx colors,
    foldl color_step (∅, 0, []) types = (unique, idx, colors) ∧
    Forall2 (fun t c => unique !! t = Some c) types colors ∧
    (∀ t c, unique !! t = Some c → c < idx) ∧
    (∀ t1 t2 c, unique !! t1 = Some c → unique !! t2 = Some c → t1 = t2) ∧
    idx ≤ length types.
Proof.
  induction types as [|t types (unique & idx & colors & Heq & Hal & Hlt & Hinj & Hle)]
    using rev_ind.
  - exists ∅, 0, []. split; [done|]. split; [constructor|].
    split; [|split; [|done]]; intros *; by rewrite lookup_empty.
  - rewrite color_step_snoc, Heq, length_app. cbn [color_step length].
    destruct (unique !! t) as [c|] eqn:Ht.
    + exists unique, idx, (colors ++ [c]). split; [done|].
      split; [|split; [done|split; [done|lia]]].
      apply Forall2_app; [done|]. by constructor.
    + exists (<[t := idx]> unique), (idx + 1), (colors ++ [idx]).
      split; [done|]. split; [|split; [|split; [|lia]]].
      * apply Forall2_app.
        -- eapply Forall2_impl; [exact Hal|]. intros t' c' H'. cbn in H'.
           rewrite lookup_insert_ne; [done|]. intros <-. congruence.
        -- constructor; [|constructor]. by rewrite lookup_insert_eq.
      * intros t' c'. rewrite lookup_insert. case_decide as Hd.
        -- intros [= <-]. lia.
        -- intros H'. pose proof (Hlt t' c' H'). lia.
      * intros t1 t2 c'. rewrite !lookup_insert.
        repeat case_decide; subst; intros H1 H2; try congruence.
        -- injection H1 as <-. pose proof (Hlt _ _ H2). lia.
        -- injection H2 as <-. pose proof (Hlt _ _ H1). lia.
        -- by eapply Hinj.
Qed.

(** X25: the colours by type.  There is one colour per node; two nodes
    have the same colour exactly when they have the same type; and every
    colour is a number below the number of nodes. *)
Theorem type_colors_by_type node_types :
  length (type_colors node_types) = length node_types ∧
  (∀ i j ti tj ci cj,
      node_types !! i = Some ti → node_types !! j = Some tj →
      type_colors node_types !! i = Some ci → type_colors node_types !! j = Some cj →
      (ci = cj ↔ ti = tj)) ∧
  Forall (fun c => c < length node_types) (type_colors node_types).
Proof.
  unfold type_colors.
  destruct (type_colors_invariant node_types)
    as (unique & idx & colors & -> & Hal & Hlt & Hinj & Hle). cbn [snd].
  split; [by rewrite (Forall2_length _ _ _ Hal)|]. split.
  - intros i j ti tj ci cj Hi Hj Hci Hcj.
    pose proof (Forall2_lookup_lr _ _ _ _ _ _ Hal Hi Hci) as H1.
    pose proof (Forall2_lookup_lr _ _ _ _ _ _ Hal Hj Hcj) as H2.
    cbn in H1, H2. split.
    + intros <-. by eapply Hinj.
    + intros <-. congruence.
  - apply Forall_forall. intros c Hc.
    apply list_elem_of_lookup_1 in Hc as [i Hi].
    destruct (Forall2_lookup_r _ _ _ _ _ Hal Hi) as (t & _ & Ht).
    pose proof (Hlt _ _ Ht). lia.
Qed.

End LabelsAndColours.

(** ** src/nlp_pipeline.py: relations of a sentence *)

Section Relations.
Import NlpPipeline.
Local Open Scope nat_scope.

Lemma dedupe_snoc relations r :
  foldl dedupe_step (∅, []) (relations ++ [r])
    = dedupe_step (foldl dedupe_step (∅, []) relations) r.
Proof. by rewrite foldl_app. Qed.

(** The state of the loop of lines 77-85 after the relations [relations]. *)
Lemma dedupe_invariant relations :
  let st := foldl dedupe_step (∅, []) relations in
  (∀ r, r ∈ st.1 ↔ r ∈ st.2) ∧ NoDup st.2 ∧
  (∀ r, r ∈ st.2 ↔ r ∈ relations) ∧ st.2 `sublist_of` relations.
Proof.
  induction relations as [|r relations IH] using rev_ind.
  - cbn. split; [|split; [constructor|split; [done|constructor]]].
    intros r. rewrite elem_of_empty. split; [done|]. by intros ?%elem_of_nil.
  - cbn zeta in *. rewrite dedupe_snoc.
    destruct (foldl dedupe_step (∅, []) relations) as [seen out].
    cbn [fst snd] in *. destruct IH as (Hseen & Hnd & Hel & Hsub).
    unfold dedupe_step. cbn [fst snd]. case_bool_decide as Hr; cbn [fst snd].
    + split; [done|]. split; [done|]. split.
      * intros r'. rewrite elem_of_app, list_elem_of_singleton, Hel.
        split; [by left|]. intros [?| ->]; [done|]. by apply Hel, Hseen.
      * by apply sublist_inserts_r.
    + split; [|split; [|split]].
      * intros r'. rewrite elem_of_union, elem_of_singleton, elem_of_app,
          list_elem_of_singleton, Hseen. done.
      * apply NoDup_app. split; [done|]. split; [|apply NoDup_singleton].
        intros r' H1 ->%list_elem_of_singleton. by apply Hr, Hseen.
      * intros r'. by rewrite !elem_of_app, Hel.
      * by apply sublist_app.
Qed.

Lemma link_entities_lookup ents i :
  link_entities ents !! i
    = (if S i <? length ents
       then Some (ents !!! i, "related_to", ents !!! (i + 1)) else None).
Proof.
  unfold link_entities. destruct (2 <=? length ents) eqn:H2.
  - apply Nat.leb_le in H2. rewrite list_lookup_fmap.
    destruct (S i <? length ents) eqn:Hi.
    + apply Nat.ltb_lt in Hi. rewrite lookup_seq_lt by lia. done.
    + apply Nat.ltb_ge in Hi. rewrite lookup_seq_ge by lia. done.
  - apply Nat.leb_gt in H2. destruct (S i <? length ents) eqn:Hi; [|done].
    apply Nat.ltb_lt in Hi. lia.
Qed.

(** The loop of lines 77-85 from a state in which [seen] holds what [out]
    holds. *)
Lemma dedupe_from n : ∀ (relations : list relation) seen out,
  length relations ≤ n → (∀ r, r ∈ seen ↔ r ∈ out) →
  (foldl dedupe_step (seen, out) relations).2
    = out ++ dedupe (filter (fun y => y ∉ out) relations).
Proof.
  induction n as [|n IH]; intros relations seen out Hn Hseen.
  - destruct relations; [|cbn in Hn; lia]. cbn. by rewrite app_nil_r.
  - destruct relations as [|x xs]; [cbn; by rewrite app_nil_r|].
    cbn in Hn. cbn [foldl]. rewrite filter_cons. unfold dedupe_step at 2.
    cbn [fst snd]. case_bool_decide as Hx.
    + rewrite decide_False by (intros Hn'; apply Hn'; by apply Hseen).
      apply IH; [lia | done].
    + rewrite decide_True by (intros Hx'; apply Hx; by apply Hseen).
      rewrite (IH xs (seen ∪ {[x]}) (out ++ [x])); [|lia|].
      2:{ intros r. rewrite elem_of_union, elem_of_singleton, elem_of_app,
            list_elem_of_singleton, Hseen. done. }
      unfold dedupe at 2. cbn [foldl]. unfold dedupe_step at 2. cbn [fst snd].
      rewrite (bool_decide_eq_false_2 (x ∈ (∅ : gset relation)))
        by apply not_elem_of_empty.
      cbn [app].
      rewrite (IH (filter (fun y => y ∉ out) xs) (∅ ∪ {[x]}) [x]).
      * rewrite <- (assoc_L (++)). do 2 f_equal.
        rewrite list_filter_filter. f_equal. apply filter_ext_in. intros y _.
        rewrite elem_of_app. split.
        -- intros Hn'. split; intros ?; apply Hn'; [by right | by left].
        -- intros [H1 H2] [?|?]; done.
      * pose proof (length_filter (fun y => y ∉ out) xs). lia.
      * intros r. rewrite elem_of_union, elem_of_singleton, list_elem_of_singleton.
        split; [by intros [?%elem_of_empty|?] | by right].
Qed.

(** The first occurrence of a relation stays, the later ones go. *)
Lemma dedupe_cons (r : relation) relations :
  dedupe (r :: relations) = r :: dedupe (filter (fun y => y ≠ r) relations).
Proof.
  unfold dedupe at 1. cbn [foldl]. unfold dedupe_step at 2. cbn [fst snd].
  rewrite (bool_decide_eq_false_2 (r ∈ (∅ : gset relation)))
    by apply not_elem_of_empty.
  cbn [app]. rewrite (dedupe_from (length relations)); [|done|].
  - cbn [app]. do 2 f_equal. apply filter_ext_in. intros y _.
    by rewrite list_elem_of_singleton.
  - intros r'. rewrite elem_of_union, elem_of_singleton, list_elem_of_singleton.
    split; [by intros [?%elem_of_empty|?] | by right].
Qed.

(** Of two relations in the result, the one that comes first has an
    occurrence in the input before every occurrence of the other. *)
Lemma dedupe_order (relations : list relation) : ∀ i1 i2 r1 r2,
  i1 < i2 → dedupe relations !! i1 = Some r1 → dedupe relations !! i2 = Some r2 →
  ∃ k1, relations !! k1 = Some r1 ∧ ∀ k2, k2 ≤ k1 → relations !! k2 ≠ Some r2.
Proof.
  unfold dedupe.
  induction relations as [|x relations IH] using rev_ind; intros i1 i2 r1 r2 Hlt H1 H2.
  - done.
  - destruct (dedupe_invariant relations) as (Hseen & Hnd & Hel & _).
    cbn zeta in *. rewrite dedupe_snoc in H1, H2.
    destruct (foldl dedupe_step (∅, []) relations) as [seen out] eqn:Hst.
    cbn [fst snd] in *. unfold dedupe_step in H1, H2. cbn [fst snd] in H1, H2.
    assert (Hold : ∀ r1' r2', out !! i1 = Some r1' → out !! i2 = Some r2' →
              ∃ k1, (relations ++ [x]) !! k1 = Some r1' ∧
                    ∀ k2, k2 ≤ k1 → (relations ++ [x]) !! k2 ≠ Some r2').
    { intros r1' r2' H1' H2'.
      destruct (IH i1 i2 r1' r2' Hlt H1' H2') as (k1 & Hk1 & Hno).
      pose proof (lookup_lt_Some _ _ _ Hk1) as Hk1lt.
      exists k1. split; [by rewrite lookup_app_l|].
      intros k2 Hk2. rewrite lookup_app_l by lia. by apply Hno. }
    case_bool_decide as Hx; cbn [fst snd] in H1, H2; [by apply Hold|].
    destruct (decide (i2 < length out)) as [Hi2|Hi2].
    + rewrite lookup_app_l in H1, H2 by lia. by apply Hold.
    + pose proof (lookup_lt_Some _ _ _ H2) as Hi2'.
      rewrite length_app in Hi2'. cbn in Hi2'.
      assert (i2 = length out) as -> by lia.
      rewrite lookup_app_l in H1 by lia.
      rewrite lookup_app_r, Nat.sub_diag in H2 by lia. injection H2 as <-.
      assert (Hr1 : r1 ∈ relations).
      { apply Hel. by eapply list_elem_of_lookup_2. }
      apply list_elem_of_lookup_1 in Hr1 as [k1 Hk1].
      pose proof (lookup_lt_Some _ _ _ Hk1) as Hk1lt.
      exists k1. split; [by rewrite lookup_app_l|].
      intros k2 Hk2. rewrite lookup_app_l by lia. intros Hk2'.
      apply Hx, Hseen, Hel. by eapply list_elem_of_lookup_2.
Qed.

(** X26: the relations of a sentence.  No relation is returned twice;
    the relations returned are those of the matcher and of the dependency
    parse and the links between consecutive entities, in that order, each
    at its first occurrence: the first relation of the list stays where it
    is and its later occurrences go, and so on down the list, so that of
    two relations returned the first has an occurrence in the list before
    every occurrence of the second.  Two consecutive entities are always
    linked by "related_to", also when the parse found relations. *)
Theorem relations_deduplicated_and_linked parsed_relations ents :
  NoDup (extract_relations_from_sentence parsed_relations ents) ∧
  extract_relations_from_sentence parsed_relations ents
    `sublist_of` (parsed_relations ++ link_entities ents) ∧
  (∀ r, r ∈ extract_relations_from_sentence parsed_relations ents ↔
        r ∈ parsed_relations ∨ r ∈ link_entities ents) ∧
  extract_relations_from_sentence parsed_relations ents
    = match parsed_relations ++ link_entities ents with
      | [] => []
      | r :: relations => r :: dedupe (filter (fun y => y ≠ r) relations)
      end ∧
  (∀ r relations,
      dedupe (r :: relations) = r :: dedupe (filter (fun y => y ≠ r) relations)) ∧
  (∀ i1 i2 r1 r2,
      i1 < i2 →
      extract_relations_from_sentence parsed_relations ents !! i1 = Some r1 →
      extract_relations_from_sentence parsed_relations ents !! i2 = Some r2 →
      ∃ k1, (parsed_relations ++ link_entities ents) !! k1 = Some r1 ∧
            ∀ k2, k2 ≤ k1 →
                  (parsed_relations ++ link_entities ents) !! k2 ≠ Some r2) ∧
  (∀ i a b, ents !! i = Some a → ents !! (i + 1) = Some b →
            (a, "related_to", b)
              ∈ extract_relations_from_sentence parsed_relations ents) ∧
  (∀ r, r ∈ link_entities ents ↔
        ∃ i a b, ents !! i = Some a ∧ ents !! (i + 1) = Some b ∧
                 r = (a, "related_to", b)).
Proof.
  unfold extract_relations_from_sentence.
  destruct (dedupe_invariant (parsed_relations ++ link_entities ents))
    as (_ & Hnd & Hel & Hsub). cbn zeta in *.
  fold (dedupe (parsed_relations ++ link_entities ents)) in Hnd, Hel, Hsub.
  assert (Hlink : ∀ r, r ∈ link_entities ents ↔
        ∃ i a b, ents !! i = Some a ∧ ents !! (i + 1) = Some b ∧
                 r = (a, "related_to", b)).
  { intros r. split.
    - intros [i Hi]%list_elem_of_lookup_1. rewrite link_entities_lookup in Hi.
      destruct (S i <? length ents) eqn:Hlt; [|done]. apply Nat.ltb_lt in Hlt.
      injection Hi as <-. exists i, (ents !!! i), (ents !!! (i + 1)).
      split; [|split; [|done]]; apply list_lookup_lookup_total_lt; lia.
    - intros (i & a & b & Ha & Hb & ->). apply list_elem_of_lookup_2 with i.
      rewrite link_entities_lookup.
      pose proof (lookup_lt_Some _ _ _ Hb) as Hlt.
      replace (S i <? length ents) with true by (symmetry; apply Nat.ltb_lt; lia).
      by rewrite (list_lookup_total_correct _ _ _ Ha),
                 (list_lookup_total_correct _ _ _ Hb). }
  split; [done|]. split; [done|]. split; [|split; [|split; [|split; [|split; [|done]]]]].
  - intros r. by rewrite Hel, elem_of_app.
  - destruct (parsed_relations ++ link_entities ents) as [|r relations]; [done|].
    apply dedupe_cons.
  - apply dedupe_cons.
  - apply dedupe_order.
  - intros i a b Ha Hb. apply Hel, elem_of_app. right. apply Hlink. eauto 6.
Qed.

(** A relation that comes back after another one is dropped there. *)
Example dedupe_first_occurrences (r1 r2 : relation) :
  r1 ≠ r2 → dedupe [r1; r2; r1] = [r1; r2].
Proof.
  intros Hne. rewrite dedupe_cons. rewrite filter_cons_True by done.
  rewrite filter_cons_False by (intros H; by apply H). rewrite filter_nil.
  rewrite dedupe_cons. done.
Qed.

End Relations.

(** ** src/nlp_pipeline.py: pronouns *)

Section Coreference.
Import NlpPipeline.
Local Open Scope nat_scope.
Context (doc_ents : string → list (string * string)).
Context (replace_pronouns : string → string → string).

Lemma coref_snoc st sentences sent :
  foldl (coref_step doc_ents replace_pronouns) st (sentences ++ [sent]) = coref_step doc_ents replace_pronouns (foldl (coref_step doc_ents replace_pronouns) st sentences) sent.
Proof. by rewrite foldl_app. Qed.

(** The loop only appends to [resolved], one sentence at a time. *)
Lemma coref_appends st sentences :
  ∃ out, (foldl (coref_step doc_ents replace_pronouns) st sentences).2 = st.2 ++ out ∧ length out = length sentences.
Proof.
  induction sentences as [|sent sentences (out & Heq & Hlen)] using rev_ind.
  - exists []. by rewrite app_nil_r.
  - rewrite coref_snoc. unfold coref_step at 1. cbn [snd]. rewrite Heq.
    eexists. rewrite <- app_assoc. split; [done|].
    rewrite !length_app. cbn. lia.
Qed.

(** [last_entity] after sentences none of which has an antecedent. *)
Lemma last_entity_kept st sentences :
  Forall (fun s => antecedents doc_ents s = []) sentences → (foldl (coref_step doc_ents replace_pronouns) st sentences).1 = st.1.
Proof.
  induction sentences as [|sent sentences IH] using rev_ind; [done|].
  intros [Hs Hsent%Forall_inv]%Forall_app. rewrite coref_snoc.
  unfold coref_step at 1. cbn [fst]. rewrite Hsent. cbn. by apply IH.
Qed.

(** [last_entity] after a sentence that has an antecedent, and further
    sentences that have none. *)
Lemma last_entity_set st before sent e after :
  last (antecedents doc_ents sent) = Some e → Forall (fun s => antecedents doc_ents s = []) after →
  (foldl (coref_step doc_ents replace_pronouns) st (before ++ sent :: after)).1 = Some e.
Proof.
  intros He Hafter. rewrite foldl_app. cbn [foldl].
  rewrite last_entity_kept by done. unfold coref_step. cbn [fst]. by rewrite He.
Qed.

(** What the loop appends for the sentence [sent] that follows [before]. *)
Lemma coref_lookup before sent after :
  naive_coref_resolution doc_ents replace_pronouns (before ++ sent :: after)
    !! length before
  = Some (sub_pronouns replace_pronouns
            (match last (antecedents doc_ents sent) with
             | Some e => Some e
             | None => (foldl (coref_step doc_ents replace_pronouns) (None, []) before).1
             end) sent).
Proof.
  unfold naive_coref_resolution. rewrite foldl_app. cbn [foldl].
  destruct (coref_appends (coref_step doc_ents replace_pronouns (foldl (coref_step doc_ents replace_pronouns) (None, []) before) sent) after)
    as (out & -> & _).
  destruct (coref_appends (None, []) before) as (out' & Hout' & Hlen).
  cbn [snd app] in Hout'. unfold coref_step at 1. cbn [snd]. rewrite Hout'.
  rewrite <- app_assoc. rewrite lookup_app_r by lia.
  by replace (length before - length out') with 0 by lia.
Qed.

(** X27: pronouns are replaced by the most recent antecedent.  There is one
    resolved sentence per sentence.  A sentence is unchanged when neither
    it nor a sentence before it has an entity with one of the labels;
    otherwise its pronouns are replaced by the last such entity of the
    latest sentence, up to itself, that has one, unless the text of that
    entity is empty. *)
Theorem coref_most_recent_antecedent sentences :
  length (naive_coref_resolution doc_ents replace_pronouns sentences)
    = length sentences ∧
  (∀ i sent, sentences !! i = Some sent →
     Forall (fun s => antecedents doc_ents s = []) (take (S i) sentences) →
     naive_coref_resolution doc_ents replace_pronouns sentences !! i = Some sent) ∧
  (∀ i j sent s e,
     sentences !! i = Some sent → sentences !! j = Some s → j ≤ i →
     last (antecedents doc_ents s) = Some e →
     (∀ k s', j < k ≤ i → sentences !! k = Some s' → antecedents doc_ents s' = []) →
     naive_coref_resolution doc_ents replace_pronouns sentences !! i
       = Some (if bool_decide (e = "") then sent else replace_pronouns e sent)).
Proof.
  split; [|split].
  - unfold naive_coref_resolution.
    destruct (coref_appends (None, []) sentences) as (out & -> & Hlen). done.
  - intros i sent Hi Hnone.
    pose proof (take_drop_middle _ _ _ Hi) as Hsplit.
    rewrite (take_S_r _ _ _ Hi) in Hnone.
    apply Forall_app in Hnone as [Hbefore Hsent%Forall_inv].
    rewrite <- Hsplit at 1.
    pose proof (coref_lookup (take i sentences) sent (drop (S i) sentences)) as Hl.
    rewrite length_take_le in Hl by (apply lookup_lt_Some in Hi; lia).
    rewrite Hl, Hsent. cbn [last].
    by rewrite (last_entity_kept (None, []) _ Hbefore).
  - intros i j sent s e Hi Hj Hji He Hbetween.
    pose proof (take_drop_middle _ _ _ Hi) as Hsplit.
    pose proof (lookup_lt_Some _ _ _ Hi) as Hlt.
    pose proof (coref_lookup (take i sentences) sent (drop (S i) sentences)) as Hl.
    rewrite length_take_le in Hl by lia. rewrite Hsplit in Hl. rewrite Hl.
    destruct (decide (j = i)) as [->|Hne].
    + rewrite Hj in Hi. injection Hi as ->. by rewrite He.
    + assert (Hsent : antecedents doc_ents sent = []) by (apply (Hbetween i); [lia|done]).
      rewrite Hsent. cbn [last].
      assert (Hj' : take i sentences !! j = Some s)
        by (rewrite lookup_take_lt by lia; done).
      pose proof (take_drop_middle _ _ _ Hj') as Hsplit'.
      rewrite <- Hsplit'.
      rewrite (last_entity_set (None, []) _ s e); [done|done|].
      apply Forall_forall. intros s' [k Hk]%list_elem_of_lookup_1.
      rewrite lookup_drop in Hk.
      pose proof (lookup_lt_Some _ _ _ Hk) as Hk'. rewrite length_take in Hk'.
      rewrite lookup_take_lt in Hk by lia.
      apply (Hbetween (S j + k)); [lia|done].
Qed.

(** X28: entities with other labels are no antecedents.  When no entity
    of any sentence has one of the five labels of line 96 the sentences are
    returned as they are. *)
Theorem coref_without_antecedent sentences :
  Forall (fun s => Forall (fun e => e.2 ∉ antecedent_labels) (doc_ents s)) sentences →
  naive_coref_resolution doc_ents replace_pronouns sentences = sentences.
Proof.
  intros Hnone.
  assert (Hante : Forall (fun s => antecedents doc_ents s = []) sentences).
  { eapply Forall_impl; [exact Hnone|]. intros s Hs. cbv beta in Hs.
    unfold antecedents. induction Hs as [|e l He _ IH]; [done|].
    cbn [List.filter]. rewrite bool_decide_eq_false_2 by done. exact IH. }
  clear Hnone. unfold naive_coref_resolution.
  induction sentences as [|sent sentences IH] using rev_ind; [done|].
  apply Forall_app in Hante as [Hante Hsent%Forall_inv].
  specialize (IH Hante). rewrite coref_snoc. unfold coref_step at 1. cbn [snd].
  rewrite IH, Hsent. cbn [last].
  rewrite (last_entity_kept (None, []) sentences) by done. done.
Qed.

End Coreference.

Section CoreferenceExample.
Import NlpPipeline.

(** A place name is labelled GPE: "It" is not replaced. *)
Lemma coref_without_antecedent_example :
  Forall (fun s => Forall (fun e => e.2 ∉ antecedent_labels)
                     (if bool_decide (s = "Paris is old.")
                      then [("Paris", "GPE")] else []))
         ["Paris is old."; "It is big."] ∧
  naive_coref_resolution
    (fun s => if bool_decide (s = "Paris is old.") then [("Paris", "GPE")] else [])
    (fun e _ => e) ["Paris is old."; "It is big."]
  = ["Paris is old."; "It is big."].
Proof.
  assert (H : Forall (fun s => Forall (fun e => e.2 ∉ antecedent_labels)
                     (if bool_decide (s = "Paris is old.")
                      then [("Paris", "GPE")] else []))
         ["Paris is old."; "It is big."]).
  { repeat constructor. cbn. unfold antecedent_labels.
    rewrite !elem_of_cons. intros [H|[H|[H|[H|[H|H]]]]]; try discriminate H.
    by apply elem_of_nil in H. }
  split; [exact H|].
  exact (coref_without_antecedent _ (fun e _ => e) _ H).
Defined.

End CoreferenceExample.

(** ** src/embeddings.py: the cached model *)

Section CachedModel.
Import ModelCache.
Context {model : Type} (SentenceTransformer : string → model).
Context (encode_with : model → list string → list (list R)).

(** With the model in place no call constructs one. *)
Lemma calls_cached m names batches :
  calls SentenceTransformer encode_with (Globals (Some m) names) batches
    = (map (fun b => Embeddings.deduplicate_entities (encode_with m) b.1 b.2) batches,
       Globals (Some m) names).
Proof.
  induction batches as [|[texts th] batches IH]; [done|].
  cbn [calls map fst snd]. unfold ModelCache.deduplicate_entities, get_model.
  cbn [_model]. destruct texts as [|t texts]; by rewrite IH.
Qed.

(** X29: the model is constructed lazily, and once.  The calls of one
    process return what the function of the model [MODEL_NAME] returns on
    each input; no model is constructed as long as the inputs are empty,
    and one model, of that name, from the first input that is not. *)
Theorem model_constructed_once batches :
  (calls SentenceTransformer encode_with start batches).1
    = map (fun b => Embeddings.deduplicate_entities
                      (encode_with (SentenceTransformer MODEL_NAME)) b.1 b.2)
          batches ∧
  constructed (calls SentenceTransformer encode_with start batches).2
    = (if forallb (fun b => bool_decide (b.1 = [])) batches
       then [] else [MODEL_NAME]) ∧
  _model (calls SentenceTransformer encode_with start batches).2
    = (if forallb (fun b => bool_decide (b.1 = [])) batches
       then None else Some (SentenceTransformer MODEL_NAME)).
Proof.
  induction batches as [|[texts th] batches (IH1 & IH2 & IH3)]; [done|].
  cbn [calls forallb map fst snd]. destruct texts as [|t texts].
  - cbn [ModelCache.deduplicate_entities]. rewrite bool_decide_eq_true_2 by done.
    cbn [andb].
    destruct (calls SentenceTransformer encode_with start batches)
      as [os g2]. cbn [fst snd] in *. by rewrite IH1.
  - rewrite bool_decide_eq_false_2 by done. cbn [andb].
    unfold ModelCache.deduplicate_entities, get_model, start. cbn [_model constructed app].
    by rewrite calls_cached.
Qed.

End CachedModel.

(** ** src/ingestion.py: the pages of a PDF *)

Section Pages.
Import Ingestion.
Local Open Scope nat_scope.

Lemma ingestion_strip_strip s : Ingestion.strip (Ingestion.strip s) = Ingestion.strip s.
Proof.
  unfold Ingestion.strip. by rewrite list_ascii_of_string_of_list_ascii, strip_strip.
Qed.

Lemma extract_from_spec ocr doc : ∀ i pages,
  extract_from ocr i doc pages
    = (fun texts => pages ++ zip (seq i (length doc)) texts)
        <$> mapM (fun loaded => loaded ≫= page_text ocr) doc.
Proof.
  induction doc as [|[p|] doc IH]; intros i pages.
  - cbn. by rewrite app_nil_r.
  - cbn [extract_from mapM length seq mbind option_bind].
    destruct (page_text ocr p) as [text|]; [|done].
    rewrite IH. cbn. destruct (mapM _ doc) as [texts|]; [|done].
    cbn. by rewrite <- app_assoc.
  - done.
Qed.

Lemma page_text_off p :
  page_text false p = Some (default "" (Ingestion.strip <$> get_text p)).
Proof. unfold page_text. rewrite andb_false_r. by destruct (get_text p). Qed.

(** X30: the pages of a PDF.  When the function returns, the document was
    opened and all its pages were loaded, and there is one entry per page,
    numbered from 1 in the order of the document, with the text of that
    page.  An exception leaves the function when the document cannot be
    opened, when a page cannot be loaded, or, with OCR switched on, at a
    page whose text layer is blank or unreadable and which cannot be
    rendered.  With OCR switched off and a document that opens and loads,
    every text is the stripped text layer, the empty text where reading it
    raised. *)
Theorem pdf_pages_numbered {input} (open_pdf : input → option (list (option page)))
    path_or_bytes ocr_if_needed :
  match extract_text_from_pdf open_pdf path_or_bytes ocr_if_needed with
  | Some pages =>
      ∃ doc, open_pdf path_or_bytes = Some (map Some doc) ∧
             map fst pages = seq 1 (length doc) ∧
             Forall2 (fun p text => page_text ocr_if_needed p = Some text)
                     doc (map snd pages)
  | None =>
      open_pdf path_or_bytes = None ∨
      ∃ doc, open_pdf path_or_bytes = Some doc ∧
             Exists (fun loaded =>
                       match loaded with
                       | None => True
                       | Some p =>
                           ocr_if_needed = true ∧ renders p = false ∧
                           default "" (Ingestion.strip <$> get_text p) = ""
                       end) doc
  end ∧
  (∀ doc, open_pdf path_or_bytes = Some (map Some doc) →
          extract_text_from_pdf open_pdf path_or_bytes false
          = Some (zip (seq 1 (length doc))
                      (map (fun p => default "" (Ingestion.strip <$> get_text p)) doc))) ∧
  (∀ pages, extract_text_from_pdf open_pdf path_or_bytes false = Some pages →
            Forall (fun e => Ingestion.strip e.2 = e.2) pages).
Proof.
  unfold extract_text_from_pdf.
  assert (Hoff : ∀ doc, mapM (fun loaded => loaded ≫= page_text false) (map Some doc)
                 = Some (map (fun p => default "" (Ingestion.strip <$> get_text p)) doc)).
  { intros doc. apply mapM_Some. apply Forall2_fmap. apply Forall_Forall2_diag.
    apply Forall_forall. intros p _. cbn. apply page_text_off. }
  assert (Hloaded : ∀ ocr doc texts,
             mapM (fun loaded => loaded ≫= page_text ocr) doc = Some texts →
             ∃ doc', doc = map Some doc' ∧
                     Forall2 (fun p text => page_text ocr p = Some text) doc' texts).
  { intros ocr doc. induction doc as [|[p|] doc IH]; intros texts Hm.
    - cbn in Hm. injection Hm as <-. exists []. split; [done | constructor].
    - cbn [mapM mbind option_bind] in Hm.
      destruct (page_text ocr p) as [text|] eqn:Hp; [|done]. cbn in Hm.
      destruct (mapM _ doc) as [rest|] eqn:Hrest; [|done]. cbn in Hm.
      injection Hm as <-. destruct (IH rest eq_refl) as (doc' & -> & Hall).
      exists (p :: doc'). split; [done | by constructor].
    - done. }
  split; [|split].
  - destruct (open_pdf path_or_bytes) as [doc|] eqn:Hopen; [|by left].
    rewrite extract_from_spec. cbn [app].
    destruct (mapM _ doc) as [texts|] eqn:Hm; cbn.
    + destruct (Hloaded _ _ _ Hm) as (doc' & -> & Hall).
      exists doc'. split; [done|].
      pose proof (Forall2_length _ _ _ Hall) as Hlen. rewrite length_map.
      rewrite fst_zip by (rewrite length_seq; lia).
      rewrite snd_zip by (rewrite length_seq; lia). done.
    + right. exists doc. split; [done|]. clear Hopen.
      induction doc as [|[p|] doc IH]; [done| |by apply Exists_cons_hd].
      cbn [mapM mbind option_bind] in Hm.
      destruct (page_text ocr_if_needed p) as [text|] eqn:Hp.
      * apply Exists_cons_tl, IH. cbn in Hm. by destruct (mapM _ doc).
      * apply Exists_cons_hd. unfold page_text in Hp.
        destruct (get_text p) as [t|]; cbn in *.
        -- case_bool_decide as Ht; [|done]. destruct ocr_if_needed; [|done].
           by destruct (renders p).
        -- destruct ocr_if_needed; [|done]. by destruct (renders p).
  - intros doc ->. rewrite extract_from_spec, Hoff, length_map. done.
  - destruct (open_pdf path_or_bytes) as [doc|]; [|done].
    rewrite extract_from_spec. cbn [app]. intros pages Hp.
    destruct (mapM _ doc) as [texts|] eqn:Hm; [|done]. cbn in Hp.
    injection Hp as <-. destruct (Hloaded _ _ _ Hm) as (doc' & -> & Hall).
    apply Forall_forall. intros [i text] [k Hk]%list_elem_of_lookup_1.
    apply lookup_zip_with_Some in Hk as (i' & text' & [= <- <-] & _ & Ht).
    destruct (Forall2_lookup_r _ _ _ _ _ Hall Ht) as (p & _ & Hpt).
    rewrite page_text_off in Hpt. injection Hpt as <-. cbn [snd].
    destruct (get_text p); cbn; [apply ingestion_strip_strip | done].
Qed.

End Pages.
